(** * The crawler of the analytics platform: [ScraperService] and the
      scraping job of [routes.ts]

    A shallow embedding of [server/services/scraper.ts] (class
    [ScraperService]: [scrapePage], [extractCategories], [sanitizeFilename],
    [getDomain], [scrapeWebsite]) and of the background job that
    [POST /api/scrape/start] launches in [server/routes.ts].

    It is followed by what the job and the other routes call:
    [GraphBuilderService] of [server/services/graph-builder.ts]
    ([buildGraph], [calculateGraphStatistics], [findConnectedComponents],
    [filterGraph], [getNodeNeighbors], [sanitizeLabel]), the entities and
    the documents of [MemStorage] in [server/storage.ts] with the loop of
    the job that saves the entities of a document, and [generateCSV] of
    [server/routes.ts].

    Conventions.
    - A JavaScript string is kept as the bytes of its UTF-8 encoding (a
      string with a lone surrogate has none and is left out). White space
      is the white space of ECMAScript, [WhiteSpace] and [LineTerminator],
      in that encoding; [length] counts UTF-16 code units; [toLowerCase],
      which follows the case tables of the engine, is a parameter.
    - [maxDepth] is a number, as [z.number().min(1).max(5)] lets it through:
      a rational. [maxWorkers] is only passed to [splice], which truncates
      it: it is kept as the whole number [splice] makes of it. The counters
      are natural numbers.
    - One run sees one state of the site: what [fetch] answers is a function
      of the URL.
    - What the platform provides ([fetch], [new URL], the cheerio queries) is
      a parameter of the development: class [Platform]. Every general theorem
      holds for every platform; the worked examples fix a concrete one.
    - A JavaScript computation that may throw lives in the monad [Exc].
    - Frequencies, word counts and times are whole numbers, as the integer
      and timestamp columns have them; the two statistics of a graph that
      have a fraction are left to the platform.
    - A [Map] is the list of its entries in insertion order; the
      identifiers of [randomUUID] are a parameter. *)

From Stdlib Require Import Ascii QArith Qround.
From stdpp Require Import gmap strings list pretty sorting.
Close Scope Q_scope.

(** ** Exceptions *)

(** A thrown value: an [Error] object with its [message], or any other
    value ([error instanceof Error] tells them apart). *)
Inductive Thrown : Type :=
  | ErrorObj (msg : string)
  | OtherValue (v : string).

Inductive Exc (A : Type) : Type :=
  | Ok (a : A)
  | Throw (e : Thrown).
Arguments Ok {A} a.
Arguments Throw {A} e.

#[global] Instance Exc_ret : MRet Exc := λ A a, Ok a.
#[global] Instance Exc_bind : MBind Exc := λ A B f m,
  match m with
  | Ok a => f a
  | Throw e => Throw e
  end.

(** [try { body } catch (e) { handler e }] *)
Definition try_catch {A} (body : Exc A) (handler : Thrown → Exc A) : Exc A :=
  match body with
  | Ok a => Ok a
  | Throw e => handler e
  end.

(** [error instanceof Error ? error.message : 'Unknown error'] *)
Definition error_message (e : Thrown) : string :=
  match e with
  | ErrorObj msg => msg
  | OtherValue _ => "Unknown error"
  end.

(** ** The string methods the scraper calls *)

Module JS.

(** [s.startsWith(p)] *)
Fixpoint startsWith (s p : string) : bool :=
  match p with
  | "" => true
  | String a p' =>
      match s with
      | "" => false
      | String b s' => if decide (a = b) then startsWith s' p' else false
      end
  end.

(** [s.includes(sub)]: [sub] occurs in [s] at some position. *)
Fixpoint includes (s sub : string) : bool :=
  startsWith s sub ||
  match s with
  | "" => false
  | String _ s' => includes s' sub
  end.

(** [after_prefix p s]: what follows [p] in [s], when [s] starts with [p]. *)
Fixpoint after_prefix (p s : string) : option string :=
  match p with
  | "" => Some s
  | String a p' =>
      match s with
      | "" => None
      | String b s' => if decide (a = b) then after_prefix p' s' else None
      end
  end.

(** The UTF-8 encoding of a code point. *)
Definition utf8 (n : N) : string :=
  (if n <? 128 then String (ascii_of_N n) ""
   else if n <? 2048 then
     String (ascii_of_N (192 + n / 64)) (String (ascii_of_N (128 + n mod 64)) "")
   else if n <? 65536 then
     String (ascii_of_N (224 + n / 4096))
       (String (ascii_of_N (128 + (n / 64) mod 64))
          (String (ascii_of_N (128 + n mod 64)) ""))
   else
     String (ascii_of_N (240 + n / 262144))
       (String (ascii_of_N (128 + (n / 4096) mod 64))
          (String (ascii_of_N (128 + (n / 64) mod 64))
             (String (ascii_of_N (128 + n mod 64)) ""))))%N.

(** The white space of [trim] and of [\s]: the code points of [WhiteSpace]
    (tab, VT, FF, U+FEFF and the space separators U+0020, U+00A0, U+1680,
    U+2000 to U+200A, U+202F, U+205F, U+3000) and of [LineTerminator] (LF,
    CR, U+2028, U+2029). *)
Definition white_space : list N :=
  [9; 10; 11; 12; 13; 32; 160; 5760;
   8192; 8193; 8194; 8195; 8196; 8197; 8198; 8199; 8200; 8201; 8202;
   8232; 8233; 8239; 8287; 12288; 65279]%N.

(** Their encodings. *)
Definition white_patterns : list string :=
  Eval vm_compute in utf8 <$> white_space.

(** [skip_white s]: what follows the white-space character that [s] starts
    with, if it starts with one. *)
Definition skip_white (s : string) : option string :=
  head (omap (λ w, after_prefix w s) white_patterns).

(** [s.trimStart()]: white-space characters are skipped as long as there
    is one; each takes a byte at least, so the length of [s] is fuel
    enough. *)
Fixpoint trimStart_go (fuel : nat) (s : string) : string :=
  match fuel, skip_white s with
  | S fuel', Some rest => trimStart_go fuel' rest
  | _, _ => s
  end.
Definition trimStart (s : string) : string := trimStart_go (String.length s) s.

(** [s.trimEnd()]: the text is cut where nothing but white space
    follows. *)
Fixpoint trimEnd (s : string) : string :=
  match s with
  | "" => ""
  | String c s' =>
      if decide (trimStart s = "") then "" else String c (trimEnd s')
  end.

(** [s.trim()] *)
Definition trim (s : string) : string := trimEnd (trimStart s).

(** [s.replace(/\s+/g, ' ')]: every maximal run of white space becomes one
    space. [in_run] tells that the previous character was white space. *)
Fixpoint replace_spaces_go (fuel : nat) (in_run : bool) (s : string) : string :=
  match fuel with
  | 0 => ""
  | S fuel' =>
      match skip_white s, s with
      | Some rest, _ =>
          if in_run then replace_spaces_go fuel' true rest
          else String " "%char (replace_spaces_go fuel' true rest)
      | None, String c s' => String c (replace_spaces_go fuel' false s')
      | None, "" => ""
      end
  end.
Definition replace_spaces (s : string) : string :=
  replace_spaces_go (String.length s) false s.

(** [s.split(sep)] for a separator of one character; [cur] is the piece
    being read, reversed. The result always has at least one piece. *)
Fixpoint split_go (sep : ascii) (cur : string) (s : string) : list string :=
  match s with
  | "" => [String.rev cur]
  | String c s' =>
      if decide (c = sep) then String.rev cur :: split_go sep "" s'
      else split_go sep (String c cur) s'
  end.
Definition split (sep : ascii) (s : string) : list string := split_go sep "" s.

(** [s.toLowerCase()] follows the case tables of Unicode that the engine
    carries: it is a parameter of the development. *)
Class Casing := toLowerCase : string → string.

(** [a || b] on strings: the empty string is the only falsy one. *)
Definition or_else (a b : string) : string :=
  if decide (a = "") then b else a.

(** [[...new Set(l)]]: the distinct elements of [l], each at the place of
    its first occurrence. *)
Fixpoint spread_set_go (have : list string) (l : list string) : list string :=
  match l with
  | [] => []
  | x :: l' =>
      if decide (x ∈ have) then spread_set_go have l'
      else x :: spread_set_go (x :: have) l'
  end.
Definition spread_set : list string → list string := spread_set_go [].

(** The UTF-16 code units a byte of the encoding stands for: one for an
    ASCII byte and for the first byte of a character of two or three bytes,
    two for the first byte of a character of four bytes (a surrogate pair),
    none for the bytes that follow a first byte. *)
Definition units (c : ascii) : nat :=
  let n := nat_of_ascii c in
  if (n <? 128)%nat then 1
  else if (n <? 192)%nat then 0
  else if (n <? 240)%nat then 1
  else 2.

(** [s.length] *)
Fixpoint length (s : string) : nat :=
  match s with
  | "" => 0
  | String c s' => units c + length s'
  end.

End JS.

(** ** The platform *)

(** A parsed URL, as far as the scraper reads it. *)
Record URL := { href : string; hostname : string }.

(** A DOM element, as far as the scraper reads it: [$(el).text()] and
    [$(el).attr(name)] ([None] is [undefined]). *)
Record Element := {
  el_text : string;
  el_attr : string → option string;
}.

(** A loaded document answers selector queries: [$(selector)] is the list of
    matched elements in document order. *)
Definition Dom : Type := string → list Element.

(** The body of a response: [loaded] is [cheerio.load(html)], and [cleaned]
    is the same document after
    [$('script, style, footer, nav, .advertisement, .ads').remove()]. *)
Record Html := { loaded : Dom; cleaned : Dom }.

Record Response := {
  r_status : nat;
  statusText : string;
  text : Exc Html;      (* [await response.text()] may reject *)
}.

(** [response.ok]: the status is in the range 200-299. *)
Definition ok (r : Response) : bool :=
  (200 <=? r_status r)%nat && (r_status r <=? 299)%nat.

Class Platform := {
  (** [String.prototype.toLowerCase] *)
  casing :: JS.Casing;
  (** [new URL(input, base)]; throws a [TypeError] on an invalid URL. *)
  new_URL : string → option string → Exc URL;
  (** [await fetch(url, {headers, signal: AbortSignal.timeout(10000)})]:
      rejects on a network error or on the timeout. *)
  fetch : string → Exc Response;
}.

(** [$(selector).text()]: the texts of the matched elements, concatenated. *)
Definition sel_text (els : list Element) : string :=
  foldr (λ el acc, el_text el +:+ acc) "" els.

(** ** [ScraperService] *)

Record ScrapedPage := {
  url : string;
  title : string;
  content : string;
  wordCount : nat;
  depth : nat;
  category : string;
  links : list string;
  images : list string;
}.

Definition contentSelectors : list string :=
  ["#page-content"; ".content"; ".main-content"; "main"; "article";
   ".article-body"; ".post-content"].

(** The [for (const selector of contentSelectors)] loop: the first selector
    that matches an element wins, [$('body')] otherwise. *)
Fixpoint contentElement (dom : Dom) (selectors : list string) : list Element :=
  match selectors with
  | [] => dom "body"
  | selector :: rest =>
      let element := dom selector in
      if (0 <? length element)%nat then element else contentElement dom rest
  end.

Section Scraper.
Context `{Platform}.

(** [getDomain], with its [try]/[catch] kept. *)
Definition getDomain_exc (u : string) : Exc string :=
  try_catch (parsed ← new_URL u None; mret (hostname parsed))
            (λ _, mret "").

Definition getDomain (u : string) : string :=
  match getDomain_exc u with
  | Ok d => d
  | Throw _ => ""
  end.

(** The [$('a[href]').each(...)] loop of [scrapePage]: every non-empty
    [href] is resolved against the page's URL (a [new URL] that throws
    aborts the loop), and kept when the resolved URL, as a string,
    contains [domain]. *)
Fixpoint each_link (els : list Element) (base domain : string)
    (links : list string) : Exc (list string) :=
  match els with
  | [] => mret links
  | element :: rest =>
      match el_attr element "href" with
      | Some (String c h) =>
          fullUrl ← new_URL (String c h) (Some base);
          if JS.includes (href fullUrl) domain
          then each_link rest base domain (links ++ [href fullUrl])
          else each_link rest base domain links
      | _ => each_link rest base domain links
      end
  end.

(** The [$('img[src]').each(...)] loop: no domain filter. *)
Fixpoint each_image (els : list Element) (base : string)
    (images : list string) : Exc (list string) :=
  match els with
  | [] => mret images
  | element :: rest =>
      match el_attr element "src" with
      | Some (String c s) =>
          fullUrl ← new_URL (String c s) (Some base);
          each_image rest base (images ++ [href fullUrl])
      | _ => each_image rest base images
      end
  end.

(** The cleaned text of a page:
    [contentElement.text().replace(/\s+/g, ' ').trim()]. *)
Definition page_content (dom : Dom) : string :=
  JS.trim (JS.replace_spaces (sel_text (contentElement dom contentSelectors))).

(** [content.split(' ').length] *)
Definition count_words (content : string) : nat :=
  length (JS.split " "%char content).

(** [$('title').text().trim() || url] *)
Definition page_title (dom : Dom) (u : string) : string :=
  JS.or_else (JS.trim (sel_text (dom "title"))) u.

(** The [try] block of [scrapePage]. *)
Definition scrapePage_try (u : string) (d : nat) (domain cat : string)
    : Exc ScrapedPage :=
  response ← fetch u;
  if negb (ok response)
  then Throw (ErrorObj ("HTTP " +:+ pretty (r_status response) +:+ ": "
                        +:+ statusText response))
  else
    html ← text response;
    let dom := cleaned html in
    let title := page_title dom u in
    let content := page_content dom in
    let wordCount := count_words content in
    links ← each_link (dom "a[href]") u domain [];
    images ← each_image (dom "img[src]") u [];
    mret {| url := u; title := title; content := content;
            wordCount := wordCount; depth := d; category := cat;
            links := JS.spread_set links;
            images := JS.spread_set images |}.

(** [scrapePage]: the [catch] logs the error and returns [null]. *)
Definition scrapePage (u : string) (d : nat) (domain cat : string)
    : option ScrapedPage :=
  match scrapePage_try u d domain cat with
  | Ok page => Some page
  | Throw _ => None
  end.

End Scraper.

(** ** Objects used as dictionaries *)

(** [categories] in [extractCategories] is a plain object. It is kept as the
    list of its properties in creation order; [Object.entries] lists the
    properties whose key is an array index first, by ascending index, and
    then the other ones in creation order. *)
Module JSObject.

Definition t : Type := list (string * string).

(** [obj[k] = v] on an object that [{}] made, for a string [v]: the
    property is overwritten in place or created last. Assigning a string to
    [__proto__] runs the setter of [Object.prototype], which ignores it. *)
Fixpoint set_own (k v : string) (obj : t) : t :=
  match obj with
  | [] => [(k, v)]
  | (k', v') :: obj' =>
      if decide (k' = k) then (k, v) :: obj' else (k', v') :: set_own k v obj'
  end.

Definition set (k v : string) (obj : t) : t :=
  if decide (k = "__proto__") then obj else set_own k v obj.

Fixpoint digits (acc : N) (s : string) : option N :=
  match s with
  | "" => Some acc
  | String c s' =>
      match Ascii.is_nat c with
      | Some d => digits (acc * 10 + N.of_nat d) s'
      | None => None
      end
  end.

(** The key is a canonical numeric string below [2^32 - 1]. *)
Definition array_index (k : string) : option N :=
  match k with
  | "" => None
  | String c rest =>
      if decide (c = "0"%char ∧ rest ≠ "") then None
      else
        match digits 0 k with
        | Some n => if decide (n < 4294967295)%N then Some n else None
        | None => None
        end
  end.

Definition index_le (a b : N * (string * string)) : Prop := (a.1 ≤ b.1)%N.
#[global] Instance index_le_dec : RelDecision index_le.
Proof. intros a b. unfold index_le. apply _. Defined.

(** [Object.entries(obj)] *)
Definition entries (obj : t) : list (string * string) :=
  (snd <$> merge_sort index_le
             (omap (λ kv, n ← array_index kv.1; Some (n, kv)) obj))
  ++ filter (λ kv, array_index kv.1 = None) obj.

End JSObject.

(** [sanitizeFilename]: every backslash, slash, star, question mark, colon,
    double quote, angle bracket and bar of [name] becomes an underscore. *)
Definition unsafe_char (c : ascii) : bool :=
  bool_decide (c ∈ ["\"; "/"; "*"; "?"; ":"; "034"; "<"; ">"; "|"]%char).

Fixpoint sanitizeFilename (name : string) : string :=
  match name with
  | "" => ""
  | String c rest =>
      String (if unsafe_char c then "_"%char else c) (sanitizeFilename rest)
  end.

Section Categories.
Context `{Platform}.

(** The [$('a[href]').each(...)] loop of [extractCategories]: the pairs of
    [allLinks], in the order they were added. [allLinks] is a [Set] of
    freshly built arrays, so no two of its members are the same object and
    nothing is ever merged. *)
Fixpoint each_category_link (els : list Element) (baseUrl domain : string)
    (allLinks : list (string * string)) : Exc (list (string * string)) :=
  match els with
  | [] => mret allLinks
  | element :: rest =>
      let txt := JS.trim (el_text element) in
      match el_attr element "href" with
      | Some (String c h) =>
          if bool_decide (txt ≠ "")
             && negb (JS.startsWith (JS.toLowerCase txt) "edit")
          then
            fullUrl ← new_URL (String c h) (Some baseUrl);
            if JS.includes (href fullUrl) domain
            then each_category_link rest baseUrl domain
                   (allLinks ++ [(txt, href fullUrl)])
            else each_category_link rest baseUrl domain allLinks
          else each_category_link rest baseUrl domain allLinks
      | _ => each_category_link rest baseUrl domain allLinks
      end
  end.

(** [Array.from(allLinks).forEach(([text, link]) => ...)] *)
Definition fill_categories (allLinks : list (string * string)) : JSObject.t :=
  foldl (λ categories tl,
           let cleanText := JS.or_else (sanitizeFilename tl.1) "misc" in
           JSObject.set cleanText tl.2 categories)
        [] allLinks.

(** The [try] block of [extractCategories]; the status of the response is
    not looked at. *)
Definition extractCategories_try (baseUrl domain : string) : Exc JSObject.t :=
  response ← fetch baseUrl;
  html ← text response;
  allLinks ← each_category_link (loaded html "a[href]") baseUrl domain [];
  mret (fill_categories allLinks).

(** [extractCategories]: the [catch] returns the empty object. *)
Definition extractCategories (baseUrl domain : string) : JSObject.t :=
  match extractCategories_try baseUrl domain with
  | Ok categories => categories
  | Throw _ => []
  end.

End Categories.

(** ** [scrapeWebsite] *)

(** [ScrapingConfig], as far as the crawl reads it. [maxDepth] is any
    number: [scrapingConfigSchema] asks for a number from 1 to 5, not for a
    whole one. [maxWorkers] is what [splice] makes of the number it is
    given. [delay] only moves the fetches in time: it is slept through at
    the start of every task. *)
Record ScrapingConfig := {
  targetUrl : string;
  maxDepth : Q;
  maxWorkers : nat;
  delay : nat;
}.

(** The levels below the seeds that the test [depth < config.maxDepth]
    opens: the least whole number that [maxDepth] does not exceed. *)
Definition levels (config : ScrapingConfig) : nat :=
  Z.to_nat (Qceiling (maxDepth config)).

(** An entry of [queue]. *)
Record QueueItem := { q_url : string; q_depth : nat; q_category : string }.

Inductive Status := success | error.

#[global] Instance Status_eq_dec : EqDecision Status.
Proof. solve_decision. Defined.

(** The argument of [onProgress]. *)
Record Progress := {
  p_url : string;
  status : Status;
  totalProcessed : nat;
  message : string;
}.

(** What a run does, as seen from outside. The log is ghost state. *)
Inductive Event :=
  | ECategories (baseUrl : string)   (* the fetch of [extractCategories] *)
  | EEnqueue (item : QueueItem)      (* [seen.add]; [queue.push] *)
  | EFetch (item : QueueItem)        (* [scrapePage] called on a queue entry *)
  | EProgress (p : Progress)         (* [onProgress] called *)
  | EYield (page : ScrapedPage).     (* [yield result] *)

(** The order in which the fetches of a batch settle is up to the network.
    [arrange picks l] is the order that picks, among the tasks still in
    flight, the one at position [p mod (number in flight)] for each [p] of
    [picks] in turn; tasks left over settle in the order they were started. *)
Fixpoint arrange {A} (picks : list nat) (l : list A) : list A :=
  match picks with
  | [] => l
  | p :: picks' =>
      match l with
      | [] => []
      | x :: _ =>
          let i := p `mod` length l in
          default x (l !! i) :: arrange picks' (delete i l)
      end
  end.

(** The state of the generator: its local variables, the state [W] of the
    caller that [onProgress] acts on, and the log. [results] is what the
    [for (const result of results)] loop has still to go through. *)
Record Crawl (W : Type) := {
  seen : gset string;
  queue : list QueueItem;
  processed : nat;
  results : list (option ScrapedPage);
  batches : nat;                    (* batches started so far *)
  world : W;
  log : list Event;                 (* newest first *)
}.
Arguments seen {W} _.
Arguments queue {W} _.
Arguments processed {W} _.
Arguments results {W} _.
Arguments batches {W} _.
Arguments world {W} _.
Arguments log {W} _.

Section Setters.
Context {W : Type}.
Implicit Type st : Crawl W.

Definition emit (e : Event) st : Crawl W :=
  {| seen := seen st; queue := queue st; processed := processed st;
     results := results st; batches := batches st; world := world st;
     log := e :: log st |}.

(** [processed++] *)
Definition count st : Crawl W :=
  {| seen := seen st; queue := queue st; processed := S (processed st);
     results := results st; batches := batches st; world := world st;
     log := log st |}.

(** [seen.add(item.url); queue.push(item)] *)
Definition push (item : QueueItem) st : Crawl W :=
  {| seen := {[q_url item]} ∪ seen st; queue := queue st ++ [item];
     processed := processed st; results := results st;
     batches := batches st; world := world st;
     log := EEnqueue item :: log st |}.

Definition set_world (w : W) st : Crawl W :=
  {| seen := seen st; queue := queue st; processed := processed st;
     results := results st; batches := batches st; world := w;
     log := log st |}.

Definition set_results (rs : list (option ScrapedPage)) st : Crawl W :=
  {| seen := seen st; queue := queue st; processed := processed st;
     results := rs; batches := batches st; world := world st;
     log := log st |}.

(** [queue.splice(0, n)]: the entries removed are returned. *)
Definition splice (n : nat) st : list QueueItem * Crawl W :=
  (take n (queue st),
   {| seen := seen st; queue := drop n (queue st);
      processed := processed st; results := results st;
      batches := S (batches st); world := world st; log := log st |}).

End Setters.

Section Crawler.
Context `{Platform}.
(** The caller's state and its callback: [onProgress p w] is the state the
    call leaves behind and the value it threw, if any. A caller that passes
    no callback is [λ _ w, (w, None)]. *)
Context {W : Type} (onProgress : Progress → W → W * option Thrown).
Context (config : ScrapingConfig).
(** [sched k]: the picks that order the settlements of batch number [k]. *)
Context (sched : nat → list nat).

Implicit Type st : Crawl W.

(** [const domain = this.getDomain(config.targetUrl)] *)
Definition domain : string := getDomain (targetUrl config).

(** The seeding loop over [Object.entries(categories)]. *)
Definition seed st (entry : string * string) : Crawl W :=
  if decide (entry.2 ∈ seen st) then st
  else push {| q_url := entry.2; q_depth := 0; q_category := entry.1 |} st.

(** The generator up to its [while] loop. *)
Definition scrapeWebsite_start (w : W) : Crawl W :=
  let categories := extractCategories (targetUrl config) domain in
  let st0 := {| seen := ∅; queue := []; processed := 0; results := [];
                batches := 0; world := w;
                log := [ECategories (targetUrl config)] |} in
  foldl seed st0 (JSObject.entries categories).

(** [onProgress?.(p)] *)
Definition report (p : Progress) st : Crawl W * option Thrown :=
  let '(w, thrown) := onProgress p (world st) in
  (emit (EProgress p) (set_world w st), thrown).

(** [result.links.forEach(link => ...)] *)
Definition offer (d : nat) (cat : string) st (link : string) : Crawl W :=
  if decide (link ∈ seen st) then st
  else push {| q_url := link; q_depth := d + 1; q_category := cat |} st.

Definition success_message (result : ScrapedPage) : string :=
  "Found " +:+ pretty (length (links result)) +:+ " links, "
  +:+ pretty (wordCount result) +:+ " words".

(** The [try] block of the task of one queue entry, from the moment its
    [scrapePage] has settled: it runs without interruption. *)
Definition task_try (item : QueueItem) st : Crawl W * Exc (option ScrapedPage) :=
  match scrapePage (q_url item) (q_depth item) domain (q_category item) with
  | Some result =>
      let st1 := count st in
      let '(st2, thrown) :=
        report {| p_url := q_url item; status := success;
                  totalProcessed := processed st1;
                  message := success_message result |} st1 in
      match thrown with
      | Some e => (st2, Throw e)
      | None =>
          let st3 :=
            if Qlt_le_dec (inject_Z (Z.of_nat (q_depth item))) (maxDepth config)
            then foldl (offer (q_depth item) (q_category item)) st2
                       (links result)
            else st2 in
          (st3, Ok (Some result))
      end
  | None =>
      let st1 := count st in
      let '(st2, thrown) :=
        report {| p_url := q_url item; status := error;
                  totalProcessed := processed st1;
                  message := "Failed to scrape page" |} st1 in
      match thrown with
      | Some e => (st2, Throw e)
      | None => (st2, Ok None)
      end
  end.

(** The task with its [catch]. *)
Definition task (item : QueueItem) st : Crawl W * Exc (option ScrapedPage) :=
  match task_try item st with
  | (st', Ok r) => (st', Ok r)
  | (st', Throw e) =>
      let st1 := count st' in
      let '(st2, thrown) :=
        report {| p_url := q_url item; status := error;
                  totalProcessed := processed st1;
                  message := error_message e |} st1 in
      match thrown with
      | Some e' => (st2, Throw e')
      | None => (st2, Ok None)
      end
  end.

(** The tasks of a batch while they settle: the state, the array that
    [Promise.all] fills by position, and the first rejection. *)
Definition InFlight : Type :=
  Crawl W * list (option ScrapedPage) * option Thrown.

Definition settle (batch : list QueueItem) (fl : InFlight) (i : nat) : InFlight :=
  let '(st, res, rejected) := fl in
  match batch !! i with
  | None => fl
  | Some item =>
      match task item st with
      | (st', Ok r) => (st', <[i := r]> res, rejected)
      | (st', Throw e) =>
          (st', res, match rejected with Some e0 => Some e0 | None => Some e end)
      end
  end.

(** One turn of the [while] loop up to [await Promise.all(promises)]: the
    batch is spliced off the queue, every task is started, and the tasks
    settle one after the other in the scheduled order. A task that rejects
    does not stop the other ones; it makes [Promise.all] reject, which the
    generator raises here once the batch has settled. *)
Definition run_batch st : Crawl W * option Thrown :=
  let '(batch, st0) := splice (maxWorkers config) st in
  let st1 := foldl (λ s item, emit (EFetch item) s) st0 batch in
  let order := arrange (sched (batches st)) (seq 0 (length batch)) in
  let '(st2, res, rejected) :=
    foldl (settle batch) (st1, replicate (length batch) None, None) order in
  match rejected with
  | Some e => (st2, Some e)
  | None => (set_results res st2, None)
  end.

(** What a resumed generator does next. *)
Inductive Signal :=
  | Yielded (page : ScrapedPage)
  | Returned
  | Raised (e : Thrown)
  | Running.

(** One step of the generator: the next turn of the [for ... of results]
    loop if there is one, the end of the [while] loop if the queue is
    empty, a new batch otherwise. *)
Definition gen_step st : Crawl W * Signal :=
  match results st with
  | Some page :: rest => (emit (EYield page) (set_results rest st), Yielded page)
  | None :: rest => (set_results rest st, Running)
  | [] =>
      match queue st with
      | [] => (st, Returned)
      | _ :: _ =>
          match run_batch st with
          | (st', Some e) => (st', Raised e)
          | (st', None) => (st', Running)
          end
      end
  end.

(** The states of a run: the caller may act on its own state whenever the
    generator is suspended. *)
Inductive reachable : Crawl W → Prop :=
  | reach_start w : reachable (scrapeWebsite_start w)
  | reach_step st : reachable st → reachable (gen_step st).1
  | reach_caller st w : reachable st → reachable (set_world w st).

End Crawler.

(** ** The scraping job of [routes.ts] *)

Inductive ProjectStatus := pending | running | completed | failed.

(** The project record of the storage, as far as the job writes it. *)
Record Project := {
  processedUrls : nat;
  successfulUrls : nat;
  failedUrls : nat;
  project_status : ProjectStatus;
}.

(** What [broadcast] sends. *)
Inductive Message :=
  | scraping_progress (p : Progress) (successCount errorCount : nat)
  | document_processed (page_url : string)
  | scraping_completed
  | scraping_error (error_text : string).

(** The state the job acts on: its three local counters, the project in the
    storage ([None] once it has been deleted), the documents saved and the
    messages sent (newest first). *)
Record Job := {
  processedCount : nat;
  successCount : nat;
  errorCount : nat;
  project : option Project;
  documents : list ScrapedPage;
  broadcasts : list Message;
}.

(** [storage.createProject({..., status: 'running'})] *)
Definition createProject : Project :=
  {| processedUrls := 0; successfulUrls := 0; failedUrls := 0;
     project_status := running |}.

Definition job_start : Job :=
  {| processedCount := 0; successCount := 0; errorCount := 0;
     project := Some createProject; documents := []; broadcasts := [] |}.

(** [storage.updateProject(project.id, {processedUrls, successfulUrls,
    failedUrls})]: nothing happens when the project is gone. *)
Definition update_counters (p s e : nat) (pr : Project) : Project :=
  {| processedUrls := p; successfulUrls := s; failedUrls := e;
     project_status := project_status pr |}.

(** [storage.updateProject(project.id, {status})] *)
Definition update_status (s : ProjectStatus) (pr : Project) : Project :=
  {| processedUrls := processedUrls pr; successfulUrls := successfulUrls pr;
     failedUrls := failedUrls pr; project_status := s |}.

(** The callback the job passes to [scrapeWebsite]. [updateProject] is an
    [async] method, so the call itself does not throw. *)
Definition job_onProgress (progress : Progress) (j : Job) : Job * option Thrown :=
  let processedCount' := totalProcessed progress in
  let successCount' :=
    match status progress with success => S (successCount j) | error => successCount j end in
  let errorCount' :=
    match status progress with success => errorCount j | error => S (errorCount j) end in
  ({| processedCount := processedCount';
      successCount := successCount';
      errorCount := errorCount';
      project := update_counters processedCount' successCount' errorCount'
                   <$> project j;
      documents := documents j;
      broadcasts := scraping_progress progress successCount' errorCount'
                    :: broadcasts j |},
   None).

Definition set_status (s : ProjectStatus) (m : Message) (j : Job) : Job :=
  {| processedCount := processedCount j; successCount := successCount j;
     errorCount := errorCount j; project := update_status s <$> project j;
     documents := documents j; broadcasts := m :: broadcasts j |}.

Section ScrapingJob.
Context `{Platform}.
Context (config : ScrapingConfig) (sched : nat → list nat).
(** What the body of the [for await] loop does after it has saved the
    document (the NLP pass and the writes of its results): [None] when it
    completes, the value thrown otherwise. *)
Context (process : ScrapedPage → option Thrown).

(** The body of the [for await] loop. *)
Definition consume (page : ScrapedPage) (j : Job) : Job * option Thrown :=
  let j1 := {| processedCount := processedCount j; successCount := successCount j;
               errorCount := errorCount j; project := project j;
               documents := documents j ++ [page];
               broadcasts := broadcasts j |} in
  match process page with
  | Some e => (j1, Some e)
  | None =>
      ({| processedCount := processedCount j1; successCount := successCount j1;
          errorCount := errorCount j1; project := project j1;
          documents := documents j1;
          broadcasts := document_processed (url page) :: broadcasts j1 |},
       None)
  end.

(** The job: the generator and whether the [async] function has ended. *)
Record Run := { crawl : Crawl Job; ended : bool }.

Definition run_start : Run :=
  {| crawl := scrapeWebsite_start config job_start; ended := false |}.

(** The [catch] of the job. *)
Definition job_catch (e : Thrown) (j : Job) : Job :=
  set_status failed (scraping_error (error_message e)) j.

(** One step of the job: the generator is resumed; a page it yields goes
    through the loop body; its return marks the project completed; what it
    or the loop body throws marks the project failed. *)
Definition job_step (r : Run) : Run :=
  if ended r then r
  else
    match gen_step job_onProgress config sched (crawl r) with
    | (st, Running) => {| crawl := st; ended := false |}
    | (st, Yielded page) =>
        match consume page (world st) with
        | (j, None) => {| crawl := set_world j st; ended := false |}
        | (j, Some e) => {| crawl := set_world (job_catch e j) st; ended := true |}
        end
    | (st, Returned) =>
        {| crawl := set_world (set_status completed scraping_completed (world st)) st;
           ended := true |}
    | (st, Raised e) =>
        {| crawl := set_world (job_catch e (world st)) st; ended := true |}
    end.

Definition job_run (n : nat) : Run := Nat.iter n job_step run_start.

End ScrapingJob.

(** ** Measuring what is left to crawl *)

Section Weight.
Context `{Platform}.
Context (config : ScrapingConfig).

(** The links [scrapePage] finds at a URL (none when it fails). *)
Definition page_links (u : string) : list string :=
  match scrapePage u 0 (domain config) "" with
  | Some page => links page
  | None => []
  end.

(** [weight r u]: the pages a crawl can reach from [u] in at most [r] more
    hops, each path counted. *)
Fixpoint weight (r : nat) (u : string) : nat :=
  match r with
  | 0 => 1
  | S r' => 1 + sum_list_with (weight r') (page_links u)
  end.

Definition item_weight (item : QueueItem) : nat :=
  weight (levels config - q_depth item) (q_url item).

Definition queue_weight (q : list QueueItem) : nat :=
  sum_list_with item_weight q.

(** What bounds the number of steps a run has still to make. *)
Definition fuel_left {W} (st : Crawl W) : nat :=
  2 * queue_weight (queue st) + length (results st).

End Weight.

(** The queue entries of [batch] that [order] points at, in that order. *)
Definition picked (batch : list QueueItem) (order : list nat) : list QueueItem :=
  omap (λ i, batch !! i) order.

(** ** The log of a run *)

Definition enqueued (lg : list Event) : list QueueItem :=
  omap (λ e, match e with EEnqueue item => Some item | _ => None end) lg.

Definition fetched (lg : list Event) : list QueueItem :=
  omap (λ e, match e with EFetch item => Some item | _ => None end) lg.

Definition progressed (lg : list Event) : list Progress :=
  omap (λ e, match e with EProgress p => Some p | _ => None end) lg.

Definition yielded (lg : list Event) : list ScrapedPage :=
  omap (λ e, match e with EYield page => Some page | _ => None end) lg.

(** The URLs [fetch] was called on: by [extractCategories], and by
    [scrapePage] for the queue entries. *)
Definition fetches (lg : list Event) : list string :=
  omap (λ e, match e with
             | ECategories baseUrl => Some baseUrl
             | EFetch item => Some (q_url item)
             | _ => None
             end) lg.

(** The URLs whose task has reported. *)
Definition reported (lg : list Event) : list string :=
  p_url <$> progressed lg.

(** What the task of a queue entry logs: entries it places on the frontier
    and progress for its own URL. *)
Definition event_of (item : QueueItem) (e : Event) : Prop :=
  match e with
  | EEnqueue _ => True
  | EProgress p => p_url p = q_url item
  | _ => False
  end.

(** Every fetch started has settled: as many progress events as fetches. *)
Definition balanced (lg : list Event) : Prop :=
  length (progressed lg) = length (fetched lg).

(** At every [yield] of the log (newest first), what came before it is
    balanced. *)
Fixpoint yields_balanced (lg : list Event) : Prop :=
  match lg with
  | [] => True
  | EYield _ :: older => balanced older ∧ yields_balanced older
  | _ :: older => yields_balanced older
  end.

(** ** A concrete site, for the worked examples *)

Module Demo.

Definition no_attr : string → option string := λ _, None.

Definition anchor (label target : string) : Element :=
  {| el_text := label;
     el_attr := λ name, if decide (name = "href") then Some target else None |}.

Definition para (t : string) : Element := {| el_text := t; el_attr := no_attr |}.

(** A document with the given titles, body text and anchors; nothing in it
    is removed by the cleaning. *)
Definition page (titles : list string) (body : string) (anchors : list Element) : Html :=
  let dom : Dom := λ selector,
    if decide (selector = "title") then para <$> titles
    else if decide (selector = "body") then [para body]
    else if decide (selector = "a[href]") then anchors
    else [] in
  {| loaded := dom; cleaned := dom |}.

Definition respond (code : nat) (reason : string) (html : Html) : Exc Response :=
  Ok {| r_status := code; statusText := reason; text := Ok html |}.

(** [new URL] on the URLs of the examples, which are absolute, in
    normal form and of the shape [https://host/path]: the result does not
    depend on the base, [href] is the input and the host name is what
    stands between [https://] and the next slash. *)
Fixpoint until_slash (s : string) : string :=
  match s with
  | "" => ""
  | String c s' => if decide (c = "/"%char) then "" else String c (until_slash s')
  end.

Definition parse_url (input : string) (base : option string) : Exc URL :=
  match JS.after_prefix "https://" input with
  | Some rest => Ok {| href := input; hostname := until_slash rest |}
  | None => Throw (ErrorObj "Invalid URL")
  end.

Definition root : string := "https://ex.test/".
Definition page_a : string := "https://ex.test/a".
Definition page_b : string := "https://ex.test/b".
Definition page_c : string := "https://ex.test/c".
Definition partner : string := "https://evil.org/?from=ex.test".

(** The site: the root links to [a] and [b]; [a] links to [c], to a page
    of another host whose URL mentions [ex.test], and back to the root; [b]
    has neither title nor text; [c] answers 500; nothing else answers. *)
Definition site (u : string) : Exc Response :=
  if decide (u = root) then
    respond 200 "OK" (page ["Example"] "welcome" [anchor "A" page_a; anchor "B" page_b])
  else if decide (u = page_a) then
    respond 200 "OK"
      (page ["Alpha"] "alpha   page"
         [anchor "c" page_c; anchor "partner" partner; anchor "home" root])
  else if decide (u = page_b) then respond 200 "OK" (page [] "" [])
  else if decide (u = page_c) then
    respond 500 "Internal Server Error" (page ["Oops"] "error" [])
  else Throw (ErrorObj "fetch failed").

(** [toLowerCase] on the texts of the examples, which are ASCII: the
    letters A to Z become a to z. *)
Definition lower (c : ascii) : ascii :=
  let n := nat_of_ascii c in
  if (65 <=? n)%nat && (n <=? 90)%nat then ascii_of_nat (n + 32) else c.

Fixpoint lower_case (s : string) : string :=
  match s with
  | "" => ""
  | String c s' => String (lower c) (lower_case s')
  end.

#[export] Instance web : Platform :=
  {| casing := lower_case; new_URL := parse_url; fetch := site |}.

Definition config : ScrapingConfig :=
  {| targetUrl := root; maxDepth := 1%Q; maxWorkers := 2; delay := 0 |}.

(** In the first batch the second fetch settles first; every other batch
    settles in the order it was started. *)
Definition sched (k : nat) : list nat := if decide (k = 0) then [1] else [].

(** The loop body of the job never throws. *)
Definition process (page : ScrapedPage) : option Thrown := None.

(** The job, run to its end. *)
Definition final : Crawl Job := crawl (job_run config sched process 9).

(** A callback that throws on the snapshot of a success. *)
Definition flaky (p : Progress) (w : unit) : unit * option Thrown :=
  match status p with
  | success => (w, Some (ErrorObj "listener failed"))
  | error => (w, None)
  end.

(** A generator with that callback and nothing in its queue. *)
Definition idle_flaky : Crawl unit :=
  {| seen := ∅; queue := []; processed := 0; results := []; batches := 0;
     world := (); log := [] |}.

(** A generator of the job that has nothing in its queue. *)
Definition idle : Crawl Job :=
  {| seen := ∅; queue := []; processed := 0; results := []; batches := 0;
     world := job_start; log := [] |}.

End Demo.

(** ** The claims of the specification that the code does not meet, as
       they are written *)

Section Claims.
Context `{Platform}.
Context {W : Type} (onProgress : Progress → W → W * option Thrown).
Context (config : ScrapingConfig) (sched : nat → list nat).

(** Every queue entry ever placed on the frontier is on the host of the
    seed URL. *)
Definition same_host_claim : Prop :=
  ∀ st item, reachable onProgress config sched st →
    EEnqueue item ∈ log st →
    getDomain (q_url item) = getDomain (targetUrl config).

(** No URL appears twice in the sequence of the fetches. *)
Definition fetched_once_claim : Prop :=
  ∀ st, reachable onProgress config sched st → NoDup (fetches (log st)).

(** The error snapshot of a failed fetch carries the text of the failure:
    the text occurs in its message. *)
Definition failure_text_claim : Prop :=
  ∀ st p item e, reachable onProgress config sched st →
    EProgress p ∈ log st → status p = error →
    EFetch item ∈ log st → q_url item = p_url p →
    scrapePage_try (q_url item) (q_depth item) (domain config) (q_category item)
    = Throw e →
    JS.includes (message p) (error_message e) = true.

End Claims.

(** Pages are yielded in the order their fetches settled. *)
Definition settlement_order (lg : list Event) : Prop :=
  url <$> yielded lg = p_url <$> filter (λ p, status p = success) (progressed lg).

(** A page is yielded as soon as its own fetch has settled: the last
    progress event before a [yield] is the one of the page yielded. *)
Definition yield_on_settlement (lg : list Event) : Prop :=
  ∀ newer page older, lg = newer ++ EYield page :: older →
    p_url <$> head (progressed older) = Some (url page).

(** ** The shape of a cleaned text *)

(** [squeezed prev s]: the white space of [s] is made of single spaces:
    at no place of [s] does a white-space character start, of whatever
    width, apart from spaces that follow no space. [prev] tells that a
    space stands just before [s]. *)
Fixpoint squeezed (prev : bool) (s : string) : bool :=
  match s with
  | "" => true
  | String c s' =>
      if decide (c = " "%char) then negb prev && squeezed true s'
      else bool_decide (JS.skip_white s = None) && squeezed false s'
  end.

(** [tidy prev s]: moreover [s] does not end with a space; [tidy true s]
    says that [s] is a non-empty list of words with one space between any
    two of them. *)
Fixpoint tidy (prev : bool) (s : string) : bool :=
  match s with
  | "" => negb prev
  | String c s' =>
      if decide (c = " "%char) then negb prev && tidy true s'
      else bool_decide (JS.skip_white s = None) && tidy false s'
  end.

(** The bytes a white-space character can start with. *)
Definition white_leads : list ascii :=
  Eval vm_compute in
    omap (λ w, match w with String c _ => Some c | "" => None end)
         JS.white_patterns.

(** A white-space character starts with one of [white_leads], and none of
    its other bytes is one of them. *)
Definition well_led (w : string) : bool :=
  match w with
  | "" => false
  | String a rest =>
      bool_decide (a ∈ white_leads)
      && forallb (λ c, negb (bool_decide (c ∈ white_leads)))
                 (String.list_ascii_of_string rest)
  end.

(** The words of a text: its maximal runs of bytes that are not white
    space. [cur] is the word being read, reversed. *)
Definition flush (cur : string) : list string :=
  if decide (cur = "") then [] else [String.rev cur].

Fixpoint words_go (fuel : nat) (cur : string) (s : string) : list string :=
  match fuel with
  | 0 => flush cur
  | S fuel' =>
      match JS.skip_white s, s with
      | Some rest, _ => flush cur ++ words_go fuel' "" rest
      | None, String c s' => words_go fuel' (String c cur) s'
      | None, "" => flush cur
      end
  end.
Definition words (s : string) : list string := words_go (String.length s) "" s.

(** ** Invariants *)

Section Invariants.
Context `{Platform}.
Context {W : Type} (config : ScrapingConfig).

(** The invariant of the frontier, which holds between any two tasks. *)
Record Inv (st : Crawl W) : Prop := {
  inv_filter : ∀ item, item ∈ enqueued (log st) →
               JS.includes (q_url item) (domain config) = true;
  inv_depth : ∀ item, item ∈ enqueued (log st) → q_depth item ≤ levels config;
  inv_nodup : NoDup (q_url <$> enqueued (log st));
  inv_seen : seen st = list_to_set (q_url <$> enqueued (log st));
  inv_queue : reverse (enqueued (log st)) = reverse (fetched (log st)) ++ queue st;
  inv_results : ∀ page, Some page ∈ results st → depth page ≤ levels config;
  inv_yielded : ∀ page, page ∈ yielded (log st) → depth page ≤ levels config;
}.

(** The pages in the array of results are the pages [scrapePage] made for
    the queue entries at the same places. *)
Definition results_of (res : list (option ScrapedPage)) (batch : list QueueItem) : Prop :=
  Forall2 (λ r item, ∀ page, r = Some page →
             scrapePage (q_url item) (q_depth item) (domain config) (q_category item)
             = Some page)
          res batch.

(** The tasks in flight: the frontier invariant, and every page in the
    array of results is the page of the queue entry at the same place. *)
Definition InvFlight (batch : list QueueItem) (fl : @InFlight W) : Prop :=
  Inv fl.1.1 ∧
  Forall2 (λ r item, ∀ page, r = Some page →
             url page = q_url item ∧ depth page = q_depth item)
          fl.1.2 batch.

End Invariants.

Section JobInvariants.
Context `{Platform}.
Context (config : ScrapingConfig).
Context (process : ScrapedPage → option Thrown).

(** The snapshot the task of a queue entry reports in the job. *)
Definition job_snapshot (item : QueueItem) (st : Crawl Job) : Progress :=
  match scrapePage (q_url item) (q_depth item) (domain config) (q_category item) with
  | Some result =>
      {| p_url := q_url item; status := success;
         totalProcessed := S (processed st);
         message := success_message result |}
  | None =>
      {| p_url := q_url item; status := error;
         totalProcessed := S (processed st);
         message := "Failed to scrape page" |}
  end.

(** The invariant of the counters, which holds between any two tasks. *)
Record JInv (st : Crawl Job) : Prop := {
  j_processed : processed st = length (progressed (log st));
  j_numbered : totalProcessed <$> progressed (log st) = reverse (seq 1 (processed st));
  j_count : processedCount (world st) = processed st;
  j_success : successCount (world st)
              = length (filter (λ p, status p = success) (progressed (log st)));
  j_error : errorCount (world st)
            = length (filter (λ p, status p = error) (progressed (log st)));
  j_project : ∃ s, project (world st)
              = Some {| processedUrls := processedCount (world st);
                        successfulUrls := successCount (world st);
                        failedUrls := errorCount (world st);
                        project_status := s |};
  j_broadcast : ∀ p s e, scraping_progress p s e ∈ broadcasts (world st) →
                totalProcessed p = s + e;
  j_yields : yields_balanced (log st);
}.

(** What is counted over the tasks of a batch. *)
Definition fetch_fails (item : QueueItem) : Prop :=
  scrapePage (q_url item) (q_depth item) (domain config) (q_category item) = None.

#[global] Instance fetch_fails_dec item : Decision (fetch_fails item).
Proof.
  unfold fetch_fails. destruct (scrapePage _ _ _ _); [right|left]; done.
Defined.

(** The invariant of the job, which holds between any two of its steps. *)
Record RInv (r : Run) : Prop := {
  run_inv : Inv config (crawl r);
  run_counters : JInv (crawl r);
  run_balanced : balanced (log (crawl r));
  run_order :
    sublist (url <$> (reverse (yielded (log (crawl r))) ++ omap id (results (crawl r))))
            (q_url <$> reverse (fetched (log (crawl r))));
  run_failures :
    errorCount (world (crawl r))
    = length (filter fetch_fails (fetched (log (crawl r))));
  run_documents : documents (world (crawl r)) = reverse (yielded (log (crawl r)));
  run_pages : ∀ page,
    EYield page ∈ log (crawl r) ∨ Some page ∈ results (crawl r) →
    ∃ item, EFetch item ∈ log (crawl r) ∧
      scrapePage (q_url item) (q_depth item) (domain config) (q_category item)
      = Some page;
  run_state : ∃ pr, project (world (crawl r)) = Some pr ∧
    match project_status pr with
    | running =>
        ended r = false ∧
        ∀ page, EYield page ∈ log (crawl r) → process page = None
    | completed =>
        ended r = true ∧ queue (crawl r) = [] ∧ results (crawl r) = [] ∧
        ∀ page, EYield page ∈ log (crawl r) → process page = None
    | failed =>
        ended r = true ∧
        ∃ page, EYield page ∈ log (crawl r) ∧ is_Some (process page)
    | pending => False
    end;
}.

End JobInvariants.

(** ** Further notions for the crawl and the job *)

(** A name with none of the characters [sanitizeFilename] replaces. *)
Definition safe_name (s : string) : Prop :=
  Forall (λ c, unsafe_char c = false) (String.list_ascii_of_string s).

(** The names of the categories of a run. *)
Definition category_names `{Platform} (config : ScrapingConfig) : list string :=
  (JSObject.entries (extractCategories (targetUrl config) (domain config))).*1.

(** The fetches of a log that are in flight: [scrapePage] has been called
    on the queue entry and its task has not reported yet. A task reports
    as soon as its [scrapePage] has settled, under the URL of its queue
    entry, and once more when the callback threw; the URLs of the queue
    entries fetched are pairwise different. *)
Definition in_flight (lg : list Event) : nat :=
  length (filter (λ item, q_url item ∉ reported lg) (fetched lg)).

(** The bound on the fetches in flight, as an invariant of the log: it
    holds of every earlier moment of the log, and at its end every fetch
    has reported. *)
Definition flight_inv (k : nat) (lg : list Event) : Prop :=
  (∀ item, item ∈ fetched lg → q_url item ∈ reported lg) ∧
  ∀ newer older, lg = newer ++ older → in_flight older ≤ k.

Section ScrapeItem.
Context `{Platform}.
Context (config : ScrapingConfig).

(** [scrapePage] as the task of a queue entry calls it. *)
Definition scrape_item (item : QueueItem) : option ScrapedPage :=
  scrapePage (q_url item) (q_depth item) (domain config) (q_category item).

(** Nothing that was found has been left out: the URL of every category
    and every link of a page that was fetched below the depth limit are in
    the visited set. *)
Definition covered {W} (st : Crawl W) : Prop :=
  (∀ kv, kv ∈ JSObject.entries (extractCategories (targetUrl config) (domain config)) →
     kv.2 ∈ seen st) ∧
  (∀ item page link, item ∈ fetched (log st) → scrape_item item = Some page →
     (inject_Z (Z.of_nat (q_depth item)) < maxDepth config)%Q →
     link ∈ links page → link ∈ seen st).

(** The array of results once the tasks at the places [order] of [batch]
    have settled in the job. *)
Definition settled (batch : list QueueItem) (res : list (option ScrapedPage))
    (order : list nat) : list (option ScrapedPage) :=
  foldl (λ res i, match batch !! i with
                  | Some item => <[i := scrape_item item]> res
                  | None => res
                  end) res order.

End ScrapeItem.

(** The messages that end a job. *)
Definition terminal (m : Message) : bool :=
  match m with
  | scraping_completed | scraping_error _ => true
  | _ => false
  end.

(** The messages of a job that is running carry no end; those of a job
    that has ended carry one, which is the last message sent, and it is
    [scraping_completed] exactly when the project is marked completed. *)
Definition one_end (r : Run) : Prop :=
  let j := world (crawl r) in
  if ended r
  then ∃ m rest, broadcasts j = m :: rest ∧ terminal m = true ∧
         Forall (λ m', terminal m' = false) rest ∧
         (m = scraping_completed ↔
          project_status <$> project j = Some completed)
  else Forall (λ m, terminal m = false) (broadcasts j).

(** ** [Map] objects *)

(** A [Map] with string keys, kept as the list of its entries in insertion
    order. *)
Module JSMap.

Definition t (V : Type) : Type := list (string * V).

(** [m.get(k)] *)
Fixpoint get {V} (k : string) (m : t V) : option V :=
  match m with
  | [] => None
  | (k', v) :: m' => if decide (k' = k) then Some v else get k m'
  end.

(** [m.has(k)] *)
Definition has {V} (k : string) (m : t V) : bool := bool_decide (is_Some (get k m)).

(** [m.set(k, v)]: an entry that exists keeps its place. *)
Fixpoint set {V} (k : string) (v : V) (m : t V) : t V :=
  match m with
  | [] => [(k, v)]
  | (k', v') :: m' =>
      if decide (k' = k) then (k, v) :: m' else (k', v') :: set k v m'
  end.

(** [m.delete(k)]: the map that is left. *)
Definition remove {V} (k : string) (m : t V) : t V :=
  filter (λ kv, kv.1 ≠ k) m.

(** [Array.from(m.values())] *)
Definition values {V} (m : t V) : list V := m.*2.

End JSMap.

(** ** [GraphBuilderService] *)

(** A row of the table [documents], as far as the export, the search and
    the listing read it. Times are milliseconds since the epoch. *)
Record Document := {
  d_id : string;
  d_projectId : option string;
  d_url : string;
  d_title : string;
  d_content : string;
  d_wordCount : option Z;
  d_category : option string;
  d_createdAt : option Z;
}.

(** The rows of the tables [entities] and [relationships]; [None] is
    [null] or [undefined]. *)
Record Entity := {
  e_id : string;
  e_projectId : option string;
  e_name : string;
  e_type : string;
  e_frequency : option Z;
  e_documentIds : option (list string);
}.

Record Relationship := {
  rel_id : string;
  rel_projectId : option string;
  sourceEntity : string;
  targetEntity : string;
  relationshipType : string;
  rel_documentId : option string;
}.

Module GraphBuilder.

(** What [colorMap[type]] can be: one of the colours of the table, or, for
    a type that names a member of [Object.prototype], that member. *)
Inductive Color :=
  | Hex (code : string)
  | Inherited (member : string).

Record NodeProperties := {
  p_frequency : Z;
  p_documentCount : nat;
  p_entityId : string;
}.

Record GraphNode := {
  n_id : string;
  n_label : string;
  n_type : string;
  n_properties : NodeProperties;
  n_size : Z;
  n_color : Color;
}.

Record EdgeProperties := {
  p_relationshipId : string;
  p_documentId : option string;
}.

Record GraphEdge := {
  g_id : string;
  g_from : string;
  g_to : string;
  g_label : string;
  g_type : string;
  g_properties : EdgeProperties;
}.

(** [Object.prototype]'s members, which every object literal inherits. *)
Definition prototype_members : list string :=
  ["constructor"; "__proto__"; "hasOwnProperty"; "isPrototypeOf";
   "propertyIsEnumerable"; "toLocaleString"; "toString"; "valueOf";
   "__defineGetter__"; "__defineSetter__"; "__lookupGetter__";
   "__lookupSetter__"].

Definition colorMap : list (string * string) :=
  [("PERSON", "#3498db"); ("ORG", "#2ecc71"); ("GPE", "#f39c12");
   ("NORP", "#9b59b6"); ("DATE", "#e74c3c"); ("TOPIC", "#1abc9c");
   ("default", "#95a5a6")].

(** [this.colorMap[type] || this.colorMap.default] *)
Definition color_of (type : string) : Color :=
  match JSMap.get type colorMap with
  | Some code => Hex code
  | None =>
      if bool_decide (type ∈ prototype_members) then Inherited type
      else Hex "#95a5a6"
  end.

(** [frequency || 1] on a number that may be [null]. *)
Definition frequency_or_1 (f : option Z) : Z :=
  match f with
  | Some n => if decide (n = 0)%Z then 1%Z else n
  | None => 1%Z
  end.

Definition node_of (entity : Entity) : GraphNode :=
  {| n_id := e_name entity;
     n_label := e_name entity;
     n_type := e_type entity;
     n_properties :=
       {| p_frequency := frequency_or_1 (e_frequency entity);
          p_documentCount := from_option length 0 (e_documentIds entity);
          p_entityId := e_id entity |};
     n_size := Z.max 10 (Z.min 50 (frequency_or_1 (e_frequency entity) * 2));
     n_color := color_of (e_type entity) |}.

Definition edge_of (index : nat) (rel : Relationship) : GraphEdge :=
  {| g_id := "edge_" +:+ pretty index;
     g_from := sourceEntity rel;
     g_to := targetEntity rel;
     g_label := relationshipType rel;
     g_type := relationshipType rel;
     g_properties := {| p_relationshipId := rel_id rel;
                        p_documentId := rel_documentId rel |} |}.

(** The two [map]s of [buildGraph]. *)
Definition build_nodes (entities : list Entity) : list GraphNode :=
  node_of <$> entities.

Definition build_edges (relationships : list Relationship) : list GraphEdge :=
  imap edge_of relationships.

(** The degrees of [calculateGraphStatistics]: every node starts at 0, and
    every edge adds 1 at each of its ends. *)
Definition bump (k : string) (degrees : JSMap.t nat) : JSMap.t nat :=
  JSMap.set k (default 0 (JSMap.get k degrees) + 1) degrees.

Definition degrees_of (nodes : list GraphNode) (edges : list GraphEdge)
    : JSMap.t nat :=
  foldl (λ degrees edge, bump (g_to edge) (bump (g_from edge) degrees))
        (foldl (λ degrees node, JSMap.set (n_id node) 0 degrees) [] nodes)
        edges.

(** [Array.from(degrees.values()).reduce((sum, degree) => sum + degree, 0)] *)
Definition totalDegree (nodes : list GraphNode) (edges : list GraphEdge) : nat :=
  foldl (λ sum degree, sum + degree) 0 (JSMap.values (degrees_of nodes edges)).

(** [sanitizeLabel]: [label.replace(/[^a-zA-Z0-9_]/g, '_')]. The pattern
    has no [u] flag, so it goes through the label one UTF-16 code unit at a
    time: a character outside ASCII becomes one underscore, or two when it
    is a surrogate pair. *)
Definition label_char (c : ascii) : bool :=
  let n := nat_of_ascii c in
  ((97 <=? n) && (n <=? 122) || (65 <=? n) && (n <=? 90)
   || (48 <=? n) && (n <=? 57) || (n =? 95))%nat.

Fixpoint underscores (n : nat) : string :=
  match n with
  | 0 => ""
  | S n' => String "_"%char (underscores n')
  end.

Fixpoint sanitizeLabel (label : string) : string :=
  match label with
  | "" => ""
  | String c rest =>
      (if label_char c then String c "" else underscores (JS.units c))
      +:+ sanitizeLabel rest
  end.

(** The filters of [filterGraph]; [None] is a filter that is absent. *)
Record Filters := {
  nodeTypes : option (list string);
  relationshipTypes : option (list string);
  minFrequency : option Z;
  searchQuery : option string;
}.

Definition by_types (types : option (list string)) {A} (type_of : A → string)
    (l : list A) : list A :=
  match types with
  | Some (t :: ts) => filter (λ x, type_of x ∈ t :: ts) l
  | _ => l
  end.

Definition by_frequency (minimum : option Z) (nodes : list GraphNode)
    : list GraphNode :=
  match minimum with
  | Some m =>
      if decide (m = 0)%Z then nodes
      else filter (λ node,
             (m ≤ (if decide (p_frequency (n_properties node) = 0) then 1
                   else p_frequency (n_properties node)))%Z) nodes
  | None => nodes
  end.

Definition by_query `{JS.Casing} (query : option string) (nodes : list GraphNode)
    : list GraphNode :=
  match query with
  | Some (String c q) =>
      filter (λ node, JS.includes (JS.toLowerCase (n_label node))
                                  (JS.toLowerCase (String c q)) = true) nodes
  | _ => nodes
  end.

(** [filteredNodes] at the end of [filterGraph]. *)
Definition filter_nodes `{JS.Casing} (filters : Filters) (nodes : list GraphNode)
    : list GraphNode :=
  by_query (searchQuery filters)
    (by_frequency (minFrequency filters)
       (by_types (nodeTypes filters) n_type nodes)).

(** [filteredEdges] at the end of [filterGraph]. *)
Definition filter_edges (filters : Filters) (kept : list GraphNode)
    (edges : list GraphEdge) : list GraphEdge :=
  let nodeIds : gset string := list_to_set (n_id <$> kept) in
  by_types (relationshipTypes filters) g_type
    (filter (λ edge, g_from edge ∈ nodeIds ∧ g_to edge ∈ nodeIds) edges).

(** The adjacency lists of [findConnectedComponents]: every node starts
    with an empty array, and every edge is pushed onto the arrays of those
    of its ends that are nodes. *)
Definition adjacency_push (k v : string) (adj : JSMap.t (list string))
    : JSMap.t (list string) :=
  match JSMap.get k adj with
  | Some neighbors => JSMap.set k (neighbors ++ [v]) adj
  | None => adj
  end.

Definition adjacency_of (nodes : list GraphNode) (edges : list GraphEdge)
    : JSMap.t (list string) :=
  foldl (λ adj edge,
           adjacency_push (g_to edge) (g_from edge)
             (adjacency_push (g_from edge) (g_to edge) adj))
        (foldl (λ adj node, JSMap.set (n_id node) [] adj) [] nodes)
        edges.

(** [dfs], which marks what it visits; [fuel] bounds the depth of the
    recursion, and [None] tells that it was not enough. *)
Fixpoint dfs (fuel : nat) (adj : JSMap.t (list string)) (nodeId : string)
    (visited : gset string) : option (gset string) :=
  match fuel with
  | 0 => None
  | S fuel' =>
      if decide (nodeId ∈ visited) then Some visited
      else
        foldl (λ acc neighbor, visited' ← acc; dfs fuel' adj neighbor visited')
              (Some ({[nodeId]} ∪ visited))
              (default [] (JSMap.get nodeId adj))
  end.

(** The [nodes.forEach] loop that counts the components. *)
Definition count_components (fuel : nat) (adj : JSMap.t (list string))
    (nodes : list GraphNode) : option (gset string * nat) :=
  foldl (λ acc node,
           '(visited, components) ← acc;
           if decide (n_id node ∈ visited) then Some (visited, components)
           else visited' ← dfs fuel adj (n_id node) visited;
                Some (visited', S components))
        (Some (∅, 0)) nodes.

(** A depth no recursion of [dfs] on the graph exceeds. *)
Definition enough (nodes : list GraphNode) (edges : list GraphEdge) : nat :=
  S (length nodes + 2 * length edges).

Definition findConnectedComponents (nodes : list GraphNode)
    (edges : list GraphEdge) : option nat :=
  snd <$> count_components (enough nodes edges) (adjacency_of nodes edges) nodes.

(** [graphData.nodes.find(n => n.id === id)] *)
Definition find_node (id : string) (nodes : list GraphNode) : option GraphNode :=
  List.find (λ n, bool_decide (n_id n = id)) nodes.

(** The three collections [traverse] fills. *)
Record Walk := {
  visited : gset string;
  resultNodes : JSMap.t GraphNode;
  resultEdges : JSMap.t GraphEdge;
}.

(** The [graphData.edges.forEach] loop of [traverse] at [currentNodeId];
    [deeper] is what is done at a neighbour that is a node: [traverse] one
    level down, or nothing at the last level. *)
Definition visit_edges (deeper : string → Walk → Walk)
    (nodes : list GraphNode) (edges : list GraphEdge)
    (currentNodeId : string) (w : Walk) : Walk :=
  foldl (λ w edge,
           if bool_decide (g_from edge = currentNodeId)
              || bool_decide (g_to edge = currentNodeId)
           then
             let w2 := {| visited := visited w; resultNodes := resultNodes w;
                          resultEdges := JSMap.set (g_id edge) edge (resultEdges w) |} in
             let neighborId :=
               if bool_decide (g_from edge = currentNodeId) then g_to edge
               else g_from edge in
             match find_node neighborId nodes with
             | Some neighborNode =>
                 deeper neighborId
                   {| visited := visited w2;
                      resultNodes := JSMap.set neighborId neighborNode
                                       (resultNodes w2);
                      resultEdges := resultEdges w2 |}
             | None => w2
             end
           else w)
        w edges.

(** [traverse(currentNodeId, currentDepth)], for a [currentDepth] that
    is [remaining] below [depth]. *)
Fixpoint traverse (nodes : list GraphNode) (edges : list GraphEdge)
    (remaining : nat) (currentNodeId : string) (w : Walk) : Walk :=
  if decide (currentNodeId ∈ visited w) then w
  else
    visit_edges
      match remaining with
      | S remaining' => traverse nodes edges remaining'
      | 0 => λ _ w, w
      end
      nodes edges currentNodeId
      {| visited := {[currentNodeId]} ∪ visited w;
         resultNodes :=
           match find_node currentNodeId nodes with
           | Some currentNode => JSMap.set currentNodeId currentNode (resultNodes w)
           | None => resultNodes w
           end;
         resultEdges := resultEdges w |}.

(** *** Notions the properties of the graph are stated with *)

(** A label [sanitizeLabel] leaves as it is. *)
Definition plain_label (s : string) : Prop :=
  Forall (λ c, label_char c = true) (String.list_ascii_of_string s).

(** What a stage of the filter asks of an element. *)
Definition of_types {A} (types : option (list string)) (type_of : A → string)
    (x : A) : Prop :=
  match types with
  | Some (t :: ts) => type_of x ∈ t :: ts
  | _ => True
  end.

Definition frequent (minimum : option Z) (node : GraphNode) : Prop :=
  match minimum with
  | Some m =>
      if decide (m = 0)%Z then True
      else (m ≤ (if decide (p_frequency (n_properties node) = 0) then 1
                 else p_frequency (n_properties node)))%Z
  | None => True
  end.

Definition matching `{JS.Casing} (query : option string) (node : GraphNode) : Prop :=
  match query with
  | Some (String c q) =>
      JS.includes (JS.toLowerCase (n_label node)) (JS.toLowerCase (String c q)) = true
  | _ => True
  end.

(** The identifiers a graph mentions. *)
Definition mentioned (nodes : list GraphNode) (edges : list GraphEdge) : gset string :=
  list_to_set (n_id <$> nodes) ∪ list_to_set (g_from <$> edges)
  ∪ list_to_set (g_to <$> edges).

(** Every neighbour in the adjacency lists is in [ids]. *)
Definition closed_in (ids : gset string) (adj : JSMap.t (list string)) : Prop :=
  ∀ k neighbors x, JSMap.get k adj = Some neighbors → x ∈ neighbors → x ∈ ids.

(** What [traverse] keeps true of its collections: a node is filed under
    its identifier and is the node [find] gives for it, an edge is filed
    under its identifier, and no key occurs twice. *)
Record tidy_walk (nodes : list GraphNode) (edges : list GraphEdge) (w : Walk) : Prop := {
  walk_nodes : ∀ k node, (k, node) ∈ resultNodes w → find_node k nodes = Some node;
  walk_edges : ∀ k edge, (k, edge) ∈ resultEdges w → edge ∈ edges ∧ g_id edge = k;
  walk_node_keys : NoDup (resultNodes w).*1;
  walk_edge_keys : NoDup (resultEdges w).*1;
}.

(** [w'] has every key of [w]. *)
Definition grows (w w' : Walk) : Prop :=
  (resultNodes w).*1 ⊆ (resultNodes w').*1 ∧
  (resultEdges w).*1 ⊆ (resultEdges w').*1.

Section Statistics.
(** The numbers with a fraction are left to the platform: [round2 a b] is
    [Math.round(a / b * 100) / 100]. *)
Context {Num : Type} (round2 : nat → nat → Num).

Record Statistics := {
  nodeCount : nat;
  edgeCount : nat;
  connectedComponents : nat;
  averageDegree : Num;
  density : Num;
}.

Record GraphData := {
  nodes : list GraphNode;
  edges : list GraphEdge;
  statistics : Statistics;
}.

Definition calculateGraphStatistics (nodes : list GraphNode)
    (edges : list GraphEdge) : option Statistics :=
  let nodeCount := length nodes in
  let edgeCount := length edges in
  let maxPossibleEdges := nodeCount * (nodeCount - 1) / 2 in
  connectedComponents ← findConnectedComponents nodes edges;
  Some {| nodeCount := nodeCount;
          edgeCount := edgeCount;
          connectedComponents := connectedComponents;
          averageDegree :=
            if (0 <? nodeCount)%nat then round2 (totalDegree nodes edges) nodeCount
            else round2 0 1;
          density :=
            if (0 <? maxPossibleEdges)%nat then round2 edgeCount maxPossibleEdges
            else round2 0 1 |}.

Definition buildGraph (entities : list Entity)
    (relationships : list Relationship) (documents : list Document)
    : option GraphData :=
  let nodes := build_nodes entities in
  let edges := build_edges relationships in
  statistics ← calculateGraphStatistics nodes edges;
  Some {| nodes := nodes; edges := edges; statistics := statistics |}.

Definition filterGraph `{JS.Casing} (graphData : GraphData) (filters : Filters)
    : option GraphData :=
  let filteredNodes := filter_nodes filters (nodes graphData) in
  let filteredEdges := filter_edges filters filteredNodes (edges graphData) in
  statistics ← calculateGraphStatistics filteredNodes filteredEdges;
  Some {| nodes := filteredNodes; edges := filteredEdges;
          statistics := statistics |}.

(** [getNodeNeighbors(nodeId, graphData, depth)] for a whole [depth]. *)
Definition getNodeNeighbors (nodeId : string) (graphData : GraphData)
    (depth : Z) : list GraphNode * list GraphEdge :=
  let start := {| visited := ∅; resultNodes := []; resultEdges := [] |} in
  let w := if decide (depth < 0)%Z then start
           else traverse (nodes graphData) (edges graphData)
                         (Z.to_nat depth) nodeId start in
  (JSMap.values (resultNodes w), JSMap.values (resultEdges w)).

End Statistics.

End GraphBuilder.

(** ** The CSV export of [routes.ts] *)

Module CSV.

Definition quote : ascii := "034"%char.

(** The [replace] of [generateCSV]: every double quote is doubled. *)
Fixpoint double_quotes (s : string) : string :=
  match s with
  | "" => ""
  | String c rest =>
      if decide (c = quote) then String quote (String quote (double_quotes rest))
      else String c (double_quotes rest)
  end.

(** A cell of the file: [String(cell)] with its double quotes doubled,
    between two double quotes. *)
Definition cell_text (cell : string) : string :=
  String quote (double_quotes cell +:+ String quote "").

(** [parts.join(sep)] *)
Fixpoint join (sep : string) (parts : list string) : string :=
  match parts with
  | [] => ""
  | [part] => part
  | part :: rest => part +:+ sep +:+ join sep rest
  end.

Section Writer.
(** [String(date)] is left to the platform. *)
Context (date_text : Z → string).

(** [x || ''] on a string that may be [null]. *)
Definition or_empty (s : option string) : string := default "" s.

(** [String(doc.wordCount || 0)] *)
Definition count_text (n : option Z) : string := pretty (default 0%Z n).

(** [String(doc.createdAt)] *)
Definition created_text (t : option Z) : string :=
  match t with
  | Some ms => date_text ms
  | None => "null"
  end.

Definition headers (includeContent : bool) : list string :=
  ["URL"; "Title"; "Category"; "Word Count"; "Created At"]
  ++ (if includeContent then ["Content"] else []).

(** The cells of the row of a document, each already a string, as
    [String(cell)] makes it. *)
Definition row_of (includeContent : bool) (doc : Document) : list string :=
  [d_url doc; d_title doc; or_empty (d_category doc);
   count_text (d_wordCount doc); created_text (d_createdAt doc)]
  ++ (if includeContent then [d_content doc] else []).

Definition table (documents : list Document) (includeContent : bool)
    : list (list string) :=
  headers includeContent :: (row_of includeContent <$> documents).

(** [generateCSV], the function declared in [registerRoutes]. *)
Definition generateCSV (documents : list Document) (includeContent : bool)
    : string :=
  join (String "010"%char "")
       ((λ row, join "," (cell_text <$> row)) <$> table documents includeContent).

End Writer.

(** A reader of comma-separated values whose cells are all quoted: inside
    a cell two quotes stand for one, and a single quote ends the cell; a
    comma then opens the next cell of the row, a line feed the next row. *)
Inductive Reading :=
  | Opening                      (* a cell has to open *)
  | Inside                       (* inside a cell *)
  | Quoted                       (* a quote was read inside a cell *).

Fixpoint read (at_ : Reading) (cell : string) (row : list string)
    (rows : list (list string)) (s : string) : option (list (list string)) :=
  match s with
  | "" =>
      match at_ with
      | Quoted => Some (reverse (reverse (String.rev cell :: row) :: rows))
      | _ => None
      end
  | String c rest =>
      match at_ with
      | Opening => if decide (c = quote) then read Inside "" row rows rest else None
      | Inside =>
          if decide (c = quote) then read Quoted cell row rows rest
          else read Inside (String c cell) row rows rest
      | Quoted =>
          if decide (c = quote) then read Inside (String quote cell) row rows rest
          else if decide (c = ","%char)
          then read Opening "" (String.rev cell :: row) rows rest
          else if decide (c = "010"%char)
          then read Opening "" [] (reverse (String.rev cell :: row) :: rows) rest
          else None
      end
  end.

Definition parse (s : string) : option (list (list string)) :=
  read Opening "" [] [] s.

(** The text of a table: [rows.map(row => row.map(quoted).join(',')).join('\n')]. *)
Definition render (rows : list (list string)) : string :=
  join (String "010"%char "") ((λ row, join "," (cell_text <$> row)) <$> rows).

(** The state of the reader in a row: the cell just read and, newest
    first, the cells before it. *)
Definition next_cell (st : string * list string) (cell : string)
    : string * list string :=
  (cell, st.1 :: st.2).

End CSV.

(** ** [MemStorage] *)

(** [l.sort(compare)] for a comparison that gives a whole number: the
    sort is stable, an element goes before the ones it does not compare
    greater than. *)
Fixpoint sort_insert {A} (compare : A → A → Z) (x : A) (sorted : list A) : list A :=
  match sorted with
  | [] => [x]
  | y :: rest =>
      if decide (compare x y ≤ 0)%Z then x :: y :: rest
      else y :: sort_insert compare x rest
  end.

Definition sort_by {A} (compare : A → A → Z) (l : list A) : list A :=
  foldr (sort_insert compare) [] l.

Module Storage.

(** [InsertEntity] *)
Record InsertEntity := {
  i_projectId : option string;
  i_name : string;
  i_type : string;
  i_frequency : option Z;
  i_documentIds : option (list string);
}.

(** [Partial<Entity>]: [None] is a key that is absent. *)
Record EntityPatch := {
  set_id : option string;
  set_projectId : option (option string);
  set_name : option string;
  set_type : option string;
  set_frequency : option (option Z);
  set_documentIds : option (option (list string));
}.

(** The maps of [MemStorage] that hold documents and entities, and the
    number of identifiers [randomUUID] has handed out. *)
Record MemStorage := {
  s_documents : JSMap.t Document;
  s_entities : JSMap.t Entity;
  s_drawn : nat;
}.

Section Methods.
(** [randomUUID n]: the identifier the [n]-th call returns. *)
Context (randomUUID : nat → string).

(** [x || null] on a string that may be absent. *)
Definition or_null (s : option string) : option string :=
  match s with
  | Some "" => None
  | _ => s
  end.

Definition getEntity (id : string) (st : MemStorage) : option Entity :=
  JSMap.get id (s_entities st).

Definition getEntitiesByProject (projectId : string) (st : MemStorage)
    : list Entity :=
  sort_by (λ a b, (default 0 (e_frequency b) - default 0 (e_frequency a))%Z)
          (filter (λ entity, e_projectId entity = Some projectId)
                  (JSMap.values (s_entities st))).

Definition createEntity (insertEntity : InsertEntity) (st : MemStorage)
    : Entity * MemStorage :=
  let id := randomUUID (s_drawn st) in
  let entity := {| e_id := id;
                   e_projectId := or_null (i_projectId insertEntity);
                   e_name := i_name insertEntity;
                   e_type := i_type insertEntity;
                   e_frequency := i_frequency insertEntity;
                   e_documentIds := i_documentIds insertEntity |} in
  (entity, {| s_documents := s_documents st;
              s_entities := JSMap.set id entity (s_entities st);
              s_drawn := S (s_drawn st) |}).

(** [{ ...entity, ...updates }] *)
Definition patch (entity : Entity) (updates : EntityPatch) : Entity :=
  {| e_id := default (e_id entity) (set_id updates);
     e_projectId := default (e_projectId entity) (set_projectId updates);
     e_name := default (e_name entity) (set_name updates);
     e_type := default (e_type entity) (set_type updates);
     e_frequency := default (e_frequency entity) (set_frequency updates);
     e_documentIds := default (e_documentIds entity) (set_documentIds updates) |}.

Definition updateEntity (id : string) (updates : EntityPatch) (st : MemStorage)
    : option Entity * MemStorage :=
  match JSMap.get id (s_entities st) with
  | None => (None, st)
  | Some entity =>
      let updated := patch entity updates in
      (Some updated, {| s_documents := s_documents st;
                        s_entities := JSMap.set id updated (s_entities st);
                        s_drawn := s_drawn st |})
  end.

(** What the scraping job reads of an entity that the NLP pass found. *)
Record EntityExtraction := { x_text : string; x_label : string }.

(** The body of the loop of the scraping job that saves the entities of a
    document: an entity of the project with the same name and type is
    counted once more, and a new one is created otherwise. *)
Definition save_entity (projectId documentId : string) (st : MemStorage)
    (entityData : EntityExtraction) : MemStorage :=
  match List.find (λ e, bool_decide (e_name e = x_text entityData)
                        && bool_decide (e_type e = x_label entityData))
                  (getEntitiesByProject projectId st) with
  | Some existingEntity =>
      (updateEntity (e_id existingEntity)
         {| set_id := None; set_projectId := None; set_name := None;
            set_type := None;
            set_frequency :=
              Some (Some (GraphBuilder.frequency_or_1 (e_frequency existingEntity) + 1)%Z);
            set_documentIds :=
              Some (Some (default [] (e_documentIds existingEntity) ++ [documentId])) |}
         st).2
  | None =>
      (createEntity {| i_projectId := Some projectId;
                       i_name := x_text entityData;
                       i_type := x_label entityData;
                       i_frequency := Some 1%Z;
                       i_documentIds := Some [documentId] |} st).2
  end.

Definition save_entities (projectId documentId : string)
    (entities : list EntityExtraction) (st : MemStorage) : MemStorage :=
  foldl (save_entity projectId documentId) st entities.

Definition getDocument (id : string) (st : MemStorage) : option Document :=
  JSMap.get id (s_documents st).

(** [getDocumentsByProject] *)
Definition getDocumentsByProject (projectId : string) (st : MemStorage)
    : list Document :=
  sort_by (λ a b, (default 0 (d_createdAt b) - default 0 (d_createdAt a))%Z)
          (filter (λ doc, d_projectId doc = Some projectId)
                  (JSMap.values (s_documents st))).


(** [deleteDocument]: whether the document was there, and what is left. *)
Definition deleteDocument (id : string) (st : MemStorage) : bool * MemStorage :=
  (JSMap.has id (s_documents st),
   {| s_documents := JSMap.remove id (s_documents st);
      s_entities := s_entities st; s_drawn := s_drawn st |}).

End Methods.

(** What an entity adds to the count of a project. *)
Definition weight (projectId : string) (entity : Entity) : Z :=
  if decide (e_projectId entity = Some projectId)
  then GraphBuilder.frequency_or_1 (e_frequency entity)
  else 0%Z.

(** The frequencies of the entities of a project, added up. *)
Definition mentions (projectId : string) (st : MemStorage) : Z :=
  foldr (λ entity total, (weight projectId entity + total)%Z) 0%Z
        (JSMap.values (s_entities st)).

(** The entities as the scraping job keeps them: every entity is filed
    under its own identifier, which [randomUUID] handed out; its frequency
    counts at least one mention; and no two entities of a project have the
    same name and type. *)
Record sound (randomUUID : nat → string) (st : MemStorage) : Prop := {
  sound_keys : NoDup (s_entities st).*1;
  sound_ids : ∀ k e, (k, e) ∈ s_entities st →
    e_id e = k ∧ ∃ i, i < s_drawn st ∧ k = randomUUID i;
  sound_frequency : ∀ k e, (k, e) ∈ s_entities st →
    (0 < GraphBuilder.frequency_or_1 (e_frequency e))%Z;
  sound_unique : ∀ k1 e1 k2 e2 p,
    (k1, e1) ∈ s_entities st → (k2, e2) ∈ s_entities st →
    e_projectId e1 = Some p → e_projectId e2 = Some p →
    e_name e1 = e_name e2 → e_type e1 = e_type e2 → k1 = k2;
}.

Definition empty : MemStorage :=
  {| s_documents := []; s_entities := []; s_drawn := 0 |}.

End Storage.

(** ** More concrete inputs, for the worked examples *)

Module Samples.

(** A site whose root page has one anchor, which no URL parser accepts. *)
Definition broken_site (u : string) : Exc Response :=
  if decide (u = Demo.root) then
    Demo.respond 200 "OK" (Demo.page ["Broken"] "text" [Demo.anchor "bad" "http://["])
  else Throw (ErrorObj "fetch failed").

Definition broken : Platform :=
  {| casing := Demo.lower_case; new_URL := Demo.parse_url; fetch := broken_site |}.

(** A site that is a chain: the root links to [a], [a] to [b], [b] to
    [c]. *)
Definition chain_site (u : string) : Exc Response :=
  if decide (u = Demo.root) then
    Demo.respond 200 "OK" (Demo.page ["Chain"] "root" [Demo.anchor "A" Demo.page_a])
  else if decide (u = Demo.page_a) then
    Demo.respond 200 "OK" (Demo.page ["A"] "first" [Demo.anchor "b" Demo.page_b])
  else if decide (u = Demo.page_b) then
    Demo.respond 200 "OK" (Demo.page ["B"] "second" [Demo.anchor "c" Demo.page_c])
  else if decide (u = Demo.page_c) then
    Demo.respond 200 "OK" (Demo.page ["C"] "third" [])
  else Throw (ErrorObj "fetch failed").

Definition chain : Platform :=
  {| casing := Demo.lower_case; new_URL := Demo.parse_url; fetch := chain_site |}.

(** The body [{targetUrl: 'https://ex.test/', maxDepth: 1.5, maxWorkers: 2,
    delay: 0}] of a request to [/api/scrape/start], which
    [scrapingConfigSchema] accepts. *)
Definition fractional : ScrapingConfig :=
  {| targetUrl := Demo.root; maxDepth := 1.5%Q; maxWorkers := 2; delay := 0 |}.

(** A page whose title is a no-break space and an ideographic space, and
    whose text has these two between its words. *)
Definition nbsp : string := JS.utf8 160.
Definition ideographic_space : string := JS.utf8 12288.

Definition spaced_page : Html :=
  Demo.page [nbsp +:+ ideographic_space]
    (nbsp +:+ "a" +:+ nbsp +:+ "b" +:+ ideographic_space +:+ " c  d"
     +:+ ideographic_space) [].

Definition spaced_site (u : string) : Exc Response :=
  if decide (u = Demo.root) then Demo.respond 200 "OK" spaced_page
  else Throw (ErrorObj "fetch failed").

Definition spaced : Platform :=
  {| casing := Demo.lower_case; new_URL := Demo.parse_url; fetch := spaced_site |}.


(** A target that does not answer. *)
Definition down : ScrapingConfig :=
  {| targetUrl := "https://down.test/"; maxDepth := 1%Q; maxWorkers := 2;
     delay := 0 |}.

(** What the NLP pass found in a document: one entity twice, and another
    one. *)
Definition found : list Storage.EntityExtraction :=
  [{| Storage.x_text := "Ada Lovelace"; Storage.x_label := "PERSON" |};
   {| Storage.x_text := "London"; Storage.x_label := "GPE" |};
   {| Storage.x_text := "Ada Lovelace"; Storage.x_label := "PERSON" |}].

End Samples.

(** * Properties *)

(** ** Strings and lists *)

Lemma startsWith_empty s : JS.startsWith s "" = true.
Proof. by destruct s. Qed.

Lemma includes_empty s : JS.includes s "" = true.
Proof. by destruct s. Qed.

Lemma spread_set_go_elem have l x :
  x ∈ JS.spread_set_go have l → x ∈ l.
Proof.
  revert have. induction l as [|y l IH]; intros have; simpl; [done|].
  case_decide.
  - intros Hx. right. by eapply IH.
  - intros [->|Hx]%elem_of_cons; [left|right; by eapply IH].
Qed.

Lemma spread_set_elem l x : x ∈ JS.spread_set l → x ∈ l.
Proof. apply spread_set_go_elem. Qed.

Lemma spread_set_go_spec have l :
  NoDup (JS.spread_set_go have l) ∧
  (∀ x, x ∈ JS.spread_set_go have l ↔ x ∈ l ∧ x ∉ have) ∧
  sublist (JS.spread_set_go have l) l.
Proof.
  revert have. induction l as [|y l IH]; intros have; simpl.
  - split_and!; [constructor| |done]. intros x. split; [by intros ?%elem_of_nil|].
    by intros [?%elem_of_nil _].
  - case_decide as Hy.
    + destruct (IH have) as (Hnd & Hel & Hsub). split_and!; [done| |by apply sublist_cons].
      intros x. rewrite Hel, elem_of_cons. split; [naive_solver|].
      intros [[->|?] ?]; done.
    + destruct (IH (y :: have)) as (Hnd & Hel & Hsub).
      split_and!; [|  |by apply sublist_skip].
      * constructor; [|done]. rewrite Hel. intros [_ Hn]. apply Hn. by left.
      * intros x. rewrite !elem_of_cons, Hel, elem_of_cons.
        destruct (decide (x = y)) as [->|]; naive_solver.
Qed.

Lemma split_go_length sep cur s : 1 ≤ length (JS.split_go sep cur s).
Proof.
  revert cur. induction s as [|c s IH]; intros cur; simpl; [done|].
  case_decide; simpl; [lia | apply IH].
Qed.

(** *** White space, the cleaned text and its words *)

Lemma after_prefix_length p s r :
  JS.after_prefix p s = Some r → String.length s = String.length p + String.length r.
Proof.
  revert s. induction p as [|a p IH]; intros s; simpl.
  - by intros [= ->].
  - destruct s as [|b s]; [done|]. case_decide; [|done].
    intros Hr%IH. simpl. lia.
Qed.

Lemma after_prefix_app p s r t :
  JS.after_prefix p s = Some r → JS.after_prefix p (s +:+ t) = Some (r +:+ t).
Proof.
  revert s. induction p as [|a p IH]; intros s; simpl.
  - by intros [= ->].
  - destruct s as [|b s]; [done|]. simpl. case_decide; [|done]. apply IH.
Qed.

Lemma head_omap_Some {A B} (f : A → option B) (l : list A) b :
  head (omap f l) = Some b → ∃ a, a ∈ l ∧ f a = Some b.
Proof.
  induction l as [|x l IH]; csimpl; [done|].
  destruct (f x) as [b'|] eqn:Hx; simpl.
  - intros [= ->]. exists x. split; [by left|done].
  - intros (a & ? & ?)%IH. exists a. split; [by right|done].
Qed.

Lemma head_omap_None {A B} (f : A → option B) (l : list A) :
  head (omap f l) = None → ∀ a, a ∈ l → f a = None.
Proof.
  induction l as [|x l IH]; csimpl; [by intros _ a ?%elem_of_nil|].
  destruct (f x) as [b'|] eqn:Hx; simpl; [done|].
  intros Hn a [->|?]%elem_of_cons; auto.
Qed.

Lemma white_patterns_ne : Forall (λ w, w ≠ "") JS.white_patterns.
Proof. compute_done. Qed.

Lemma skip_white_Some s r :
  JS.skip_white s = Some r → ∃ w, w ∈ JS.white_patterns ∧ JS.after_prefix w s = Some r.
Proof. apply head_omap_Some. Qed.

Lemma skip_white_None s :
  JS.skip_white s = None → ∀ w, w ∈ JS.white_patterns → JS.after_prefix w s = None.
Proof. apply (head_omap_None (λ w, JS.after_prefix w s)). Qed.

Lemma skip_white_is_Some w s r :
  w ∈ JS.white_patterns → JS.after_prefix w s = Some r → is_Some (JS.skip_white s).
Proof.
  intros Hw Ha. destruct (JS.skip_white s) eqn:Hs; [done|].
  pose proof (skip_white_None s Hs w Hw) as Hnone. congruence.
Qed.

Lemma skip_white_length s r :
  JS.skip_white s = Some r → String.length r < String.length s.
Proof.
  intros (w & Hw & Ha)%skip_white_Some. apply after_prefix_length in Ha.
  pose proof white_patterns_ne as Hne. rewrite Forall_forall in Hne.
  specialize (Hne w Hw). destruct w; [done|]. simpl in Ha. lia.
Qed.

Lemma skip_white_space s : JS.skip_white (String " " s) = Some s.
Proof. reflexivity. Qed.

Lemma skip_white_nil : JS.skip_white "" = None.
Proof. reflexivity. Qed.

Lemma skip_white_app s r t :
  JS.skip_white s = Some r → is_Some (JS.skip_white (s +:+ t)).
Proof.
  intros (w & Hw & Ha)%skip_white_Some.
  eapply skip_white_is_Some; [done|]. by apply after_prefix_app.
Qed.


Lemma white_patterns_led w : w ∈ JS.white_patterns → well_led w = true.
Proof.
  assert (H : forallb well_led JS.white_patterns = true) by (vm_compute; reflexivity).
  rewrite forallb_forall in H. intros Hw. apply H. by apply list_elem_of_In.
Qed.

Lemma skip_white_lead c s r :
  JS.skip_white (String c s) = Some r → c ∈ white_leads.
Proof.
  intros (w & Hw%white_patterns_led & Ha)%skip_white_Some.
  destruct w as [|a p]; [done|]. simpl in Ha. case_decide; [subst|done].
  apply andb_prop in Hw as [Hw%bool_decide_eq_true _]. done.
Qed.

Lemma space_lead : " "%char ∈ white_leads.
Proof. compute_done. Qed.

(** [replace_spaces] copies the bytes that start no white space. *)
Lemma replace_spaces_prefix p fuel s :
  forallb (λ c, negb (bool_decide (c ∈ white_leads)))
          (String.list_ascii_of_string p) = true →
  is_Some (JS.after_prefix p (JS.replace_spaces_go fuel false s)) →
  is_Some (JS.after_prefix p s).
Proof.
  revert fuel s. induction p as [|b p IH]; intros fuel s; simpl; [done|].
  intros [Hb%negb_true_iff%bool_decide_eq_false Hp]%andb_prop.
  destruct fuel as [|fuel]; simpl; [by intros [? ?]|].
  destruct (JS.skip_white s) as [rest|] eqn:Hs.
  - case_decide; [subst|by intros [? ?]]. destruct Hb. apply space_lead.
  - destruct s as [|c s]; [by intros [? ?]|].
    case_decide; [|by intros [? ?]]. by apply IH.
Qed.

Lemma replace_spaces_keeps c fuel s :
  JS.skip_white (String c s) = None →
  JS.skip_white (String c (JS.replace_spaces_go fuel false s)) = None.
Proof.
  intros Hnone.
  destruct (JS.skip_white (String c (JS.replace_spaces_go fuel false s))) as [r|] eqn:Hs;
    [|done].
  apply skip_white_Some in Hs as (w & Hw & Ha).
  pose proof (white_patterns_led w Hw) as Hled.
  destruct w as [|a p]; [done|]. simpl in Ha. case_decide; [subst|done].
  apply andb_prop in Hled as [_ Hp].
  destruct (replace_spaces_prefix p fuel s Hp) as [r' Hr']; [by eexists|].
  assert (Hsome : is_Some (JS.skip_white (String c s))).
  { eapply skip_white_is_Some; [exact Hw|]. simpl. rewrite decide_True by done. exact Hr'. }
  rewrite Hnone in Hsome. by destruct Hsome.
Qed.

Lemma replace_spaces_squeezed fuel in_run s :
  String.length s ≤ fuel →
  squeezed in_run (JS.replace_spaces_go fuel in_run s) = true.
Proof.
  revert in_run s. induction fuel as [|fuel IH]; intros in_run s Hlen; [done|].
  cbn [JS.replace_spaces_go].
  destruct (JS.skip_white s) as [rest|] eqn:Hs.
  - apply skip_white_length in Hs.
    destruct in_run; [apply IH; lia|]. simpl. apply IH. lia.
  - destruct s as [|c s]; [done|]. simpl in Hlen.
    cbn [squeezed]. rewrite decide_False.
    + rewrite (replace_spaces_keeps c fuel s Hs), bool_decide_eq_true_2 by done.
      simpl. apply IH. lia.
    + intros ->. by rewrite skip_white_space in Hs.
Qed.

Lemma string_app_cons c (s t : string) : String c s +:+ t = String c (s +:+ t).
Proof. done. Qed.

Lemma string_app_nil_l (t : string) : "" +:+ t = t.
Proof. done. Qed.

(** *** [trimStart], [trimEnd] *)

Lemma trimStart_go_fuel n m s :
  String.length s ≤ n → String.length s ≤ m →
  JS.trimStart_go n s = JS.trimStart_go m s.
Proof.
  revert m s. induction n as [|n IH]; intros m s Hn Hm.
  - destruct s; [|simpl in Hn; lia]. by destruct m.
  - destruct m as [|m].
    + destruct s; [done|simpl in Hm; lia].
    + cbn [JS.trimStart_go]. destruct (JS.skip_white s) as [rest|] eqn:Hs; [|done].
      apply skip_white_length in Hs. apply IH; lia.
Qed.

Lemma trimStart_white s rest :
  JS.skip_white s = Some rest → JS.trimStart s = JS.trimStart rest.
Proof.
  intros Hs. unfold JS.trimStart.
  pose proof (skip_white_length _ _ Hs) as Hlen.
  destruct (String.length s) as [|n] eqn:Hn; [lia|].
  cbn [JS.trimStart_go]. rewrite Hs. apply trimStart_go_fuel; lia.
Qed.

Lemma trimStart_plain s : JS.skip_white s = None → JS.trimStart s = s.
Proof.
  intros Hs. unfold JS.trimStart. destruct (String.length s); [done|].
  cbn [JS.trimStart_go]. by rewrite Hs.
Qed.

(** What [trimStart] returns does not start with white space: the fuel
    suffices. *)
Lemma trimStart_done s : JS.skip_white (JS.trimStart s) = None.
Proof.
  remember (String.length s) as n eqn:Hn. revert s Hn.
  induction n as [n IH] using lt_wf_ind. intros s ->.
  destruct (JS.skip_white s) as [rest|] eqn:Hs.
  - rewrite (trimStart_white _ _ Hs). eapply IH; [|done].
    by apply skip_white_length.
  - by rewrite trimStart_plain.
Qed.

Lemma squeezed_after_space s :
  squeezed true s = true → JS.skip_white s = None.
Proof.
  destruct s as [|c s]; [done|]. simpl. case_decide; [done|].
  by intros [?%bool_decide_eq_true _]%andb_prop.
Qed.

Lemma trimStart_squeezed prev s :
  squeezed prev s = true → squeezed true (JS.trimStart s) = true.
Proof.
  destruct s as [|c s]; [done|]. cbn [squeezed]. case_decide as Hc.
  - subst. intros [_ Hs]%andb_prop.
    rewrite (trimStart_white _ _ (skip_white_space s)).
    by rewrite trimStart_plain by (by apply squeezed_after_space).
  - intros [Hw%bool_decide_eq_true Hs]%andb_prop.
    rewrite trimStart_plain by done. cbn [squeezed].
    by rewrite decide_False, bool_decide_eq_true_2, Hs.
Qed.

Lemma trimEnd_empty s : JS.trimEnd s = "" → JS.trimStart s = "".
Proof. destruct s as [|c s]; [done|]. simpl. by case_decide. Qed.

(** [trimEnd] returns a prefix of its argument. *)
Lemma trimEnd_prefix s : ∃ rest, s = JS.trimEnd s +:+ rest.
Proof.
  induction s as [|c s [rest IH]]; [by exists ""|]. simpl. case_decide.
  - by eexists.
  - exists rest. by rewrite string_app_cons, <- IH.
Qed.

Lemma trimEnd_keeps c s :
  JS.skip_white (String c s) = None →
  JS.skip_white (String c (JS.trimEnd s)) = None.
Proof.
  intros Hnone.
  destruct (JS.skip_white (String c (JS.trimEnd s))) as [r|] eqn:Hs; [|done].
  destruct (trimEnd_prefix s) as [rest Hrest].
  destruct (skip_white_app _ _ rest Hs) as [r' Hr'].
  rewrite string_app_cons, <- Hrest in Hr'. congruence.
Qed.

Lemma tidy_cons prev c s :
  tidy prev (String c s)
  = if decide (c = " "%char) then negb prev && tidy true s
    else bool_decide (JS.skip_white (String c s) = None) && tidy false s.
Proof. done. Qed.

Lemma trimEnd_tidy prev s :
  squeezed prev s = true →
  JS.trimEnd s = "" ∨ tidy prev (JS.trimEnd s) = true.
Proof.
  revert prev. induction s as [|c s IH]; intros prev; [by left|].
  cbn [squeezed JS.trimEnd]. case_decide as Hc.
  - subst. intros [Hprev Hs]%andb_prop.
    case_decide as Hblank; [by left|]. right.
    rewrite (trimStart_white _ _ (skip_white_space s)) in Hblank.
    destruct (IH true Hs) as [He|Ht]; [by apply trimEnd_empty in He|].
    by rewrite tidy_cons, decide_True, Hprev, Ht.
  - intros [Hw%bool_decide_eq_true Hs]%andb_prop.
    case_decide as Hblank; [by left|]. right.
    rewrite tidy_cons, decide_False, (trimEnd_keeps c s Hw), bool_decide_eq_true_2
      by done.
    destruct (IH false Hs) as [->|Ht]; done.
Qed.

(** *** The words of a tidy text *)

Lemma words_go_fuel n m cur s :
  String.length s ≤ n → String.length s ≤ m →
  words_go n cur s = words_go m cur s.
Proof.
  revert m cur s. induction n as [|n IH]; intros m cur s Hn Hm.
  - destruct s; [|simpl in Hn; lia]. by destruct m.
  - destruct m as [|m].
    + destruct s; [done|simpl in Hm; lia].
    + cbn [words_go]. destruct (JS.skip_white s) as [rest|] eqn:Hs.
      * apply skip_white_length in Hs. f_equal. apply IH; lia.
      * destruct s as [|c s]; [done|]. simpl in *. apply IH; lia.
Qed.

(** On a tidy text, splitting at the spaces finds the words. *)
Lemma tidy_pieces fuel s :
  String.length s ≤ fuel →
  (tidy false s = true →
   ∀ cur, cur ≠ "" → JS.split_go " " cur s = words_go fuel cur s) ∧
  (tidy true s = true → JS.split_go " " "" s = words_go fuel "" s).
Proof.
  revert s. induction fuel as [|fuel IH]; intros s Hlen.
  { destruct s; [|simpl in Hlen; lia]. split; [|done].
    intros _ cur Hcur. simpl. unfold flush. by rewrite decide_False. }
  destruct s as [|c s].
  { split; [|done]. intros _ cur Hcur. simpl. unfold flush. by rewrite decide_False. }
  simpl in Hlen. destruct (IH s ltac:(lia)) as [IHword IHgap].
  assert (Hstep : tidy false (String c s) = true →
            ∀ cur, cur ≠ "" → JS.split_go " " cur (String c s)
                              = words_go (S fuel) cur (String c s)).
  { rewrite tidy_cons. cbn [JS.split_go words_go]. case_decide as Hc.
    - subst. intros [_ Ht]%andb_prop cur Hcur.
      rewrite skip_white_space. unfold flush. rewrite decide_False by done.
      simpl. f_equal. by apply IHgap.
    - intros [Hw%bool_decide_eq_true Ht]%andb_prop cur Hcur.
      rewrite Hw. by apply IHword. }
  split; [done|].
  rewrite tidy_cons. cbn [JS.split_go words_go]. case_decide as Hc; [done|].
  intros [Hw%bool_decide_eq_true Ht]%andb_prop. rewrite Hw. by apply IHword.
Qed.

Lemma arrange_perm {A} (picks : list nat) (l : list A) : arrange picks l ≡ₚ l.
Proof.
  revert l. induction picks as [|p picks IH]; intros l; simpl; [done|].
  destruct l as [|x l]; [done|].
  set (i := p `mod` length (x :: l)).
  assert (Hi : i < length (x :: l)).
  { apply Nat.mod_upper_bound. simpl. lia. }
  destruct (lookup_lt_is_Some_2 (x :: l) i Hi) as [y Hy].
  rewrite Hy. simpl. rewrite IH. symmetry. by apply delete_Permutation.
Qed.

(** Every order of settlement is the order of some picks. *)
Lemma arrange_complete {A} (l l' : list A) :
  l' ≡ₚ l → ∃ picks, arrange picks l = l'.
Proof.
  revert l. induction l' as [|x l' IH]; intros l Hp.
  - apply Permutation_nil_l in Hp as ->. by exists [].
  - assert (Hx : x ∈ l) by (rewrite <- Hp; by left).
    apply list_elem_of_lookup in Hx as [i Hi].
    pose proof (lookup_lt_Some _ _ _ Hi) as Hlt.
    destruct (IH (delete i l)) as [picks Hpicks].
    { apply (inj (cons x)). by rewrite Hp, <- delete_Permutation. }
    exists (i :: picks). simpl. destruct l as [|y l]; [done|].
    rewrite Nat.mod_small by done. by rewrite Hi, Hpicks.
Qed.

(** ** What [scrapePage] returns *)

Section ScraperFacts.
Context `{Platform}.

Lemma each_link_elem els base dom acc ls l :
  each_link els base dom acc = Ok ls → l ∈ ls →
  l ∈ acc ∨ JS.includes l dom = true.
Proof.
  revert acc. induction els as [|el els IH]; intros acc; simpl.
  - intros [= <-]. by left.
  - destruct (el_attr el "href") as [[|c h]|]; [by apply IH| |by apply IH].
    unfold mbind, Exc_bind.
    destruct (new_URL (String c h) (Some base)) as [full|e]; [|done].
    destruct (JS.includes (href full) dom) eqn:Hin; [|by apply IH].
    intros Hls Hl. destruct (IH _ Hls Hl) as [Hacc|?]; [|by right].
    apply elem_of_app in Hacc as [?|Hacc]; [by left|].
    apply list_elem_of_singleton in Hacc as ->. by right.
Qed.

(** The loop over the anchors keeps what it has, and adds the URL of every
    anchor that passes the test. *)
Lemma each_link_keeps els base dom acc ls :
  each_link els base dom acc = Ok ls →
  (∀ l, l ∈ acc → l ∈ ls) ∧
  ∀ el h full, el ∈ els → el_attr el "href" = Some h → h ≠ "" →
    new_URL h (Some base) = Ok full → JS.includes (href full) dom = true →
    href full ∈ ls.
Proof.
  revert acc. induction els as [|el els IH]; intros acc; simpl.
  - intros [= <-]. split; [done|]. by intros ? ? ? ?%elem_of_nil.
  - destruct (el_attr el "href") as [[|c h]|] eqn:Hattr.
    + intros [Hacc Hels]%IH. split; [done|].
      intros el' h' full [->|?]%elem_of_cons Ha Hne; [congruence|by eapply Hels].
    + unfold mbind, Exc_bind.
      destruct (new_URL (String c h) (Some base)) as [full0|e] eqn:Hurl; [|done].
      destruct (JS.includes (href full0) dom) eqn:Hin.
      * intros [Hacc Hels]%IH. split.
        { intros l Hl. apply Hacc, elem_of_app. by left. }
        intros el' h' full [->|?]%elem_of_cons Ha Hne Hu Hi; [|by eapply Hels].
        rewrite Hattr in Ha. injection Ha as <-. rewrite Hurl in Hu.
        injection Hu as <-. apply Hacc, elem_of_app. right. by left.
      * intros [Hacc Hels]%IH. split; [done|].
        intros el' h' full [->|?]%elem_of_cons Ha Hne Hu Hi; [|by eapply Hels].
        rewrite Hattr in Ha. injection Ha as <-. rewrite Hurl in Hu.
        injection Hu as <-. congruence.
    + intros [Hacc Hels]%IH. split; [done|].
      intros el' h' full [->|?]%elem_of_cons Ha Hne; [congruence|by eapply Hels].
Qed.

(** The result of a successful [scrapePage], taken apart. *)
Lemma scrapePage_Some u d dom cat page :
  scrapePage u d dom cat = Some page →
  ∃ response html ls imgs,
    fetch u = Ok response ∧ ok response = true ∧ text response = Ok html ∧
    each_link (cleaned html "a[href]") u dom [] = Ok ls ∧
    each_image (cleaned html "img[src]") u [] = Ok imgs ∧
    page = {| url := u; title := page_title (cleaned html) u;
              content := page_content (cleaned html);
              wordCount := count_words (page_content (cleaned html));
              depth := d; category := cat;
              links := JS.spread_set ls; images := JS.spread_set imgs |}.
Proof.
  unfold scrapePage, scrapePage_try, mbind, Exc_bind, mret, Exc_ret.
  destruct (fetch u) as [response|] eqn:Hf; [|done].
  destruct (ok response) eqn:Hok; simpl; [|done].
  destruct (text response) as [html|] eqn:Ht; [|done].
  destruct (each_link _ _ _ _) as [ls|] eqn:Hl; [|done].
  destruct (each_image _ _ _) as [imgs|] eqn:Hi; [|done].
  intros [= <-]. exists response, html, ls, imgs. by repeat split.
Qed.

Lemma scrapePage_fields u d dom cat page :
  scrapePage u d dom cat = Some page →
  url page = u ∧ depth page = d ∧ category page = cat.
Proof.
  intros (?&?&?&?&_&_&_&_&_&->)%scrapePage_Some. done.
Qed.

Lemma scrapePage_links u d dom cat page l :
  scrapePage u d dom cat = Some page → l ∈ links page →
  JS.includes l dom = true.
Proof.
  intros (?&?&ls&?&_&_&_&Hls&_&->)%scrapePage_Some Hl. simpl in Hl.
  apply spread_set_elem in Hl.
  destruct (each_link_elem _ _ _ _ _ _ Hls Hl) as [Hnil|?]; [|done].
  by apply elem_of_nil in Hnil.
Qed.

(** The links of a page depend on neither the depth nor the category it
    is scraped with. *)
Lemma scrapePage_links_indep u d d' dom cat cat' :
  links <$> scrapePage u d dom cat = links <$> scrapePage u d' dom cat'.
Proof.
  unfold scrapePage, scrapePage_try, mbind, Exc_bind, mret, Exc_ret.
  destruct (fetch u) as [response|]; [|done].
  destruct (ok response); simpl; [|done].
  destruct (text response) as [html|]; [|done].
  destruct (each_link _ _ _ _) as [ls|]; [|done].
  by destruct (each_image _ _ _) as [imgs|].
Qed.

End ScraperFacts.

(** ** What [extractCategories] returns *)

Lemma JSObject_set_elem k v obj kv :
  kv ∈ JSObject.set k v obj → kv = (k, v) ∨ kv ∈ obj.
Proof.
  unfold JSObject.set. case_decide; [by right|].
  induction obj as [|[k' v'] obj IH]; simpl.
  - intros ->%list_elem_of_singleton. by left.
  - case_decide.
    + intros [->|?]%elem_of_cons; [by left|]. right. by right.
    + intros [->|Hkv]%elem_of_cons; [right; by left|].
      destruct (IH Hkv) as [?|?]; [by left|]. right. by right.
Qed.

Lemma JSObject_entries_elem obj kv : kv ∈ JSObject.entries obj → kv ∈ obj.
Proof.
  unfold JSObject.entries. intros [Hkv|Hkv]%elem_of_app.
  - apply list_elem_of_fmap in Hkv as ([n kv'] & -> & Hkv).
    rewrite merge_sort_Permutation in Hkv.
    apply list_elem_of_omap in Hkv as (kv'' & ? & Heq). simpl.
    destruct (JSObject.array_index kv''.1); simplify_eq/=. done.
  - by apply list_elem_of_filter in Hkv as [_ ?].
Qed.

Section CategoryFacts.
Context `{Platform}.

Lemma each_category_link_elem els base dom acc ls tl :
  each_category_link els base dom acc = Ok ls → tl ∈ ls →
  tl ∈ acc ∨ JS.includes tl.2 dom = true.
Proof.
  revert acc. induction els as [|el els IH]; intros acc; simpl.
  - intros [= <-]. by left.
  - destruct (el_attr el "href") as [[|c h]|]; [by apply IH| |by apply IH].
    destruct (_ && _); [|by apply IH].
    unfold mbind, Exc_bind.
    destruct (new_URL (String c h) (Some base)) as [full|e]; [|done].
    destruct (JS.includes (href full) dom) eqn:Hin; [|by apply IH].
    intros Hls Hl. destruct (IH _ Hls Hl) as [Hacc|?]; [|by right].
    apply elem_of_app in Hacc as [?|Hacc]; [by left|].
    apply list_elem_of_singleton in Hacc as ->. by right.
Qed.

(** The loop over the anchors of the base page keeps what it has, and adds
    the pair of every anchor that passes the tests. *)
Lemma each_category_link_keeps els base dom acc ls :
  each_category_link els base dom acc = Ok ls →
  (∀ tl, tl ∈ acc → tl ∈ ls) ∧
  ∀ el h full, el ∈ els → el_attr el "href" = Some h → h ≠ "" →
    JS.trim (el_text el) ≠ "" →
    JS.startsWith (JS.toLowerCase (JS.trim (el_text el))) "edit" = false →
    new_URL h (Some base) = Ok full → JS.includes (href full) dom = true →
    (JS.trim (el_text el), href full) ∈ ls.
Proof.
  revert acc. induction els as [|el els IH]; intros acc; simpl.
  - intros [= <-]. split; [done|]. by intros ? ? ? ?%elem_of_nil.
  - destruct (el_attr el "href") as [[|c h]|] eqn:Hattr.
    + intros [Hacc Hels]%IH. split; [done|].
      intros el' h' full [->|?]%elem_of_cons Ha Hne; [congruence|by eapply Hels].
    + destruct (bool_decide (JS.trim (el_text el) ≠ "")
                && negb (JS.startsWith (JS.toLowerCase (JS.trim (el_text el))) "edit"))
        eqn:Htests.
      * unfold mbind, Exc_bind.
        destruct (new_URL (String c h) (Some base)) as [full0|e] eqn:Hurl; [|done].
        destruct (JS.includes (href full0) dom) eqn:Hin.
        -- intros [Hacc Hels]%IH. split.
           { intros l Hl. apply Hacc, elem_of_app. by left. }
           intros el' h' full [->|?]%elem_of_cons Ha Hne Ht He Hu Hi;
             [|by eapply Hels].
           rewrite Hattr in Ha. injection Ha as <-. rewrite Hurl in Hu.
           injection Hu as <-. apply Hacc, elem_of_app. right. by left.
        -- intros [Hacc Hels]%IH. split; [done|].
           intros el' h' full [->|?]%elem_of_cons Ha Hne Ht He Hu Hi;
             [|by eapply Hels].
           rewrite Hattr in Ha. injection Ha as <-. rewrite Hurl in Hu.
           injection Hu as <-. congruence.
      * intros [Hacc Hels]%IH. split; [done|].
        intros el' h' full [->|?]%elem_of_cons Ha Hne Ht He; [|by eapply Hels].
        rewrite bool_decide_eq_true_2, He in Htests by done. done.
    + intros [Hacc Hels]%IH. split; [done|].
      intros el' h' full [->|?]%elem_of_cons Ha Hne; [congruence|by eapply Hels].
Qed.

Lemma fill_categories_elem allLinks kv :
  kv ∈ fill_categories allLinks → ∃ tl, tl ∈ allLinks ∧ kv.2 = tl.2.
Proof.
  unfold fill_categories.
  assert (Hgen : ∀ acc : JSObject.t,
    kv ∈ foldl (λ categories tl,
                  JSObject.set (JS.or_else (sanitizeFilename tl.1) "misc")
                               tl.2 categories) acc allLinks →
    kv ∈ acc ∨ ∃ tl, tl ∈ allLinks ∧ kv.2 = tl.2).
  { induction allLinks as [|tl rest IH]; intros acc; simpl; [by left|].
    intros Hkv. destruct (IH _ Hkv) as [Hset|(tl' & ? & ?)].
    - apply JSObject_set_elem in Hset as [->|?]; [|by left].
      right. exists tl. split; [by left|done].
    - right. exists tl'. split; [by right|done]. }
  intros Hkv. destruct (Hgen [] Hkv) as [Hnil|?]; [|done].
  by apply elem_of_nil in Hnil.
Qed.

(** Every seed passed the substring test of [extractCategories]. *)
Lemma extractCategories_filter base dom kv :
  kv ∈ JSObject.entries (extractCategories base dom) →
  JS.includes kv.2 dom = true.
Proof.
  intros Hkv%JSObject_entries_elem. revert Hkv.
  unfold extractCategories, extractCategories_try, mbind, Exc_bind, mret, Exc_ret.
  destruct (fetch base) as [response|]; [|by intros ?%elem_of_nil].
  destruct (text response) as [html|]; [|by intros ?%elem_of_nil].
  destruct (each_category_link _ _ _ _) as [allLinks|] eqn:Hall;
    [|by intros ?%elem_of_nil].
  intros (tl & Htl & ->)%fill_categories_elem.
  destruct (each_category_link_elem _ _ _ _ _ _ Hall Htl) as [Hnil|?]; [|done].
  by apply elem_of_nil in Hnil.
Qed.

End CategoryFacts.

(** ** The depth limit *)

Lemma below_levels config (d : nat) :
  (inject_Z (Z.of_nat d) < maxDepth config)%Q → d < levels config.
Proof.
  intros Hlt. unfold levels.
  pose proof (Qle_ceiling (maxDepth config)) as Hc.
  assert (Hz : (Z.of_nat d < Qceiling (maxDepth config))%Z).
  { rewrite Zlt_Qlt. eapply Qlt_le_trans; eauto. }
  lia.
Qed.

Lemma at_limit config (d : nat) :
  (maxDepth config <= inject_Z (Z.of_nat d))%Q → levels config ≤ d.
Proof.
  intros Hle%Qceiling_resp_le. rewrite Qceiling_Z in Hle. unfold levels. lia.
Qed.

(** For a whole [maxDepth], [levels] is [maxDepth]. *)
Lemma levels_whole config (n : nat) :
  (maxDepth config == inject_Z (Z.of_nat n))%Q → levels config = n.
Proof. intros Hq. unfold levels. rewrite Hq, Qceiling_Z. lia. Qed.

(** A level that is open is less than one above [maxDepth]. *)
Lemma levels_bound config (d : nat) :
  d ≤ levels config →
  d = 0 ∨ (inject_Z (Z.of_nat d) < maxDepth config + 1)%Q.
Proof.
  intros Hd. destruct d as [|d]; [by left|]. right. unfold levels in Hd.
  pose proof (Qceiling_lt (maxDepth config)) as Hc.
  assert (Hz : (Z.of_nat (S d) - 1 <= Qceiling (maxDepth config) - 1)%Z) by lia.
  rewrite Zle_Qle in Hz.
  assert (H1 : (inject_Z (Z.of_nat (S d) - 1) < maxDepth config)%Q)
    by (eapply Qle_lt_trans; eauto).
  revert H1. generalize (Z.of_nat (S d)). intros z.
  destruct (maxDepth config) as [n m].
  unfold Qlt, Qplus, inject_Z. simpl. nia.
Qed.

(** The case analysis of a task: what [scrapePage] returned, what the
    callback did, whether the page is above the depth limit. *)
Ltac task_cases onProgress :=
  unfold task, task_try, report;
  repeat match goal with
  | |- context [scrapePage ?u ?d ?dom ?c] =>
      let E := fresh "Hpage" in destruct (scrapePage u d dom c) eqn:E
  | |- context [onProgress ?p ?w] =>
      let E := fresh "Hcb" in destruct (onProgress p w) as [? [?|]] eqn:E
  | |- context [Qlt_le_dec ?a ?b] =>
      let E := fresh "Hdepth" in
      destruct (Qlt_le_dec a b) as [E|E];
      [apply below_levels in E|apply at_limit in E]
  end; cbn [fst snd].

(** ** The invariant of the frontier *)

Section CrawlInvariant.
Context `{Platform}.
Context {W : Type} (onProgress : Progress → W → W * option Thrown).
Context (config : ScrapingConfig) (sched : nat → list nat).

Implicit Type st : Crawl W.
Local Abbreviation Inv := (@Inv _ W config).

(** A step that touches neither the frontier nor the pending results, and
    logs nothing but progress, keeps the invariant. *)
Lemma Inv_ghost st st' :
  seen st' = seen st → queue st' = queue st → results st' = results st →
  enqueued (log st') = enqueued (log st) →
  fetched (log st') = fetched (log st) →
  yielded (log st') = yielded (log st) →
  Inv st → Inv st'.
Proof.
  intros Hs Hq Hr He Hf Hy [].
  constructor; rewrite ?Hs, ?Hq, ?Hr, ?He, ?Hf, ?Hy; done.
Qed.

Lemma Inv_queue_perm st :
  Inv st → queue st ++ fetched (log st) ≡ₚ enqueued (log st).
Proof.
  intros [_ _ _ _ Hq _ _].
  rewrite <- (reverse_Permutation (enqueued (log st))), Hq, reverse_Permutation.
  apply Permutation_app_comm.
Qed.

Lemma Inv_set_world w st : Inv st → Inv (set_world w st).
Proof. by apply Inv_ghost. Qed.

Lemma Inv_push item st :
  Inv st → q_url item ∉ seen st →
  JS.includes (q_url item) (domain config) = true →
  q_depth item ≤ levels config →
  Inv (push item st).
Proof.
  intros [] Hnew Hin Hd. constructor; simpl.
  - intros it [->|?]%elem_of_cons; auto.
  - intros it [->|?]%elem_of_cons; auto.
  - apply NoDup_cons. split; [|done].
    rewrite inv_seen0 in Hnew. by rewrite elem_of_list_to_set in Hnew.
  - by rewrite inv_seen0.
  - by rewrite reverse_cons, inv_queue0, <- app_assoc.
  - done.
  - done.
Qed.

Lemma Inv_offer d cat ls st :
  Inv st → d + 1 ≤ levels config →
  (∀ l, l ∈ ls → JS.includes l (domain config) = true) →
  Inv (foldl (offer d cat) st ls).
Proof.
  intros Hinv Hd. revert st Hinv.
  induction ls as [|l ls IH]; intros st Hinv Hls; simpl; [done|].
  apply IH; [|intros; apply Hls; by right].
  unfold offer. case_decide; [done|].
  apply Inv_push; simpl; [done..| |done]. apply Hls. by left.
Qed.

Lemma Inv_start w : Inv (scrapeWebsite_start config w).
Proof.
  unfold scrapeWebsite_start.
  set (st0 := {| seen := ∅; queue := []; processed := 0; results := [];
                 batches := 0; world := w;
                 log := [ECategories (targetUrl config)] |}).
  assert (H0 : Inv st0).
  { constructor; simpl; try done; try (by intros ? ?%elem_of_nil).
    constructor. }
  pose proof (extractCategories_filter (targetUrl config) (domain config)) as Hf.
  revert Hf. generalize (JSObject.entries
    (extractCategories (targetUrl config) (domain config))).
  intros es. clearbody st0. revert st0 H0. induction es as [|kv es IH]; intros st0 H0 Hf; simpl; [done|].
  apply IH; [|intros; apply Hf; by right].
  unfold seed. case_decide; [done|].
  apply Inv_push; simpl; [done..| |lia]. apply Hf. by left.
Qed.

End CrawlInvariant.

Lemma fetches_log {W} (batch : list QueueItem) (st : Crawl W) :
  let st' := foldl (λ s item, emit (EFetch item) s) st batch in
  seen st' = seen st ∧ queue st' = queue st ∧ processed st' = processed st ∧
  results st' = results st ∧ batches st' = batches st ∧ world st' = world st ∧
  log st' = reverse (EFetch <$> batch) ++ log st.
Proof.
  revert st. induction batch as [|item batch IH]; intros st; csimpl; [done|].
  destruct (IH (emit (EFetch item) st)) as (-> & -> & -> & -> & -> & -> & ->).
  rewrite reverse_cons. simpl. by rewrite <- app_assoc.
Qed.

Lemma enqueued_app l1 l2 : enqueued (l1 ++ l2) = enqueued l1 ++ enqueued l2.
Proof. apply omap_app. Qed.
Lemma fetched_app l1 l2 : fetched (l1 ++ l2) = fetched l1 ++ fetched l2.
Proof. apply omap_app. Qed.
Lemma progressed_app l1 l2 : progressed (l1 ++ l2) = progressed l1 ++ progressed l2.
Proof. apply omap_app. Qed.
Lemma yielded_app l1 l2 : yielded (l1 ++ l2) = yielded l1 ++ yielded l2.
Proof. apply omap_app. Qed.

Lemma fetched_fetches batch : fetched (reverse (EFetch <$> batch)) = reverse batch.
Proof.
  induction batch as [|item batch IH]; [done|].
  csimpl. rewrite !reverse_cons, fetched_app, IH. simpl. by rewrite ?app_nil_r.
Qed.

Lemma enqueued_fetches batch : enqueued (reverse (EFetch <$> batch)) = [].
Proof.
  induction batch as [|item batch IH]; [done|].
  csimpl. rewrite !reverse_cons, enqueued_app, IH. simpl. by rewrite ?app_nil_r.
Qed.

Lemma progressed_fetches batch : progressed (reverse (EFetch <$> batch)) = [].
Proof.
  induction batch as [|item batch IH]; [done|].
  csimpl. rewrite !reverse_cons, progressed_app, IH. simpl. by rewrite ?app_nil_r.
Qed.

Lemma yielded_fetches batch : yielded (reverse (EFetch <$> batch)) = [].
Proof.
  induction batch as [|item batch IH]; [done|].
  csimpl. rewrite !reverse_cons, yielded_app, IH. simpl. by rewrite ?app_nil_r.
Qed.

Section CrawlSteps.
Context `{Platform}.
Context {W : Type} (onProgress : Progress → W → W * option Thrown).
Context (config : ScrapingConfig) (sched : nat → list nat).

Implicit Type st : Crawl W.
Local Abbreviation Inv := (@Inv _ W config).
Local Abbreviation InvFlight := (@InvFlight _ W config).

Lemma Inv_task item st :
  Inv st → q_depth item ≤ levels config →
  Inv (task onProgress config item st).1.
Proof.
  intros Hinv Hd. task_cases onProgress;
    try (by eapply Inv_ghost; [..|exact Hinv]).
  apply Inv_offer; [|lia|intros l Hl; by eapply scrapePage_links].
  by eapply Inv_ghost; [..|exact Hinv].
Qed.

(** A task hands back the page [scrapePage] made for its queue entry, or
    nothing. *)
Lemma task_result item st page :
  (task onProgress config item st).2 = Ok (Some page) →
  scrapePage (q_url item) (q_depth item) (domain config) (q_category item)
  = Some page.
Proof. task_cases onProgress; intros; by simplify_eq. Qed.

Lemma InvFlight_settle batch fl i :
  (∀ item, item ∈ batch → q_depth item ≤ levels config) →
  InvFlight batch fl → InvFlight batch (settle onProgress config batch fl i).
Proof.
  intros Hb [Hinv Hres]. destruct fl as [[st res] rejected]. simpl in *.
  unfold settle. destruct (batch !! i) as [item|] eqn:Hi; [|done].
  assert (Hitem : item ∈ batch) by (by eapply list_elem_of_lookup_2).
  pose proof (Inv_task item st Hinv (Hb _ Hitem)) as Hinv'.
  pose proof (task_result item st) as Hr.
  destruct (task onProgress config item st) as [st' [r|e]]; simpl in *; [|done].
  split; [done|]. simpl.
  rewrite <- (list_insert_id batch i item Hi).
  apply Forall2_insert; [done|].
  intros page ->. destruct (scrapePage_fields _ _ _ _ _ (Hr _ eq_refl)) as (?&?&?).
  done.
Qed.

Lemma InvFlight_settle_all batch order fl :
  (∀ item, item ∈ batch → q_depth item ≤ levels config) →
  InvFlight batch fl →
  InvFlight batch (foldl (settle onProgress config batch) fl order).
Proof.
  intros Hb. revert fl. induction order as [|i order IH]; intros fl Hfl; simpl; [done|].
  apply IH. by apply InvFlight_settle.
Qed.

Lemma Inv_run_batch st :
  Inv st → results st = [] → Inv (run_batch onProgress config sched st).1.
Proof.
  intros Hinv Hres. unfold run_batch, splice.
  set (batch := take (maxWorkers config) (queue st)).
  set (st0 := {| seen := seen st; queue := drop (maxWorkers config) (queue st);
                 processed := processed st; results := results st;
                 batches := S (batches st); world := world st; log := log st |}).
  destruct (fetches_log batch st0) as (Hs & Hq & _ & Hr & _ & _ & Hl).
  set (st1 := foldl (λ s item, emit (EFetch item) s) st0 batch) in *.
  assert (Hb : ∀ item, item ∈ batch → q_depth item ≤ levels config).
  { intros item Hitem. apply (inv_depth _ _ Hinv).
    rewrite <- (Inv_queue_perm _ _ Hinv). apply elem_of_app. left.
    eapply subseteq_take. exact Hitem. }
  assert (Hinv1 : Inv st1).
  { destruct Hinv. constructor; rewrite ?Hs, ?Hq, ?Hr, ?Hl; simpl;
      rewrite ?enqueued_app, ?fetched_app, ?yielded_app,
              ?enqueued_fetches, ?fetched_fetches, ?yielded_fetches;
      simpl; try done.
    rewrite reverse_app, reverse_involutive, inv_queue0, <- app_assoc.
    unfold batch. by rewrite take_drop. }
assert (Hfl : InvFlight batch (st1, replicate (length batch) None, None)).
{ split; [done|]. simpl. apply Forall2_replicate_l; [done|].
  apply Forall_forall. by intros. }
apply (InvFlight_settle_all batch
  (arrange (sched (batches st)) (seq 0 (length batch))) _ Hb) in Hfl.
destruct (foldl (settle _ _ _) _ _) as [[st2 res] rejected].
destruct Hfl as [Hinv2 Hres2].
simpl in *. destruct rejected; simpl; [done|].
  destruct Hinv2. constructor; simpl; try done.
  intros page Hpage.
  apply list_elem_of_lookup in Hpage as [i Hi].
  destruct (Forall2_lookup_l _ _ _ _ _ Hres2 Hi) as (item & Hitem & Hp).
  destruct (Hp page eq_refl) as [_ ->]. apply Hb.
  by eapply list_elem_of_lookup_2.
Qed.

Lemma Inv_gen_step st : Inv st → Inv (gen_step onProgress config sched st).1.
Proof.
  intros Hinv. unfold gen_step.
  destruct (results st) as [|[page|] rest] eqn:Hres.
  - destruct (queue st); [done|].
    pose proof (Inv_run_batch st Hinv Hres) as Hb.
    by destruct (run_batch onProgress config sched st) as [st' [e|]].
  - destruct Hinv. constructor; simpl; try done.
    + intros p Hp. apply inv_results0. rewrite Hres. by right.
    + intros p [->|?]%elem_of_cons; [|auto].
      apply inv_results0. rewrite Hres. by left.
  - destruct Hinv. constructor; simpl; try done.
    intros p Hp. apply inv_results0. rewrite Hres. by right.
Qed.

Lemma reachable_Inv st : reachable onProgress config sched st → Inv st.
Proof.
  induction 1; [apply Inv_start|by apply Inv_gen_step|by apply Inv_set_world].
Qed.

End CrawlSteps.

(** ** Reading the log *)

Lemma elem_of_enqueued lg item : item ∈ enqueued lg ↔ EEnqueue item ∈ lg.
Proof.
  unfold enqueued. rewrite list_elem_of_omap. split.
  - intros (e & He & Heq). destruct e; simplify_eq. done.
  - intros He. by exists (EEnqueue item).
Qed.

Lemma elem_of_fetched lg item : item ∈ fetched lg ↔ EFetch item ∈ lg.
Proof.
  unfold fetched. rewrite list_elem_of_omap. split.
  - intros (e & He & Heq). destruct e; simplify_eq. done.
  - intros He. by exists (EFetch item).
Qed.

Lemma elem_of_progressed lg p : p ∈ progressed lg ↔ EProgress p ∈ lg.
Proof.
  unfold progressed. rewrite list_elem_of_omap. split.
  - intros (e & He & Heq). destruct e; simplify_eq. done.
  - intros He. by exists (EProgress p).
Qed.

Lemma elem_of_yielded lg page : page ∈ yielded lg ↔ EYield page ∈ lg.
Proof.
  unfold yielded. rewrite list_elem_of_omap. split.
  - intros (e & He & Heq). destruct e; simplify_eq. done.
  - intros He. by exists (EYield page).
Qed.

(** ** The frontier: domain filter, deduplication, depth bound *)

Section Frontier.
Context `{Platform}.
Context {W : Type} (onProgress : Progress → W → W * option Thrown).
Context (config : ScrapingConfig) (sched : nat → list nat).

Implicit Type st : Crawl W.

Lemma seeds_depth (es : list (string * string)) st :
  (∀ item, item ∈ queue st → q_depth item = 0) →
  ∀ item, item ∈ queue (foldl seed st es) → q_depth item = 0.
Proof.
  revert st. induction es as [|kv es IH]; intros st Hst; simpl; [done|].
  apply IH. unfold seed. case_decide; [done|]. simpl.
  intros item [?|Heq%list_elem_of_singleton]%elem_of_app; [auto|by subst].
Qed.

Lemma task_at_limit item st :
  (maxDepth config <= inject_Z (Z.of_nat (q_depth item)))%Q →
  queue (task onProgress config item st).1 = queue st.
Proof. intros Hd%at_limit. task_cases onProgress; try done. lia. Qed.

Lemma offer_depth d cat ls st item :
  item ∈ queue (foldl (offer d cat) st ls) →
  item ∈ queue st ∨ q_depth item = d + 1.
Proof.
  revert st. induction ls as [|l ls IH]; intros st; simpl; [by left|].
  intros [Hq|?]%IH; [|by right].
  unfold offer in Hq. case_decide; [by left|]. simpl in Hq.
  apply elem_of_app in Hq as [?|Heq%list_elem_of_singleton]; [by left|subst; by right].
Qed.

(** X26. In every run, whatever number [maxDepth] is, every page yielded,
    every queue entry fetched and every queue entry placed on the frontier
    is at one of the levels that [maxDepth] opens: its depth is 0 or less
    than [maxDepth + 1], which for a whole [maxDepth] is to say at most
    [maxDepth]. The seeds enter at depth 0; a task whose queue entry is not
    below [maxDepth] adds nothing to the queue, and the entries another
    task adds are one level below its own. *)
Theorem depth_bound st :
  reachable onProgress config sched st →
  (∀ page, EYield page ∈ log st → depth page ≤ levels config) ∧
  (∀ item, EFetch item ∈ log st → q_depth item ≤ levels config) ∧
  (∀ item, EEnqueue item ∈ log st → q_depth item ≤ levels config) ∧
  (∀ d : nat, d ≤ levels config →
     d = 0 ∨ (inject_Z (Z.of_nat d) < maxDepth config + 1)%Q) ∧
  (∀ n : nat, (maxDepth config == inject_Z (Z.of_nat n))%Q → levels config = n) ∧
  (∀ (w : W) item, item ∈ queue (scrapeWebsite_start config w) → q_depth item = 0) ∧
  (∀ item st0, (maxDepth config <= inject_Z (Z.of_nat (q_depth item)))%Q →
     queue (task onProgress config item st0).1 = queue st0) ∧
  (∀ item st0 new, new ∈ queue (task onProgress config item st0).1 →
     new ∈ queue st0 ∨ q_depth new = q_depth item + 1).
Proof.
  intros Hinv%reachable_Inv. pose proof (Inv_queue_perm _ _ Hinv) as Hperm.
  destruct Hinv. split_and!.
  - intros page Hp%elem_of_yielded. auto.
  - intros item Hi%elem_of_fetched. apply inv_depth0.
    rewrite <- Hperm. apply elem_of_app. by right.
  - intros item Hi%elem_of_enqueued. auto.
  - apply levels_bound.
  - apply levels_whole.
  - intros w. unfold scrapeWebsite_start. apply seeds_depth.
    by intros ? ?%elem_of_nil.
  - intros. by apply task_at_limit.
  - intros item st0 new. task_cases onProgress; intros Hnew; try (by left).
    by apply offer_depth in Hnew.
Qed.

(** C1, amended. In every run the URL of every queue entry placed on the
    frontier, seeded or offered, contains the host name of the seed URL as
    a substring. *)
Theorem frontier_mentions_domain st item :
  reachable onProgress config sched st →
  EEnqueue item ∈ log st →
  JS.includes (q_url item) (getDomain (targetUrl config)) = true.
Proof.
  intros Hinv%reachable_Inv Hitem%elem_of_enqueued.
  by apply (inv_filter _ _ Hinv).
Qed.

End Frontier.

(** ** The order of settlement does not matter to what is counted *)

Lemma picked_all (batch : list QueueItem) :
  picked batch (seq 0 (length batch)) = batch.
Proof.
  unfold picked. induction batch as [|item batch IH]; [done|].
  cbn [length seq]. rewrite <- fmap_S_seq. csimpl. f_equal.
  rewrite <- IH at 2. clear IH. generalize (seq 0 (length batch)).
  intros l. induction l as [|i l IHl]; [done|]. csimpl. by rewrite IHl.
Qed.

Lemma picked_perm (batch : list QueueItem) (order : list nat) :
  order ≡ₚ seq 0 (length batch) → picked batch order ≡ₚ batch.
Proof.
  intros Hp. unfold picked. rewrite Hp. fold (picked batch (seq 0 (length batch))).
  by rewrite picked_all.
Qed.

Lemma picked_arrange (batch : list QueueItem) (picks : list nat) :
  picked batch (arrange picks (seq 0 (length batch))) ≡ₚ batch.
Proof. apply picked_perm, arrange_perm. Qed.

Lemma sum_list_with_sublist {A} (f : A → nat) (l1 l2 : list A) :
  sublist l1 l2 → sum_list_with f l1 ≤ sum_list_with f l2.
Proof. induction 1; simpl; lia. Qed.

Lemma sum_list_with_fmap {A B} (f : B → nat) (g : A → B) (l : list A) :
  sum_list_with f (g <$> l) = sum_list_with (f ∘ g) l.
Proof. induction l as [|x l IH]; csimpl; [done|]. by rewrite IH. Qed.

Lemma sum_list_with_ext {A} (f g : A → nat) (l : list A) :
  Forall (λ x, f x = g x) l → sum_list_with f l = sum_list_with g l.
Proof. induction 1 as [|x l Hx _ IH]; simpl; [done|]. by rewrite Hx, IH. Qed.

Section Settling.
Context `{Platform}.
Context {W : Type} (onProgress : Progress → W → W * option Thrown).
Context (config : ScrapingConfig).

Implicit Type st : Crawl W.

(** The state a batch ends in is the one its tasks lead to when run one
    after the other in the order of settlement. *)
Lemma settle_all_state batch order (fl : @InFlight W) :
  (foldl (settle onProgress config batch) fl order).1.1
  = foldl (λ s item, (task onProgress config item s).1) fl.1.1 (picked batch order).
Proof.
  revert fl. induction order as [|i order IH]; intros fl; [done|].
  cbn [foldl]. rewrite IH. unfold picked. csimpl.
  destruct fl as [[st res] rejected]. unfold settle.
  destruct (batch !! i) as [item|]; [|done]. csimpl.
  by destruct (task onProgress config item st) as [st' [r|e]].
Qed.

(** What a run of offers does. *)
Lemma offer_effect d cat ls st :
  ∃ new, let st' := foldl (offer d cat) st ls in
    queue st' = queue st ++ new ∧
    log st' = (EEnqueue <$> reverse new) ++ log st ∧
    processed st' = processed st ∧ results st' = results st ∧
    batches st' = batches st ∧ world st' = world st ∧
    sublist (q_url <$> new) ls ∧
    Forall (λ item, q_depth item = d + 1) new.
Proof.
  revert st. induction ls as [|l ls IH]; intros st; simpl.
  - exists []. by rewrite app_nil_r.
  - destruct (IH (offer d cat st l)) as (new & Hq & Hl & Hp & Hr & Hb & Hw & Hs & Hd).
    unfold offer in *. case_decide.
    + exists new. repeat split; try done. by apply sublist_cons.
    + exists ({| q_url := l; q_depth := d + 1; q_category := cat |} :: new).
      simpl in *. rewrite Hq, Hl, reverse_cons, fmap_app, <- !app_assoc.
      repeat split; try done.
      * by apply sublist_skip.
      * by constructor.
Qed.

End Settling.

Section Batches.
Context `{Platform}.
Context {W : Type} (onProgress : Progress → W → W * option Thrown).
Context (config : ScrapingConfig) (sched : nat → list nat).

Implicit Type st : Crawl W.
Local Abbreviation results_of := (results_of config).

Lemma settle_all_results batch order (fl : @InFlight W) :
  results_of fl.1.2 batch →
  results_of (foldl (settle onProgress config batch) fl order).1.2 batch.
Proof.
  revert fl. induction order as [|i order IH]; intros fl Hfl; [done|].
  cbn [foldl]. apply IH. destruct fl as [[st res] rejected]. unfold settle.
  destruct (batch !! i) as [item|] eqn:Hi; [|done].
  pose proof (task_result onProgress config item st) as Hr.
  destruct (task onProgress config item st) as [st' [r|e]]; [|done].
  simpl in *. unfold results_of. rewrite <- (list_insert_id batch i item Hi).
  apply Forall2_insert; [done|]. intros page ->. by apply Hr.
Qed.

(** One turn of the loop, taken apart: the batch leaves the queue, its
    fetches are logged in queue order, and its tasks run in the order of
    settlement. *)
Lemma run_batch_state st :
  let batch := take (maxWorkers config) (queue st) in
  let order := arrange (sched (batches st)) (seq 0 (length batch)) in
  ∃ st1 (fl : @InFlight W),
    seen st1 = seen st ∧ queue st1 = drop (maxWorkers config) (queue st) ∧
    processed st1 = processed st ∧ results st1 = results st ∧
    world st1 = world st ∧
    log st1 = reverse (EFetch <$> batch) ++ log st ∧
    fl = foldl (settle onProgress config batch)
               (st1, replicate (length batch) None, None) order ∧
    fl.1.1 = foldl (λ s item, (task onProgress config item s).1) st1
                   (picked batch order) ∧
    results_of fl.1.2 batch ∧
    run_batch onProgress config sched st
    = match fl.2 with
      | Some e => (fl.1.1, Some e)
      | None => (set_results fl.1.2 fl.1.1, None)
      end.
Proof.
  intros batch order. unfold run_batch, splice. lazy beta iota zeta.
  fold batch. fold order.
  set (st0 := {| seen := seen st; queue := drop (maxWorkers config) (queue st);
                 processed := processed st; results := results st;
                 batches := S (batches st); world := world st; log := log st |}).
  destruct (fetches_log batch st0) as (Hs & Hq & Hp & Hr & _ & Hw & Hl).
  set (st1 := foldl (λ s item, emit (EFetch item) s) st0 batch) in *.
  exists st1, (foldl (settle onProgress config batch)
                 (st1, replicate (length batch) None, None) order).
  repeat split; try done.
  - by rewrite settle_all_state.
  - apply settle_all_results. simpl. apply Forall2_replicate_l; [done|].
    apply Forall_forall. by intros.
  - by destruct (foldl (settle _ _ _) _ _) as [[st2 res] [e|]].
Qed.

Lemma weight_pos r u : 1 ≤ weight config r u.
Proof. destruct r; simpl; lia. Qed.

Lemma queue_weight_app q1 q2 :
  queue_weight config (q1 ++ q2) = queue_weight config q1 + queue_weight config q2.
Proof. apply sum_list_with_app. Qed.

(** A task takes its queue entry's weight off the frontier and puts back
    less. *)
Lemma task_weight item st :
  queue_weight config (queue (task onProgress config item st).1) + 1
  ≤ queue_weight config (queue st) + item_weight config item.
Proof.
  pose proof (weight_pos (levels config - q_depth item) (q_url item)) as Hpos.
  fold (item_weight config item) in Hpos.
  task_cases onProgress; cbn [queue count emit set_world]; try lia.
  destruct (offer_effect (q_depth item) (q_category item) (links s)
    (emit (EProgress {| p_url := q_url item; status := success;
                        totalProcessed := processed (count st);
                        message := success_message s |})
          (set_world w (count st)))) as (new & Hq & _ & _ & _ & _ & _ & Hsub & Hd).
  cbn zeta in Hq. rewrite Hq. cbn [queue count emit set_world].
  rewrite queue_weight_app.
  enough (queue_weight config new + 1 ≤ item_weight config item) by lia.
  unfold item_weight.
  replace (levels config - q_depth item)
    with (S (levels config - (q_depth item + 1))) by lia.
  cbn [weight].
  assert (Hlinks : page_links config (q_url item) = links s).
  { unfold page_links.
    pose proof (scrapePage_links_indep (q_url item) 0 (q_depth item)
                  (domain config) "" (q_category item)) as Hi.
    rewrite Hpage in Hi. by destruct (scrapePage (q_url item) 0 _ ""); simplify_eq/=. }
  rewrite Hlinks.
  enough (queue_weight config new
          ≤ sum_list_with (weight config (levels config - (q_depth item + 1))) (links s))
    by lia.
  etrans; [|apply sum_list_with_sublist, Hsub].
  rewrite sum_list_with_fmap. unfold queue_weight.
  apply Nat.eq_le_incl, sum_list_with_ext.
  eapply Forall_impl; [exact Hd|]. intros it Hit. unfold item_weight. simpl.
  by rewrite Hit.
Qed.

Lemma tasks_weight items st :
  queue_weight config
    (queue (foldl (λ s item, (task onProgress config item s).1) st items))
  + length items
  ≤ queue_weight config (queue st) + queue_weight config items.
Proof.
  revert st. induction items as [|item items IH]; intros st; simpl; [unfold queue_weight; simpl; lia|].
  pose proof (IH (task onProgress config item st).1).
  pose proof (task_weight item st).
  unfold queue_weight in *. simpl. lia.
Qed.

(** A batch uses up fuel. *)
Lemma run_batch_fuel st :
  results st = [] → queue st ≠ [] → 1 ≤ maxWorkers config →
  fuel_left config (run_batch onProgress config sched st).1 < fuel_left config st.
Proof.
  intros Hres Hq Hmw.
  destruct (run_batch_state st)
    as (st1 & fl & _ & Hq1 & _ & Hr1 & _ & _ & _ & Hst & Hresults & ->).
  set (batch := take (maxWorkers config) (queue st)) in *.
  pose proof (tasks_weight
    (picked batch (arrange (sched (batches st)) (seq 0 (length batch)))) st1) as Hw.
  rewrite <- Hst in Hw.
  pose proof (picked_arrange batch (sched (batches st))) as Hperm.
  assert (Hlen : length (picked batch (arrange (sched (batches st)) (seq 0 (length batch))))
                 = length batch) by (by rewrite Hperm).
  assert (Hsum : queue_weight config
                   (picked batch (arrange (sched (batches st)) (seq 0 (length batch))))
                 = queue_weight config batch).
  { unfold queue_weight. by rewrite Hperm. }
  rewrite Hlen, Hsum, Hq1 in Hw.
  assert (Hsplit : queue_weight config (queue st)
                   = queue_weight config batch
                     + queue_weight config (drop (maxWorkers config) (queue st))).
  { rewrite <- queue_weight_app. unfold batch. by rewrite take_drop. }
  assert (Hb : 1 ≤ length batch).
  { unfold batch. rewrite length_take. destruct (queue st); [done|]. simpl. lia. }
  apply Forall2_length in Hresults.
  assert (Hfold : ∀ (items : list QueueItem) s,
            results (foldl (λ s item, (task onProgress config item s).1) s items)
            = results s).
  { induction items as [|item items IH]; intros s; simpl; [done|].
    rewrite IH. clear. task_cases onProgress; try done.
    destruct (offer_effect (q_depth item) (q_category item) (links s0)
      (emit (EProgress {| p_url := q_url item; status := success;
                          totalProcessed := processed (count s);
                          message := success_message s0 |})
            (set_world w (count s)))) as (new & _ & _ & _ & Hr & _).
    cbn zeta in Hr. by rewrite Hr. }
  unfold fuel_left. rewrite Hres. simpl length.
  destruct (fl.2); simpl.
  - rewrite Hst, Hfold, Hr1, Hres. simpl. rewrite <- Hst. lia.
  - lia.
Qed.

End Batches.

(** ** The scraping job *)

Lemma filter_all {A} (P : A → Prop) `{∀ x, Decision (P x)} (l : list A) :
  (∀ x, x ∈ l → P x) → filter P l = l.
Proof.
  induction l as [|x l IH]; intros Hall; [done|].
  rewrite filter_cons_True by (apply Hall; by left).
  f_equal. apply IH. intros y Hy. apply Hall. by right.
Qed.

Lemma status_partition (l : list Progress) :
  length (filter (λ p, status p = success) l)
  + length (filter (λ p, status p = error) l) = length l.
Proof.
  induction l as [|p l IH]; [done|].
  rewrite !filter_cons. destruct (status p) eqn:Hs; repeat case_decide; try done;
    simpl; lia.
Qed.

Lemma yields_balanced_app newer lg :
  yielded newer = [] → yields_balanced (newer ++ lg) ↔ yields_balanced lg.
Proof.
  induction newer as [|e newer IH]; [done|].
  destruct e; csimpl; intros Hy; try (by apply IH). done.
Qed.

Lemma yielded_enqueues items : yielded (EEnqueue <$> items) = [].
Proof. by induction items. Qed.
Lemma fetched_enqueues items : fetched (EEnqueue <$> items) = [].
Proof. by induction items. Qed.
Lemma progressed_enqueues items : progressed (EEnqueue <$> items) = [].
Proof. by induction items. Qed.

Section JobFacts.
Context `{Platform}.
Context (config : ScrapingConfig) (sched : nat → list nat).
Context (process : ScrapedPage → option Thrown).

Implicit Type st : Crawl Job.
Local Abbreviation job_snapshot := (job_snapshot config).
Local Abbreviation fetch_fails := (fetch_fails config).
Local Abbreviation RInv := (RInv config process).

(** In the job a task reports once, never throws, and hands back what
    [scrapePage] returned. *)
Lemma job_task_effect item st :
  ∃ new, let st' := (task job_onProgress config item st).1 in
    log st' = (EEnqueue <$> reverse new) ++ EProgress (job_snapshot item st) :: log st ∧
    processed st' = S (processed st) ∧ results st' = results st ∧
    world st' = (job_onProgress (job_snapshot item st) (world st)).1 ∧
    (task job_onProgress config item st).2
    = Ok (scrapePage (q_url item) (q_depth item) (domain config) (q_category item)).
Proof.
  unfold task, task_try, report, job_snapshot.
  destruct (scrapePage _ _ _ _) as [result|]; cbn -[offer Qlt_le_dec];
    [|by exists []].
  destruct (Qlt_le_dec _ (maxDepth config)); cbn -[offer Qlt_le_dec];
    [|by exists []].
  match goal with |- context [foldl (offer ?d ?c) ?s ?l] =>
    destruct (offer_effect d c l s) as (new & _ & Hl & Hp & Hr & _ & Hw & _) end.
  exists new. cbn zeta in *. by rewrite Hl, Hp, Hr, Hw.
Qed.

Lemma JInv_task item st : JInv st → JInv (task job_onProgress config item st).1.
Proof.
  intros [Hp Hn Hc Hs He [s Hpr] Hb Hy].
  destruct (job_task_effect item st) as (new & Hl & Hp' & _ & Hw & _).
  cbn zeta in *. set (st' := (task job_onProgress config item st).1) in *.
  assert (Hpg : progressed (log st') = job_snapshot item st :: progressed (log st)).
  { by rewrite Hl, progressed_app, progressed_enqueues. }
  assert (Htp : totalProcessed (job_snapshot item st) = S (processed st)).
  { unfold job_snapshot. by destruct (scrapePage _ _ _ _). }
  pose proof (status_partition (progressed (log st))) as Hpart.
  constructor; rewrite ?Hpg, ?Hw, ?Hp'.
  - simpl. by rewrite Hp.
  - rewrite fmap_cons, Hn, Htp, seq_S, reverse_app. done.
  - done.
  - simpl. rewrite filter_cons. destruct (status (job_snapshot item st));
      case_decide; try done; simpl; by rewrite Hs.
  - simpl. rewrite filter_cons. destruct (status (job_snapshot item st));
      case_decide; try done; simpl; by rewrite He.
  - simpl. rewrite Hpr. simpl. by eexists.
  - simpl. intros p s' e' [Heq|Hin]%elem_of_cons; [|by eapply Hb].
    simplify_eq. rewrite Htp. destruct (status (job_snapshot item st)); lia.
  - rewrite Hl. apply yields_balanced_app; [|done].
    apply yielded_enqueues.
Qed.

Lemma job_tasks items st :
  JInv st →
  let st' := foldl (λ s item, (task job_onProgress config item s).1) st items in
  JInv st' ∧
  length (progressed (log st')) = length (progressed (log st)) + length items ∧
  fetched (log st') = fetched (log st) ∧
  yielded (log st') = yielded (log st) ∧
  results st' = results st ∧
  errorCount (world st') = errorCount (world st) + length (filter fetch_fails items) ∧
  project_status <$> project (world st') = project_status <$> project (world st) ∧
  documents (world st') = documents (world st).
Proof.
  revert st. induction items as [|item items IH]; intros st Hj; simpl.
  { split_and!; simpl; try done; lia. }
  destruct (IH _ (JInv_task item st Hj)) as (Hj' & Hp & Hf & Hy & Hr & He & Hs & Hd).
  destruct (job_task_effect item st) as (new & Hl & _ & Hr1 & Hw & _).
  cbn zeta in *. split_and!; try done.
  - rewrite Hp, Hl, progressed_app, progressed_enqueues. simpl. lia.
  - by rewrite Hf, Hl, fetched_app, fetched_enqueues.
  - by rewrite Hy, Hl, yielded_app, yielded_enqueues.
  - by rewrite Hr, Hr1.
  - rewrite He, Hw, filter_cons. unfold job_snapshot.
    destruct (decide (fetch_fails item)) as [Hff|Hff]; unfold fetch_fails in Hff.
    + rewrite Hff. simpl. lia.
    + destruct (scrapePage _ _ _ _); [|done]. simpl. lia.
  - rewrite Hs, Hw. simpl. by destruct (project (world st)).
  - by rewrite Hd, Hw.
Qed.

Lemma job_never_rejects batch order (fl : @InFlight Job) :
  (foldl (settle job_onProgress config batch) fl order).2 = fl.2.
Proof.
  revert fl. induction order as [|i order IH]; intros fl; [done|].
  cbn [foldl]. rewrite IH. destruct fl as [[st res] rejected]. unfold settle.
  destruct (batch !! i) as [item|]; [|done].
  destruct (job_task_effect item st) as (_ & _ & _ & _ & _ & Hr).
  by destruct (task job_onProgress config item st) as [st' [r|e]].
Qed.

Lemma JInv_ghost st st' :
  processed st' = processed st →
  progressed (log st') = progressed (log st) →
  processedCount (world st') = processedCount (world st) →
  successCount (world st') = successCount (world st) →
  errorCount (world st') = errorCount (world st) →
  (∀ s, ∃ s', project (world st)
        = Some {| processedUrls := processedCount (world st);
                  successfulUrls := successCount (world st);
                  failedUrls := errorCount (world st); project_status := s |} →
        project (world st')
        = Some {| processedUrls := processedCount (world st);
                  successfulUrls := successCount (world st);
                  failedUrls := errorCount (world st); project_status := s' |}) →
  (∀ p s e, scraping_progress p s e ∈ broadcasts (world st') →
            scraping_progress p s e ∈ broadcasts (world st)) →
  yields_balanced (log st') →
  JInv st → JInv st'.
Proof.
  intros Hp Hl Hc Hs He Hpr Hb Hy [? ? ? ? ? [s Hs0] ? ?].
  constructor; rewrite ?Hp, ?Hl, ?Hc, ?Hs, ?He; try done.
  - destruct (Hpr s) as [s' Hs']. exists s'. by apply Hs'.
  - intros p s1 e1 Hin. eauto.
Qed.

(** The pages of the array of results, in the order they are yielded, are
    pages of the batch in queue order. *)
Lemma results_sublist res batch :
  results_of config res batch →
  sublist (url <$> omap id res) (q_url <$> batch).
Proof.
  induction 1 as [|r item res batch Hr _ IH]; [done|].
  destruct r as [page|]; csimpl.
  - destruct (scrapePage_fields _ _ _ _ _ (Hr page eq_refl)) as (-> & _).
    by apply sublist_skip.
  - by apply sublist_cons.
Qed.

(** A turn of the loop in the job. *)
Lemma job_run_batch st :
  JInv st → balanced (log st) → results st = [] →
  let batch := take (maxWorkers config) (queue st) in
  ∃ st', run_batch job_onProgress config sched st = (st', None) ∧
    JInv st' ∧ balanced (log st') ∧
    fetched (log st') = reverse batch ++ fetched (log st) ∧
    yielded (log st') = yielded (log st) ∧
    results_of config (results st') batch ∧
    errorCount (world st')
    = errorCount (world st) + length (filter fetch_fails batch) ∧
    project_status <$> project (world st') = project_status <$> project (world st) ∧
    documents (world st') = documents (world st).
Proof.
  intros Hj Hbal Hres batch.
  destruct (run_batch_state job_onProgress config sched st)
    as (st1 & fl & _ & _ & Hp1 & Hr1 & Hw1 & Hl1 & Hfl & Hst & Hresults & Hrun).
  fold batch in Hl1, Hfl, Hst, Hresults.
  assert (Hrej : fl.2 = None) by (by rewrite Hfl, job_never_rejects).
  rewrite Hrej in Hrun.
  assert (Hj1 : JInv st1).
  { eapply JInv_ghost; [..|exact Hj]; rewrite ?Hw1, ?Hl1, ?progressed_app,
      ?progressed_fetches; try done.
    - intros s. by exists s.
    - apply yields_balanced_app; [apply yielded_fetches|]. by destruct Hj. }
  set (items := picked batch (arrange (sched (batches st)) (seq 0 (length batch)))) in *.
  destruct (job_tasks items st1 Hj1) as (Hj2 & Hpg & Hf & Hy & Hr & He & Hs & Hd).
  cbn zeta in *. rewrite <- Hst in *.
  assert (Hperm : items ≡ₚ batch) by apply picked_arrange.
  exists (set_results fl.1.2 fl.1.1). split_and!; simpl; try done.
  - eapply JInv_ghost; [..|exact Hj2]; try done.
    + intros s. by exists s.
    + by destruct Hj2.
  - unfold balanced in *.
    rewrite Hpg, Hf, Hl1, Hperm, progressed_app, fetched_app, progressed_fetches,
      fetched_fetches, ?length_app, ?length_reverse. simpl. lia.
  - by rewrite Hf, Hl1, fetched_app, fetched_fetches.
  - by rewrite Hy, Hl1, yielded_app, yielded_fetches.
  - by rewrite He, Hw1, Hperm.
  - by rewrite Hs, Hw1.
  - by rewrite Hd, Hw1.
Qed.

Lemma RInv_start : RInv (run_start config).
Proof.
  pose proof (Inv_start config job_start) as Hinv.
  assert (Hlog : ∃ es, log (scrapeWebsite_start config job_start)
                       = (EEnqueue <$> es) ++ [ECategories (targetUrl config)]
                 ∧ world (scrapeWebsite_start config job_start) = job_start
                 ∧ processed (scrapeWebsite_start config job_start) = 0
                 ∧ results (scrapeWebsite_start config job_start) = []).
  { unfold scrapeWebsite_start.
    set (st0 := {| seen := ∅; queue := []; processed := 0; results := [];
                   batches := 0; world := job_start;
                   log := [ECategories (targetUrl config)] |}).
    assert (H0 : ∃ es, log st0 = (EEnqueue <$> es) ++ [ECategories (targetUrl config)]
                 ∧ world st0 = job_start ∧ processed st0 = 0 ∧ results st0 = [])
      by (by exists []).
    clearbody st0. revert st0 H0.
    induction (JSObject.entries _) as [|kv es IH]; intros st0 H0; simpl; [done|].
    apply IH. unfold seed. case_decide; [done|].
    destruct H0 as (es0 & Hl0 & Hw & Hp & Hr). simpl. rewrite Hl0.
    by eexists (_ :: es0). }
  destruct Hlog as (es & Hl & Hw & Hp & Hr).
  constructor; unfold run_start; cbn [crawl ended];
    rewrite ?Hl, ?Hw, ?Hr, ?yielded_app, ?fetched_app, ?progressed_app,
      ?yielded_enqueues, ?fetched_enqueues, ?progressed_enqueues; simpl; try done.
  - constructor; rewrite ?Hl, ?Hw, ?Hp, ?progressed_app, ?progressed_enqueues;
      simpl; try done.
    + by eexists.
    + by intros ? ? ? ?%elem_of_nil.
    + apply yields_balanced_app; [apply yielded_enqueues|done].
  - unfold balanced.
    by rewrite progressed_app, fetched_app, progressed_enqueues, fetched_enqueues.
  - intros page [Hpage%elem_of_yielded|Hpage%elem_of_nil]; [|done].
    rewrite yielded_app, yielded_enqueues in Hpage. by apply elem_of_nil in Hpage.
  - eexists. split; [done|]. simpl. split; [done|].
    intros page Hpage%elem_of_yielded.
    rewrite yielded_app, yielded_enqueues in Hpage. by apply elem_of_nil in Hpage.
Qed.

Lemma RInv_step r : RInv r → RInv (job_step config sched process r).
Proof.
  intros [Hinv Hj Hbal Hord Hfail Hdoc Hpages (pr & Hpr & Hst)].
  unfold job_step. destruct (ended r) eqn:Hend.
  { constructor; try done. exists pr. by rewrite Hend. }
  assert (Hrun : project_status pr = running ∧
                 ∀ page, EYield page ∈ log (crawl r) → process page = None).
  { destruct (project_status pr); [done|by destruct Hst|..];
      destruct Hst as [Hst _]; congruence. }
  destruct Hrun as [Hrunning Hok]. clear Hst.
  pose proof (Inv_gen_step job_onProgress config sched (crawl r) Hinv) as Hinv'.
  unfold gen_step in *. destruct (results (crawl r)) as [|[page|] rest] eqn:Hres.
  - destruct (queue (crawl r)) as [|item q] eqn:Hq.
    + (* the generator returns *)
      constructor; cbn [crawl ended].
      * by apply Inv_set_world.
      * eapply JInv_ghost; [..|exact Hj]; simpl; try done.
        -- intros s. eexists. intros ->. done.
        -- by intros p s e [?|?]%elem_of_cons.
        -- by destruct Hj.
      * done.
      * simpl. by rewrite Hres.
      * done.
      * done.
      * simpl. rewrite Hres. done.
      * simpl. rewrite Hpr. eexists. split; [done|]. simpl. by rewrite Hq, Hres.
    + (* a new batch *)
      destruct (job_run_batch (crawl r) Hj Hbal Hres)
        as (st' & Hrb & Hj' & Hbal' & Hf' & Hy' & Hres' & He' & Hs' & Hd').
      rewrite Hrb in *. cbn [fst] in Hinv'.
      constructor; cbn [crawl ended].
      * done.
      * done.
      * done.
      * rewrite Hy', Hf', reverse_app, reverse_involutive, fmap_app, fmap_app.
        simpl in Hord. rewrite app_nil_r in Hord.
        apply sublist_app; [done|]. by apply results_sublist.
      * rewrite He', Hf', Hfail, filter_app, length_app, filter_reverse,
          length_reverse. lia.
      * by rewrite Hd', Hy'.
      * intros page [Hp%elem_of_yielded|Hp].
        -- rewrite Hy' in Hp. destruct (Hpages page) as (it & Hit & Hsp).
           { left. by apply elem_of_yielded. }
           exists it. split; [|done]. apply elem_of_fetched. rewrite Hf'.
           apply elem_of_app. right. by apply elem_of_fetched.
        -- apply list_elem_of_lookup in Hp as [i Hi].
           destruct (Forall2_lookup_l _ _ _ _ _ Hres' Hi) as (it & Hit & Hsp).
           exists it. split; [|by apply Hsp]. apply elem_of_fetched. rewrite Hf'.
           apply elem_of_app. left. apply elem_of_reverse.
           by eapply list_elem_of_lookup_2.
      * rewrite Hpr in Hs'. destruct (project (world st')) as [pr'|]; [|done].
        simpl in Hs'. exists pr'. split; [done|].
        injection Hs' as ->. rewrite Hrunning. split; [done|].
        intros page Hp%elem_of_yielded. rewrite Hy' in Hp.
        by apply Hok, elem_of_yielded.
  - (* a page is yielded and goes through the loop body *)
    cbn [fst] in Hinv'. unfold consume. cbn [world emit set_results].
    assert (Hord' : url <$> reverse (yielded (EYield page :: log (crawl r)))
                            ++ omap id rest
                    `sublist_of` q_url <$> reverse (fetched (log (crawl r)))).
    { csimpl in Hord. csimpl.
      by rewrite reverse_cons, <- app_assoc. }
    assert (Hpages' : ∀ page0,
              EYield page0 ∈ EYield page :: log (crawl r) ∨ Some page0 ∈ rest →
              ∃ item, EFetch item ∈ EYield page :: log (crawl r) ∧
                scrapePage (q_url item) (q_depth item) (domain config)
                           (q_category item) = Some page0).
    { intros page0 Hp. destruct (Hpages page0) as (it & Hit & Hsp).
      - destruct Hp as [[Heq|?]%elem_of_cons|?]; [|by left|right; by right].
        right. simplify_eq. by left.
      - exists it. split; [by right|done]. }
    destruct (process page) as [e|] eqn:Hproc.
    + constructor; cbn [crawl ended]; simpl.
      * by apply Inv_set_world.
      * eapply JInv_ghost; [..|exact Hj]; simpl; try done.
        -- intros s. eexists. intros ->. done.
        -- by intros p s e' [?|?]%elem_of_cons.
        -- split; [done|]. by destruct Hj.
      * done.
      * done.
      * done.
      * by rewrite Hdoc, reverse_cons.
      * done.
      * rewrite Hpr. eexists. split; [done|]. simpl. split; [done|].
        exists page. split; [by left|]. by rewrite Hproc.
    + constructor; cbn [crawl ended]; simpl.
      * by apply Inv_set_world.
      * eapply JInv_ghost; [..|exact Hj]; simpl; try done.
        -- intros s. by exists s.
        -- by intros p s e' [?|?]%elem_of_cons.
        -- split; [done|]. by destruct Hj.
      * done.
      * done.
      * done.
      * by rewrite Hdoc, reverse_cons.
      * done.
      * rewrite Hpr. eexists. split; [done|]. rewrite Hrunning. split; [done|].
        intros p [Heq|?]%elem_of_cons; [|auto]. by simplify_eq.
  - (* a task of the batch had failed: nothing to yield *)
    cbn [fst] in Hinv'.
    constructor; cbn [crawl ended]; simpl.
    + done.
    + eapply JInv_ghost; [..|exact Hj]; simpl; try done.
      * intros s. by exists s.
      * by destruct Hj.
    + done.
    + done.
    + done.
    + done.
    + intros page0 Hp. apply Hpages. destruct Hp as [?|?]; [by left|].
      right. by right.
    + rewrite Hpr. eexists. split; [done|]. by rewrite Hrunning.
Qed.

Lemma RInv_run n : RInv (job_run config sched process n).
Proof.
  induction n as [|n IH]; [apply RInv_start|]. by apply RInv_step.
Qed.

(** The generator of the job only goes through states of a run. *)
Lemma job_reachable n :
  reachable job_onProgress config sched (crawl (job_run config sched process n)).
Proof.
  induction n as [|n IH]; [apply reach_start|].
  unfold job_run in *. simpl. unfold job_step at 1.
  destruct (ended _); [done|].
  pose proof (reach_step _ _ _ _ IH) as Hstep.
  destruct (gen_step _ _ _ _) as [st [page| |e|]]; simpl in *;
    try done; try (by apply reach_caller).
  destruct (consume process page (world st)) as [j [e|]];
    by apply reach_caller.
Qed.

(** *** Termination *)

Lemma job_step_ended r : ended r = true → job_step config sched process r = r.
Proof. intros He. unfold job_step. by rewrite He. Qed.

Lemma job_iter_ended n r :
  ended r = true → Nat.iter n (job_step config sched process) r = r.
Proof.
  intros He. induction n as [|n IH]; [done|].
  simpl. rewrite IH. by apply job_step_ended.
Qed.

(** A step of the job ends it or uses up fuel. *)
Lemma job_step_fuel r :
  RInv r → 1 ≤ maxWorkers config → ended r = false →
  ended (job_step config sched process r) = true ∨
  fuel_left config (crawl (job_step config sched process r))
  < fuel_left config (crawl r).
Proof.
  intros Hr Hmw Hend. unfold job_step. rewrite Hend. unfold gen_step.
  destruct (results (crawl r)) as [|[page|] rest] eqn:Hres.
  - destruct (queue (crawl r)) as [|item q] eqn:Hq; [by left|].
    right.
    assert (Hne : queue (crawl r) ≠ []) by (by rewrite Hq).
    pose proof (run_batch_fuel job_onProgress config sched (crawl r) Hres Hne Hmw) as Hf.
    destruct (job_run_batch (crawl r) (run_counters _ _ _ Hr) (run_balanced _ _ _ Hr) Hres)
      as (st' & Hrb & _).
    rewrite Hrb in *. done.
  - destruct (consume process page _) as [j [e|]]; [by left|].
    right. unfold fuel_left. simpl. rewrite Hres. simpl. lia.
  - right. unfold fuel_left. simpl. rewrite Hres. simpl. lia.
Qed.

Lemma job_ends n r :
  RInv r → 1 ≤ maxWorkers config → fuel_left config (crawl r) < n →
  ended (Nat.iter n (job_step config sched process) r) = true.
Proof.
  revert r. induction n as [|n IH]; intros r Hr Hmw Hfuel; [lia|].
  rewrite Nat.iter_succ_r.
  destruct (ended r) eqn:Hend.
  { rewrite job_step_ended by done. by rewrite job_iter_ended. }
  destruct (job_step_fuel r Hr Hmw Hend) as [He|Hlt].
  - by rewrite job_iter_ended.
  - apply IH; [by apply RInv_step|done|lia].
Qed.

Lemma yields_balanced_split lg newer page older :
  yields_balanced lg → lg = newer ++ EYield page :: older → balanced older.
Proof.
  revert lg. induction newer as [|e newer IH]; intros lg Hy ->.
  - by destruct Hy.
  - apply (IH (newer ++ EYield page :: older)); [|done].
    destruct e; simpl in Hy; try done. by destruct Hy.
Qed.

(** C6. Throughout the job the snapshots carry [totalProcessed] 1, 2, 3, ...
    in the order they are reported, one snapshot for each fetch started; in
    every progress message, which carries the counters written to the
    project by the same call, the count of processed URLs is the sum of the
    successes and the failures; and so it is in the project record. *)
Theorem counters_add_up n :
  let st := crawl (job_run config sched process n) in
  totalProcessed <$> reverse (progressed (log st))
  = seq 1 (length (progressed (log st))) ∧
  length (progressed (log st)) = length (fetched (log st)) ∧
  (∀ p s e, scraping_progress p s e ∈ broadcasts (world st) →
            totalProcessed p = s + e) ∧
  ∃ pr, project (world st) = Some pr ∧
        processedUrls pr = successfulUrls pr + failedUrls pr ∧
        processedUrls pr = length (progressed (log st)).
Proof.
  intros st. destruct (RInv_run n) as [_ Hj Hbal _ _ _ _ _]. fold st in Hj, Hbal.
  destruct Hj as [Hp Hn Hc Hs He [s Hpr] Hb _].
  pose proof (status_partition (progressed (log st))) as Hpart.
  split_and!.
  - rewrite fmap_reverse, Hn, reverse_involutive. by rewrite Hp.
  - done.
  - done.
  - eexists. split; [done|]. simpl. lia.
Qed.

(** C4, amended. In the job, when a page is yielded every fetch started
    so far has settled: the pages of a batch are held back until the whole
    batch has settled. They are then yielded in the order their fetches
    were started, and the fetches are started in the order the queue
    entries were placed on the frontier. *)
Theorem yield_after_batch n :
  let lg := log (crawl (job_run config sched process n)) in
  (∀ newer page older, lg = newer ++ EYield page :: older → balanced older) ∧
  sublist (url <$> reverse (yielded lg)) (q_url <$> reverse (fetched lg)) ∧
  reverse (fetched lg) `prefix_of` reverse (enqueued lg).
Proof.
  intros lg. destruct (RInv_run n) as [Hinv Hj _ Hord _ _ _ _].
  fold lg in Hord. split_and!.
  - intros newer page older Hlg. eapply yields_balanced_split; [|exact Hlg].
    by destruct Hj.
  - etrans; [|exact Hord]. rewrite fmap_app. by apply sublist_inserts_r.
  - unfold lg. rewrite (inv_queue _ _ Hinv). by apply prefix_app_r.
Qed.

End JobFacts.

(** ** Single pages: failures, titles, word counts, the domain *)

Section Pages.
Context `{Platform}.

(** C5, amended. When the fetch or the parse of a queue entry fails, with
    whatever error, the snapshot its task reports is an error snapshot whose
    message is the constant text; the text of the failure is not in it. *)
Theorem failed_fetch_message {W} (onProgress : Progress → W → W * option Thrown)
    config item (st : Crawl W) e :
  scrapePage_try (q_url item) (q_depth item) (domain config) (q_category item)
  = Throw e →
  ∃ newer,
    log (task onProgress config item st).1
    = newer ++ EProgress {| p_url := q_url item; status := error;
                            totalProcessed := S (processed st);
                            message := "Failed to scrape page" |} :: log st.
Proof.
  intros He. unfold task, task_try, report, scrapePage. rewrite He.
  cbn [count processed world].
  destruct (onProgress _ (world st)) as [w [e1|]]; cbn -[error_message].
  - destruct (onProgress _ w) as [w' [e2|]]; cbn; by eexists [_].
  - by exists [].
Qed.

(** C10. A page scraped with success whose document has no [title] element,
    or whose title text is empty once trimmed, gets its URL as title. *)
Theorem title_falls_back u d dom cat page response html :
  scrapePage u d dom cat = Some page →
  fetch u = Ok response → text response = Ok html →
  cleaned html "title" = [] ∨ JS.trim (sel_text (cleaned html "title")) = "" →
  title page = u.
Proof.
  intros (r & h & ls & imgs & Hf & _ & Ht & _ & _ & ->)%scrapePage_Some Hf' Ht' Hno.
  rewrite Hf in Hf'. injection Hf' as <-.
  rewrite Ht in Ht'. injection Ht' as <-.
  simpl. unfold page_title, JS.or_else.
  destruct Hno as [Hno|Hno]; rewrite Hno; done.
Qed.

(** C9. [getDomain] never throws: it returns the host name of its argument
    when [new URL] accepts it and the empty string when [new URL] throws.
    When it returns the empty string, the substring test of the crawl holds
    for every URL, and so the filter lets every resolved link through: the
    links of a page that [scrapePage] returns for that domain have the URL
    of every anchor of the page whose address [new URL] resolves, and the
    loop of [extractCategories] keeps every anchor that passes its tests on
    the text. *)
Theorem getDomain_total (u : string) :
  (∃ d, getDomain_exc u = Ok d ∧ getDomain u = d) ∧
  (∀ parsed, new_URL u None = Ok parsed → getDomain u = hostname parsed) ∧
  (∀ e, new_URL u None = Throw e → getDomain u = "") ∧
  (getDomain u = "" →
   (∀ fullUrl, JS.includes fullUrl (getDomain u) = true) ∧
   (∀ base d cat page response html el h full,
      scrapePage base d (getDomain u) cat = Some page →
      fetch base = Ok response → text response = Ok html →
      el ∈ cleaned html "a[href]" → el_attr el "href" = Some h → h ≠ "" →
      new_URL h (Some base) = Ok full → href full ∈ links page) ∧
   (∀ base els allLinks el h full,
      each_category_link els base (getDomain u) [] = Ok allLinks →
      el ∈ els → el_attr el "href" = Some h → h ≠ "" →
      JS.trim (el_text el) ≠ "" →
      JS.startsWith (JS.toLowerCase (JS.trim (el_text el))) "edit" = false →
      new_URL h (Some base) = Ok full →
      (JS.trim (el_text el), href full) ∈ allLinks)).
Proof.
  split_and!.
  - unfold getDomain, getDomain_exc, try_catch, mbind, Exc_bind, mret, Exc_ret.
    destruct (new_URL u None); by eexists.
  - unfold getDomain, getDomain_exc, try_catch, mbind, Exc_bind, mret, Exc_ret.
    by intros parsed ->.
  - unfold getDomain, getDomain_exc, try_catch, mbind, Exc_bind, mret, Exc_ret.
    by intros e ->.
  - intros ->. split_and!.
    + intros fullUrl. apply includes_empty.
    + intros base d cat page response html el h full
        (r & h0 & ls & imgs & Hf & _ & Ht & Hls & _ & ->)%scrapePage_Some
        Hf' Ht' Hel Hattr Hne Hurl.
      rewrite Hf in Hf'. injection Hf' as <-.
      rewrite Ht in Ht'. injection Ht' as <-.
      simpl. apply (proj1 (proj2 (spread_set_go_spec [] ls))).
      split; [|by intros ?%elem_of_nil].
      eapply (proj2 (each_link_keeps _ _ _ _ _ Hls)); [done..|].
      apply includes_empty.
    + intros base els allLinks el h full Hall Hel Hattr Hne Ht He Hurl.
      eapply (proj2 (each_category_link_keeps _ _ _ _ _ Hall)); [done..|].
      apply includes_empty.
Qed.

(** The cleaned text of a page is empty or tidy. *)
Lemma page_content_tidy (dom : Dom) :
  page_content dom = "" ∨ tidy true (page_content dom) = true.
Proof.
  unfold page_content, JS.trim, JS.replace_spaces.
  eapply trimEnd_tidy, trimStart_squeezed, replace_spaces_squeezed. done.
Qed.

(** The word count of a page is the number of the white-space separated
    tokens of its cleaned text when that text is not empty, and 1 when it
    is empty, where there is no token. *)
Lemma wordCount_tokens u d dom cat page :
  scrapePage u d dom cat = Some page →
  (content page ≠ "" →
   JS.split " " (content page) = words (content page) ∧
   wordCount page = length (words (content page))) ∧
  (content page = "" → wordCount page = 1 ∧ words (content page) = []).
Proof.
  intros (r & h & ls & imgs & _ & _ & _ & _ & _ & ->)%scrapePage_Some. simpl.
  split.
  - intros Hne. destruct (page_content_tidy (cleaned h)) as [?|Ht]; [done|].
    assert (Hw : JS.split " " (page_content (cleaned h))
                 = words (page_content (cleaned h))).
    { by apply (tidy_pieces _ _ (le_n _)). }
    split; [done|]. unfold count_words. by rewrite Hw.
  - by intros ->.
Qed.

(** The word count of a page is never zero. *)
Lemma wordCount_pos u d dom cat page :
  scrapePage u d dom cat = Some page → 1 ≤ wordCount page.
Proof.
  intros (r & h & ls & imgs & _ & _ & _ & _ & _ & ->)%scrapePage_Some.
  simpl. apply split_go_length.
Qed.

End Pages.

(** ** More on [sanitizeFilename] and [scrapePage] *)

Lemma sanitizeFilename_chars name :
  safe_name (sanitizeFilename name).
Proof.
  unfold safe_name. induction name as [|c name IH]; simpl; [constructor|].
  constructor; [|done]. by destruct (unsafe_char c) eqn:Hc.
Qed.

Lemma sanitizeFilename_id name : safe_name name → sanitizeFilename name = name.
Proof.
  unfold safe_name. induction name as [|c name IH]; simpl; [done|].
  intros [Hc Hn]%Forall_cons. by rewrite Hc, IH.
Qed.

(** X1. [sanitizeFilename] keeps the length of a name, leaves none of the
    characters it replaces, and does nothing to a name it has already
    cleaned. *)
Theorem sanitizeFilename_safe name :
  String.length (sanitizeFilename name) = String.length name ∧
  safe_name (sanitizeFilename name) ∧
  sanitizeFilename (sanitizeFilename name) = sanitizeFilename name.
Proof.
  split_and!.
  - induction name as [|c name IH]; simpl; [done|]. by rewrite IH.
  - apply sanitizeFilename_chars.
  - apply sanitizeFilename_id, sanitizeFilename_chars.
Qed.

Section ScraperMore.
Context `{Platform}.

(** X2. No URL occurs twice among the links of a scraped page, nor among
    its images: both lists go through a [Set]. *)
Theorem scraped_links_distinct u d dom cat page :
  scrapePage u d dom cat = Some page →
  NoDup (links page) ∧ NoDup (images page).
Proof.
  intros (?&?&ls&imgs&_&_&_&_&_&->)%scrapePage_Some. simpl.
  split; apply spread_set_go_spec.
Qed.

Lemma each_link_throws els base dom acc el h e :
  el ∈ els → el_attr el "href" = Some h → h ≠ "" →
  new_URL h (Some base) = Throw e →
  ∃ e', each_link els base dom acc = Throw e'.
Proof.
  intros Hel Hh Hne He. revert acc.
  induction Hel as [el els|el el' els Hel IH]; intros acc; simpl.
  - rewrite Hh. destruct h as [|c h]; [done|].
    unfold mbind, Exc_bind. rewrite He. by eexists.
  - specialize (IH Hh). destruct (el_attr el' "href") as [[|c' h']|]; [apply IH| |apply IH].
    unfold mbind, Exc_bind.
    destruct (new_URL (String c' h') (Some base)) as [full|e0]; [|by eexists].
    destruct (JS.includes _ _); apply IH.
Qed.

Lemma each_image_throws els base acc el s e :
  el ∈ els → el_attr el "src" = Some s → s ≠ "" →
  new_URL s (Some base) = Throw e →
  ∃ e', each_image els base acc = Throw e'.
Proof.
  intros Hel Hh Hne He. revert acc.
  induction Hel as [el els|el el' els Hel IH]; intros acc; simpl.
  - rewrite Hh. destruct s as [|c s]; [done|].
    unfold mbind, Exc_bind. rewrite He. by eexists.
  - specialize (IH Hh). destruct (el_attr el' "src") as [[|c' h']|]; [apply IH| |apply IH].
    unfold mbind, Exc_bind.
    destruct (new_URL (String c' h') (Some base)) as [full|e0]; [|by eexists].
    apply IH.
Qed.

(** X3. One anchor or image of a page whose address [new URL] rejects loses
    the whole page: the loop over the anchors (or the images) throws, and
    [scrapePage] returns [null] although the fetch succeeded. *)
Theorem unparsable_link_loses_page u d dom cat response html el attr target e :
  fetch u = Ok response → text response = Ok html →
  (attr = "href" ∧ el ∈ cleaned html "a[href]" ∨
   attr = "src" ∧ el ∈ cleaned html "img[src]") →
  el_attr el attr = Some target → target ≠ "" →
  new_URL target (Some u) = Throw e →
  scrapePage u d dom cat = None.
Proof.
  intros Hf Ht Hel Hattr Hne He.
  unfold scrapePage, scrapePage_try, mbind, Exc_bind, mret, Exc_ret.
  rewrite Hf. destruct (ok response); simpl; [|done]. rewrite Ht.
  destruct Hel as [[-> Hel]|[-> Hel]].
  - destruct (each_link_throws _ u dom [] _ _ _ Hel Hattr Hne He) as [e' ->]. done.
  - destruct (each_link _ _ _ _); [|done].
    destruct (each_image_throws _ u [] _ _ _ Hel Hattr Hne He) as [e' ->]. done.
Qed.

(** X4. The content of a scraped page is empty, or it is a list of words
    with exactly one space between any two of them, and no white space
    before the first or after the last: nowhere in it does a white-space
    character of ECMAScript start, a no-break space or an ideographic space
    no more than a tab, apart from these single spaces. Splitting a content
    that is not empty at its spaces gives its words. *)
Theorem content_is_tidy u d dom cat page :
  scrapePage u d dom cat = Some page →
  (content page = "" ∨ tidy true (content page) = true) ∧
  (content page ≠ "" → JS.split " " (content page) = words (content page)).
Proof.
  intros Hpage. split.
  - destruct (scrapePage_Some _ _ _ _ _ Hpage) as (?&h&?&?&_&_&_&_&_&->).
    simpl. apply page_content_tidy.
  - intros Hne. by apply (wordCount_tokens u d dom cat page Hpage).
Qed.

End ScraperMore.

(** ** More on [extractCategories] *)

Lemma set_own_keys k v (obj : JSObject.t) :
  (JSObject.set_own k v obj).*1
  = if decide (k ∈ obj.*1) then obj.*1 else obj.*1 ++ [k].
Proof.
  induction obj as [|[k' v'] obj IH]; [done|].
  cbn [JSObject.set_own]. rewrite fmap_cons. cbn [fst].
  destruct (decide (k' = k)) as [->|Hk].
  - rewrite decide_True; [done|by left].
  - rewrite fmap_cons, IH. cbn [fst].
    destruct (decide (k ∈ obj.*1)) as [Hin|Hin].
    + rewrite decide_True; [done|by right].
    + rewrite decide_False; [done|].
      intros [?|?]%elem_of_cons; by simplify_eq.
Qed.

Lemma set_own_elem k v (obj : JSObject.t) kv :
  kv ∈ JSObject.set_own k v obj → kv = (k, v) ∨ kv ∈ obj.
Proof.
  induction obj as [|[k' v'] obj IH]; simpl.
  - intros ->%list_elem_of_singleton. by left.
  - case_decide.
    + intros [->|?]%elem_of_cons; [by left|]. right. by right.
    + intros [->|Hkv]%elem_of_cons; [right; by left|].
      destruct (IH Hkv) as [?|?]; [by left|]. right. by right.
Qed.

Lemma JSObject_set_keys k v obj :
  NoDup obj.*1 → NoDup (JSObject.set k v obj).*1.
Proof.
  intros Hnd. unfold JSObject.set. case_decide; [done|].
  rewrite set_own_keys. case_decide; [done|].
  apply NoDup_app. split_and!; [done| |apply NoDup_singleton].
  intros x Hx ->%list_elem_of_singleton. done.
Qed.

Lemma JSObject_entries_perm obj : JSObject.entries obj ≡ₚ obj.
Proof.
  unfold JSObject.entries, JSObject.t. rewrite merge_sort_Permutation.
  induction obj as [|kv obj IH]; [done|].
  rewrite filter_cons. cbn [omap list_omap].
  destruct (JSObject.array_index kv.1) as [n|] eqn:Hn.
  - rewrite decide_False by done. cbn [mbind option_bind].
    rewrite fmap_cons. cbn [snd]. by rewrite <- app_comm_cons, IH.
  - rewrite decide_True by done. cbn [mbind option_bind].
    by rewrite <- Permutation_middle, IH.
Qed.

Lemma fill_categories_keys allLinks :
  Forall (λ kv, safe_name kv.1 ∧ kv.1 ≠ "" ∧ kv.1 ≠ "__proto__")
         (fill_categories allLinks) ∧
  NoDup (fill_categories allLinks).*1.
Proof.
  unfold fill_categories.
  assert (Hgen : ∀ acc : JSObject.t,
    Forall (λ kv, safe_name kv.1 ∧ kv.1 ≠ "" ∧ kv.1 ≠ "__proto__") acc ∧ NoDup acc.*1 →
    Forall (λ kv, safe_name kv.1 ∧ kv.1 ≠ "" ∧ kv.1 ≠ "__proto__")
      (foldl (λ categories tl,
                JSObject.set (JS.or_else (sanitizeFilename tl.1) "misc")
                             tl.2 categories) acc allLinks) ∧
    NoDup (foldl (λ categories tl,
                JSObject.set (JS.or_else (sanitizeFilename tl.1) "misc")
                             tl.2 categories) acc allLinks).*1).
  { induction allLinks as [|tl rest IH]; intros acc Hacc; simpl; [done|].
    apply IH. destruct Hacc as [Hsafe Hnd]. split; [|by apply JSObject_set_keys].
    apply Forall_forall. intros kv Hkv. rewrite Forall_forall in Hsafe.
    unfold JSObject.set in Hkv. case_decide as Hproto; [by apply Hsafe|].
    apply set_own_elem in Hkv as [->|?]; [|by apply Hsafe]. simpl.
    split_and!; [| |done].
    - unfold JS.or_else. case_decide; [|apply sanitizeFilename_chars].
      unfold safe_name. simpl. repeat constructor.
    - unfold JS.or_else. by case_decide. }
  apply Hgen. split; [constructor|]. simpl. constructor.
Qed.

Section CategoryMore.
Context `{Platform}.

(** X5. The names of the categories that [extractCategories] returns have
    none of the characters [sanitizeFilename] replaces, are not empty, and
    are pairwise different. *)
Theorem category_names_safe base dom :
  Forall (λ kv, safe_name kv.1 ∧ kv.1 ≠ "")
         (JSObject.entries (extractCategories base dom)) ∧
  NoDup (JSObject.entries (extractCategories base dom)).*1.
Proof.
  rewrite !JSObject_entries_perm.
  unfold extractCategories.
  destruct (extractCategories_try base dom) as [cats|] eqn:Hcats.
  2:{ split; [constructor|]. simpl. constructor. }
  revert cats Hcats. unfold extractCategories_try, mbind, Exc_bind, mret, Exc_ret.
  destruct (fetch base) as [response|]; simpl; [|done].
  destruct (text response) as [html|]; simpl; [|done].
  destruct (each_category_link _ _ _ _) as [allLinks|]; simpl; [|done].
  intros cats [= <-]. destruct (fill_categories_keys allLinks) as [Hs Hn].
  split; [|done]. eapply Forall_impl; [exact Hs|]. by intros kv (? & ? & _).
Qed.

Lemma each_category_link_throws els base dom acc el h e :
  el ∈ els → el_attr el "href" = Some h → h ≠ "" →
  JS.trim (el_text el) ≠ "" →
  JS.startsWith (JS.toLowerCase (JS.trim (el_text el))) "edit" = false →
  new_URL h (Some base) = Throw e →
  ∃ e', each_category_link els base dom acc = Throw e'.
Proof.
  intros Hel Hh Hne Ht He Hurl. revert acc.
  induction Hel as [el els|el el' els Hel IH]; intros acc; simpl.
  - rewrite Hh. destruct h as [|c h]; [done|].
    rewrite bool_decide_eq_true_2 by done. rewrite He. simpl.
    unfold mbind, Exc_bind. rewrite Hurl. by eexists.
  - specialize (IH Hh Ht He).
    destruct (el_attr el' "href") as [[|c' h']|]; [apply IH| |apply IH].
    destruct (_ && _); [|apply IH].
    unfold mbind, Exc_bind.
    destruct (new_URL (String c' h') (Some base)) as [full|e0]; [|by eexists].
    destruct (JS.includes _ _); apply IH.
Qed.

(** X6. [extractCategories] returns the empty object when the fetch of the
    base URL rejects, when the body cannot be read, and when one anchor
    that would be kept has an address [new URL] rejects. *)
Theorem extractCategories_catches base dom :
  (∀ e, fetch base = Throw e → extractCategories base dom = []) ∧
  (∀ response e, fetch base = Ok response → text response = Throw e →
     extractCategories base dom = []) ∧
  (∀ response html el h e,
     fetch base = Ok response → text response = Ok html →
     el ∈ loaded html "a[href]" → el_attr el "href" = Some h → h ≠ "" →
     JS.trim (el_text el) ≠ "" →
     JS.startsWith (JS.toLowerCase (JS.trim (el_text el))) "edit" = false →
     new_URL h (Some base) = Throw e →
     extractCategories base dom = []).
Proof.
  unfold extractCategories, extractCategories_try, mbind, Exc_bind, mret, Exc_ret.
  split_and!.
  - by intros e ->.
  - by intros response e -> ->.
  - intros response html el h e -> -> Hel Hh Hne Ht He Hurl.
    by destruct (each_category_link_throws _ base dom [] _ _ _ Hel Hh Hne Ht He Hurl)
      as [e' ->].
Qed.

End CategoryMore.

(** ** More on [scrapeWebsite]: seeding, categories, fetches in flight *)

Lemma reported_app l1 l2 : reported (l1 ++ l2) = reported l1 ++ reported l2.
Proof. unfold reported. by rewrite progressed_app, fmap_app. Qed.

Lemma length_filter_mono {A} (P Q : A → Prop)
    `{∀ x, Decision (P x)} `{∀ x, Decision (Q x)} (l : list A) :
  (∀ x, P x → Q x) → length (filter P l) ≤ length (filter Q l).
Proof.
  intros HPQ. induction l as [|x l IH]; [done|].
  rewrite !filter_cons. destruct (decide (P x)) as [HP|HP].
  - rewrite decide_True by auto. simpl. lia.
  - destruct (decide (Q x)); simpl; lia.
Qed.

(** A fetch more is at most one more in flight; anything else logged puts
    nothing in flight. *)
Lemma in_flight_app new lg :
  in_flight (new ++ lg) ≤ length (fetched new) + in_flight lg.
Proof.
  unfold in_flight. rewrite fetched_app, filter_app, length_app.
  pose proof (length_filter (λ item, q_url item ∉ reported (new ++ lg)) (fetched new)).
  enough (length (filter (λ item, q_url item ∉ reported (new ++ lg)) (fetched lg))
          ≤ length (filter (λ item, q_url item ∉ reported lg) (fetched lg))) by lia.
  apply length_filter_mono. intros item Hn Hin. apply Hn.
  rewrite reported_app. apply elem_of_app. by right.
Qed.

Lemma in_flight_settled lg :
  (∀ item, item ∈ fetched lg → q_url item ∈ reported lg) → in_flight lg = 0.
Proof.
  intros Hall. unfold in_flight.
  induction (fetched lg) as [|item l IH]; [done|].
  rewrite filter_cons, decide_False.
  - apply IH. intros it Hit. apply Hall. by right.
  - intros Hn. apply Hn, Hall. by left.
Qed.

Lemma flight_quiet k lg : fetched lg = [] → flight_inv k lg.
Proof.
  intros Hnone. split.
  - intros item. rewrite Hnone. by intros ?%elem_of_nil.
  - intros newer older ->. rewrite fetched_app in Hnone.
    apply app_eq_nil in Hnone as [_ Hnone]. unfold in_flight.
    rewrite Hnone. simpl. lia.
Qed.

Lemma flight_extend k lg new :
  flight_inv k lg → length (fetched new) ≤ k →
  (∀ item, item ∈ fetched new → q_url item ∈ reported new) →
  flight_inv k (new ++ lg).
Proof.
  intros [Hb Hs] Hk Hp. split.
  - intros item. rewrite fetched_app, reported_app, !elem_of_app.
    intros [?|?]; [left|right]; auto.
  - intros newer older Heq.
    apply app_eq_inv in Heq as [(m & -> & ->)|(m & -> & ->)].
    + pose proof (in_flight_app m lg) as Hm.
      rewrite (in_flight_settled lg Hb) in Hm.
      rewrite fetched_app, length_app in Hk. lia.
    + by eapply Hs.
Qed.

Lemma enqueued_enqueues items : enqueued (EEnqueue <$> items) = items.
Proof. induction items as [|i items IH]; [done|]. csimpl. by rewrite IH. Qed.

Section Trace.
Context `{Platform}.
Context {W : Type} (onProgress : Progress → W → W * option Thrown).
Context (config : ScrapingConfig) (sched : nat → list nat).

Implicit Type st : Crawl W.

(** What the seeding loop does. *)
Lemma seed_effect (es : list (string * string)) st :
  ∃ new, let st' := foldl seed st es in
    queue st' = queue st ++ new ∧
    log st' = (EEnqueue <$> reverse new) ++ log st ∧
    seen st' = seen st ∪ list_to_set es.*2 ∧
    processed st' = processed st ∧ results st' = results st ∧
    world st' = world st ∧
    Forall (λ item, q_depth item = 0 ∧ (q_category item, q_url item) ∈ es
                    ∧ q_url item ∉ seen st) new ∧
    NoDup (q_url <$> new).
Proof.
  revert st. induction es as [|kv es IH]; intros st; simpl.
  - exists []. rewrite app_nil_r. split_and!; try done; [set_solver|constructor].
  - destruct (IH (seed st kv)) as (new & Hq & Hl & Hs & Hp & Hr & Hw & Hf & Hnd).
    unfold seed in *. case_decide as Hseen.
    + exists new. split_and!; try done; [set_solver|].
      eapply Forall_impl; [exact Hf|]. intros item (? & ? & ?).
      split_and!; [done|by right|done].
    + exists ({| q_url := kv.2; q_depth := 0; q_category := kv.1 |} :: new).
      simpl in *. rewrite Hq, Hl, Hs, reverse_cons, fmap_app, <- !app_assoc.
      split_and!; try done; [set_solver| |].
      * constructor; [split_and!; [done| |done]; simpl; destruct kv; by left|].
        eapply Forall_impl; [exact Hf|]. intros item (? & ? & Hn).
        split_and!; [done|by right|set_solver].
      * constructor; [|done]. rewrite list_elem_of_fmap.
        intros (item & Hu & Hitem). rewrite Forall_forall in Hf.
        destruct (Hf item Hitem) as (_ & _ & Hn). rewrite <- Hu in Hn. set_solver.
Qed.

(** X7. When the [while] loop of [scrapeWebsite] starts, [seen] is the set of
    the URLs of the categories, the queue holds each of these URLs exactly
    once, every queue entry has depth 0 and carries a category that has its
    URL, and nothing has been processed. *)
Theorem seeds_cover_categories (w : W) :
  let st := scrapeWebsite_start config w in
  let categories :=
    JSObject.entries (extractCategories (targetUrl config) (domain config)) in
  seen st = list_to_set categories.*2 ∧
  list_to_set (q_url <$> queue st) = seen st ∧
  NoDup (q_url <$> queue st) ∧
  Forall (λ item, q_depth item = 0 ∧ (q_category item, q_url item) ∈ categories)
         (queue st) ∧
  processed st = 0 ∧ results st = [].
Proof.
  intros st categories. unfold st, scrapeWebsite_start. fold categories.
  set (st0 := {| seen := ∅; queue := []; processed := 0; results := [];
                 batches := 0; world := w;
                 log := [ECategories (targetUrl config)] |}).
  destruct (seed_effect categories st0) as (new & Hq & Hl & Hs & Hp & Hr & Hw & Hf & Hnd).
  cbn zeta in *. rewrite Hq, Hs, Hp, Hr. simpl.
  split_and!; try done.
  - set_solver.
  - apply set_eq. intros u. rewrite elem_of_union, !elem_of_list_to_set.
    split.
    + intros (item & -> & Hitem)%list_elem_of_fmap. right.
      rewrite Forall_forall in Hf. destruct (Hf item Hitem) as (_ & Hin & _).
      apply list_elem_of_fmap. by exists (q_category item, q_url item).
    + intros [?%elem_of_empty|Hu]; [done|].
      assert (Hseen : u ∈ seen (foldl seed st0 categories)).
      { rewrite Hs. apply elem_of_union. right. by apply elem_of_list_to_set. }
      pose proof (Inv_start config w) as Hinv.
      unfold scrapeWebsite_start in Hinv. fold categories in Hinv. fold st0 in Hinv.
      rewrite (inv_seen _ _ Hinv), elem_of_list_to_set in Hseen.
      rewrite Hl, enqueued_app, enqueued_enqueues in Hseen. simpl in Hseen.
      rewrite app_nil_r, fmap_reverse, elem_of_reverse in Hseen. done.
  - eapply Forall_impl; [exact Hf|]. by intros item (? & ? & _).
Qed.

(** What a run of offers logs. *)
Lemma offer_log d cat ls st :
  ∃ new, log (foldl (offer d cat) st ls) = (EEnqueue <$> new) ++ log st ∧
         Forall (λ item, q_category item = cat) new ∧
         results (foldl (offer d cat) st ls) = results st.
Proof.
  revert st. induction ls as [|l ls IH]; intros st; simpl.
  - by exists [].
  - destruct (IH (offer d cat st l)) as (new & Hl & Hc & Hr).
    unfold offer in *. case_decide.
    + by exists new.
    + exists (new ++ [{| q_url := l; q_depth := d + 1; q_category := cat |}]).
      simpl in *. rewrite Hl, fmap_app, <- app_assoc. split_and!; [done| |done].
      apply Forall_app. split; [done|]. by repeat constructor.
Qed.

(** What a task logs: queue entries of its own category, no fetch, no
    yield, and at least one progress event. *)
Lemma task_log item st :
  ∃ new, log (task onProgress config item st).1 = new ++ log st ∧
         fetched new = [] ∧ yielded new = [] ∧ 1 ≤ length (progressed new) ∧
         Forall (λ it, q_category it = q_category item) (enqueued new) ∧
         results (task onProgress config item st).1 = results st.
Proof.
  task_cases onProgress; simpl;
    try (eexists [_]; split; [done|]; split_and!; simpl;
         first [done|lia|constructor]);
    try (eexists [_; _]; split; [done|]; split_and!; simpl;
         first [done|lia|constructor]).
  match goal with |- context [foldl (offer ?d ?c) ?s ?l] =>
    destruct (offer_log d c l s) as (new & Hl & Hc & Hr) end.
  rewrite Hl, Hr. simpl. eexists (_ ++ [_]). rewrite <- app_assoc.
  split; [done|].
  rewrite fetched_app, yielded_app, progressed_app, enqueued_app,
    fetched_enqueues, yielded_enqueues, progressed_enqueues, enqueued_enqueues.
  simpl. by rewrite app_nil_r.
Qed.

Lemma tasks_log items st :
  ∃ new, log (foldl (λ s item, (task onProgress config item s).1) st items)
         = new ++ log st ∧
         fetched new = [] ∧ yielded new = [] ∧
         length items ≤ length (progressed new) ∧
         Forall (λ it, ∃ item, item ∈ items ∧ q_category it = q_category item)
                (enqueued new) ∧
         results (foldl (λ s item, (task onProgress config item s).1) st items)
         = results st.
Proof.
  revert st. induction items as [|item items IH]; intros st; simpl.
  - exists []. split_and!; first [done|constructor].
  - destruct (IH (task onProgress config item st).1)
      as (new & -> & Hf & Hy & Hp & Hc & ->).
    destruct (task_log item st) as (new0 & -> & Hf0 & Hy0 & Hp0 & Hc0 & ->).
    exists (new ++ new0).
    rewrite <- app_assoc, fetched_app, yielded_app, progressed_app, enqueued_app,
      Hf, Hf0, Hy, Hy0, length_app.
    split_and!; try done; [lia|].
    apply Forall_app. split.
    + eapply Forall_impl; [exact Hc|]. intros it (i & ? & ?). exists i.
      split; [by right|done].
    + eapply Forall_impl; [exact Hc0|]. intros it ?. exists item. split; [by left|done].
Qed.

(** What a turn of the loop logs and leaves in [results]. *)
Lemma run_batch_log st :
  let batch := take (maxWorkers config) (queue st) in
  ∃ new, log (run_batch onProgress config sched st).1
         = new ++ reverse (EFetch <$> batch) ++ log st ∧
         fetched new = [] ∧ yielded new = [] ∧
         length batch ≤ length (progressed new) ∧
         Forall (λ it, ∃ item, item ∈ batch ∧ q_category it = q_category item)
                (enqueued new) ∧
         ∀ page, Some page ∈ results (run_batch onProgress config sched st).1 →
           Some page ∈ results st ∨
           ∃ item, item ∈ batch ∧
             scrapePage (q_url item) (q_depth item) (domain config) (q_category item)
             = Some page.
Proof.
  intros batch.
  destruct (run_batch_state onProgress config sched st)
    as (st1 & fl & _ & _ & _ & Hr1 & _ & Hl1 & _ & Hst & Hres & ->).
  fold batch in Hst, Hl1, Hres.
  set (items := picked batch (arrange (sched (batches st)) (seq 0 (length batch)))) in *.
  destruct (tasks_log items st1) as (new & Hl & Hf & Hy & Hp & Hc & Hr).
  rewrite <- Hst, Hl1 in Hl. rewrite <- Hst, Hr1 in Hr.
  assert (Hperm : items ≡ₚ batch) by apply picked_arrange.
  exists new. split_and!; try done.
  - by destruct fl.2.
  - by rewrite <- Hperm.
  - eapply Forall_impl; [exact Hc|]. intros it (i & Hi & ?). exists i.
    by rewrite <- Hperm.
  - intros page. destruct fl.2; simpl; [rewrite Hr; by left|].
    intros Hpage. right. apply list_elem_of_lookup in Hpage as [i Hi].
    destruct (Forall2_lookup_l _ _ _ _ _ Hres Hi) as (item & Hitem & Hp').
    exists item. split; [by eapply list_elem_of_lookup_2|by apply Hp'].
Qed.

(** What a task logs, event by event: entries placed on the frontier, and
    progress under the URL of its queue entry, once at least. *)
Lemma task_events item st :
  ∃ new, log (task onProgress config item st).1 = new ++ log st ∧
         Forall (event_of item) new ∧ q_url item ∈ reported new.
Proof.
  task_cases onProgress; simpl;
    try (eexists [_]; split; [done|]; split; [by repeat constructor|by left]);
    try (eexists [_; _]; split; [done|]; split; [by repeat constructor|by left]).
  match goal with |- context [foldl (offer ?d ?c) ?s ?l] =>
    destruct (offer_log d c l s) as (new & Hl & _ & _) end.
  rewrite Hl. simpl. eexists (_ ++ [_]). rewrite <- app_assoc.
  split; [done|]. split.
  - apply Forall_app. split; [|by repeat constructor].
    apply Forall_fmap, Forall_forall. by intros.
  - rewrite reported_app. apply elem_of_app. right. by left.
Qed.

Lemma tasks_events items st :
  ∃ new, log (foldl (λ s item, (task onProgress config item s).1) st items)
         = new ++ log st ∧
         Forall (λ e, ∃ item, item ∈ items ∧ event_of item e) new ∧
         ∀ item, item ∈ items → q_url item ∈ reported new.
Proof.
  revert st. induction items as [|item items IH]; intros st; simpl.
  - exists []. split_and!; [done|constructor|by intros ? ?%elem_of_nil].
  - destruct (IH (task onProgress config item st).1) as (new & -> & He & Hr).
    destruct (task_events item st) as (new0 & -> & He0 & Hr0).
    exists (new ++ new0). rewrite <- app_assoc. split_and!; [done| |].
    + apply Forall_app. split.
      * eapply Forall_impl; [exact He|]. intros e (it & ? & ?). exists it.
        split; [by right|done].
      * eapply Forall_impl; [exact He0|]. intros e ?. exists item.
        split; [by left|done].
    + intros it. rewrite reported_app, elem_of_app.
      intros [->|?]%elem_of_cons; [by right|left; auto].
Qed.

(** What a turn of the loop logs, event by event. *)
Lemma run_batch_events st :
  let batch := take (maxWorkers config) (queue st) in
  ∃ new, log (run_batch onProgress config sched st).1
         = new ++ reverse (EFetch <$> batch) ++ log st ∧
         Forall (λ e, ∃ item, item ∈ batch ∧ event_of item e) new ∧
         ∀ item, item ∈ batch → q_url item ∈ reported new.
Proof.
  intros batch.
  destruct (run_batch_state onProgress config sched st)
    as (st1 & fl & _ & _ & _ & _ & _ & Hl1 & _ & Hst & _ & ->).
  fold batch in Hst, Hl1.
  set (items := picked batch (arrange (sched (batches st)) (seq 0 (length batch)))) in *.
  destruct (tasks_events items st1) as (new & Hl & He & Hr).
  rewrite <- Hst, Hl1 in Hl.
  assert (Hperm : items ≡ₚ batch) by apply picked_arrange.
  exists new. split_and!.
  - by destruct fl.2.
  - eapply Forall_impl; [exact He|]. intros e (it & Hit & ?). exists it.
    by rewrite <- Hperm.
  - intros item Hitem. apply Hr. by rewrite Hperm.
Qed.

(** The events of tasks are neither fetches nor yields. *)
Lemma events_quiet {A} (P : QueueItem → A → Prop) (x : A) new :
  Forall (λ e, ∃ item, P item x ∧ event_of item e) new →
  fetches new = [] ∧ fetched new = [] ∧ yielded new = [].
Proof.
  induction 1 as [|e new (item & _ & He) _ (IH1 & IH2 & IH3)]; [done|].
  destruct e; simpl in *; done.
Qed.

Lemma flight_gen_step st :
  flight_inv (maxWorkers config) (log st) →
  flight_inv (maxWorkers config) (log (gen_step onProgress config sched st).1).
Proof.
  intros Hinv. unfold gen_step.
  destruct (results st) as [|[page|] rest] eqn:Hres; simpl; [| |done].
  - destruct (queue st) eqn:Hq; [done|].
    destruct (run_batch_events st) as (new & Hl & He & Hr).
    destruct (events_quiet (λ item batch, item ∈ batch) _ _ He) as (_ & Hf & _).
    assert (Hgoal : flight_inv (maxWorkers config)
                      (log (run_batch onProgress config sched st).1)).
    { rewrite Hl, app_assoc. apply flight_extend; [done|..].
      - rewrite fetched_app, Hf, fetched_fetches. simpl.
        rewrite length_reverse, length_take. lia.
      - intros item. rewrite fetched_app, Hf, fetched_fetches. simpl.
        rewrite elem_of_reverse. intros Hitem.
        rewrite reported_app. apply elem_of_app. left. by apply Hr. }
    by destruct (run_batch onProgress config sched st) as [st' [e|]].
  - apply (flight_extend _ _ [EYield page]); [done|simpl; lia|].
    by intros ? ?%elem_of_nil.
Qed.

Lemma flight_reachable st :
  reachable onProgress config sched st → flight_inv (maxWorkers config) (log st).
Proof.
  induction 1 as [w|st _ IH|st w _ IH]; [|by apply flight_gen_step|done].
  unfold scrapeWebsite_start.
  match goal with |- context [foldl seed ?s ?es] =>
    destruct (seed_effect es s) as (new & _ & Hl & _) end.
  cbn zeta in Hl. rewrite Hl. apply flight_quiet.
  by rewrite fetched_app, fetched_enqueues.
Qed.

(** X8. At every moment of every run, whatever the callback does, the
    fetches in flight, those that [scrapePage] was called for and whose
    task has not reported yet, are at most [maxWorkers]. *)
Theorem fetches_in_flight st newer older :
  reachable onProgress config sched st → log st = newer ++ older →
  in_flight older ≤ maxWorkers config.
Proof. intros [_ Hs]%flight_reachable Heq. by eapply Hs. Qed.

Lemma categories_reachable st :
  reachable onProgress config sched st →
  (∀ item, item ∈ enqueued (log st) → q_category item ∈ category_names config) ∧
  (∀ page, Some page ∈ results st → category page ∈ category_names config) ∧
  (∀ page, page ∈ yielded (log st) → category page ∈ category_names config).
Proof.
  induction 1 as [w|st Hreach IH|st w _ IH]; [| |done].
  - unfold scrapeWebsite_start.
    match goal with |- context [foldl seed ?s ?es] =>
      destruct (seed_effect es s) as (new & _ & Hl & _ & _ & Hr & _ & Hf & _) end.
    cbn zeta in *. rewrite Hl, Hr, enqueued_app, yielded_app, enqueued_enqueues,
      yielded_enqueues. simpl. rewrite app_nil_r.
    split_and!; [|by intros ? ?%elem_of_nil..].
    intros item Hitem. rewrite elem_of_reverse in Hitem.
    rewrite Forall_forall in Hf.
    destruct (Hf item Hitem) as (_ & Hin & _).
    apply list_elem_of_fmap. by exists (q_category item, q_url item).
  - destruct IH as (He & Hr & Hy). pose proof (reachable_Inv _ _ _ _ Hreach) as Hinv.
    unfold gen_step. destruct (results st) as [|[page|] rest] eqn:Hres; simpl.
    + destruct (queue st) eqn:Hq; [simpl; rewrite Hres; split_and!; done|].
      destruct (run_batch_log st) as (new & Hl & Hf & Hyn & _ & Hc & Hpages).
      assert (Hbatch : ∀ item, item ∈ take (maxWorkers config) (queue st) →
                q_category item ∈ category_names config).
      { intros item Hitem. apply He. rewrite <- (Inv_queue_perm _ _ Hinv).
        apply elem_of_app. left. eapply subseteq_take. exact Hitem. }
      assert (Hgoal : let st' := (run_batch onProgress config sched st).1 in
        (∀ item, item ∈ enqueued (log st') → q_category item ∈ category_names config) ∧
        (∀ page, Some page ∈ results st' → category page ∈ category_names config) ∧
        (∀ page, page ∈ yielded (log st') → category page ∈ category_names config)).
      { cbn zeta. rewrite Hl, !enqueued_app, !yielded_app, enqueued_fetches,
          yielded_fetches, Hyn. simpl. split_and!; [| |done].
        - intros item [Hnew|?]%elem_of_app; [|auto].
          rewrite Forall_forall in Hc. destruct (Hc item Hnew) as (it & Hit & ->).
          auto.
        - intros page [Hold|(item & Hitem & Hp)]%Hpages; [rewrite Hres in Hold;
            by apply elem_of_nil in Hold|].
          destruct (scrapePage_fields _ _ _ _ _ Hp) as (_ & _ & ->). auto. }
      by destruct (run_batch onProgress config sched st) as [st' [e|]].
    + split_and!; [done| |].
      * intros p Hp. apply Hr. by right.
      * intros p [->|?]%elem_of_cons; [|auto]. apply Hr. by left.
    + split_and!; [done| |done]. intros p Hp. apply Hr. by right.
Qed.

(** X9. In every run the category of every queue entry, of every fetch and of
    every page yielded is the name of one of the categories that
    [extractCategories] returned: a link inherits the category of the page
    it was found on. *)
Theorem categories_inherited st :
  reachable onProgress config sched st →
  (∀ item, EEnqueue item ∈ log st → q_category item ∈ category_names config) ∧
  (∀ item, EFetch item ∈ log st → q_category item ∈ category_names config) ∧
  (∀ page, EYield page ∈ log st → category page ∈ category_names config).
Proof.
  intros Hreach. destruct (categories_reachable st Hreach) as (He & _ & Hy).
  pose proof (reachable_Inv _ _ _ _ Hreach) as Hinv.
  split_and!.
  - intros item ?%elem_of_enqueued. auto.
  - intros item Hitem%elem_of_fetched. apply He.
    rewrite <- (Inv_queue_perm _ _ Hinv). apply elem_of_app. by right.
  - intros page ?%elem_of_yielded. auto.
Qed.

End Trace.

(** ** The fetches of a run *)

Lemma fetches_app l1 l2 : fetches (l1 ++ l2) = fetches l1 ++ fetches l2.
Proof. apply omap_app. Qed.

Lemma fetches_fetches batch :
  fetches (reverse (EFetch <$> batch)) = q_url <$> reverse batch.
Proof.
  induction batch as [|item batch IH]; [done|].
  csimpl. rewrite !reverse_cons, fetches_app, fmap_app, IH. done.
Qed.

Lemma fetches_enqueues items : fetches (EEnqueue <$> items) = [].
Proof. by induction items. Qed.

Section Fetches.
Context `{Platform}.
Context {W : Type} (onProgress : Progress → W → W * option Thrown).
Context (config : ScrapingConfig) (sched : nat → list nat).

Implicit Type st : Crawl W.

(** The fetches of a run are the one of [extractCategories], on the seed
    URL, and then those of the queue entries. *)
Lemma fetches_reachable st :
  reachable onProgress config sched st →
  fetches (log st) = (q_url <$> fetched (log st)) ++ [targetUrl config].
Proof.
  induction 1 as [w|st _ IH|st w _ IH]; [| |done].
  - unfold scrapeWebsite_start.
    match goal with |- context [foldl seed ?s ?es] =>
      destruct (seed_effect es s) as (new & _ & Hl & _) end.
    cbn zeta in Hl. rewrite Hl.
    by rewrite fetches_app, fetched_app, fetches_enqueues, fetched_enqueues.
  - unfold gen_step. destruct (results st) as [|[page|] rest] eqn:Hres; simpl;
      [|done..].
    destruct (queue st) eqn:Hq; [done|].
    destruct (run_batch_events onProgress config sched st) as (new & Hl & He & _).
    destruct (events_quiet (λ item batch, item ∈ batch) _ _ He) as (Hfs & Hf & _).
    assert (Hgoal : fetches (log (run_batch onProgress config sched st).1)
              = (q_url <$> fetched (log (run_batch onProgress config sched st).1))
                ++ [targetUrl config]).
    { rewrite Hl, !fetches_app, !fetched_app, Hfs, Hf, fetches_fetches,
        fetched_fetches, IH. simpl. by rewrite fmap_app, <- app_assoc. }
    by destruct (run_batch onProgress config sched st) as [st' [e|]].
Qed.

(** C2, amended. In every run the fetches are the fetch of the seed URL by
    [extractCategories] followed by the fetches of the queue entries, and no
    URL is fetched twice as a queue entry: apart from the seed URL, which
    [extractCategories] fetches without making it visited, no URL is fetched
    twice, whatever the link graph. No URL is placed on the frontier twice;
    the visited set is, at every moment, the set of the URLs placed on the
    frontier so far, each added when it was placed; seeding or offering a
    URL that is in the visited set changes nothing. *)
Theorem no_url_fetched_twice st :
  reachable onProgress config sched st →
  reverse (fetches (log st))
  = targetUrl config :: (q_url <$> reverse (fetched (log st))) ∧
  NoDup (q_url <$> fetched (log st)) ∧
  NoDup (filter (λ u, u ≠ targetUrl config) (fetches (log st))) ∧
  NoDup (q_url <$> enqueued (log st)) ∧
  seen st = list_to_set (q_url <$> enqueued (log st)) ∧
  (∀ st0 entry, entry.2 ∈ seen st0 → seed st0 entry = st0) ∧
  (∀ d cat st0 link, link ∈ seen st0 → offer d cat st0 link = st0).
Proof.
  intros Hreach. pose proof (reachable_Inv _ _ _ _ Hreach) as Hinv.
  pose proof (Inv_queue_perm _ _ Hinv) as Hperm.
  pose proof (fetches_reachable st Hreach) as Hfetches.
  assert (Hnd : NoDup (q_url <$> fetched (log st))).
  { assert (Hall : NoDup (q_url <$> (queue st ++ fetched (log st)))).
    { rewrite Hperm. by destruct Hinv. }
    rewrite fmap_app in Hall. by apply NoDup_app in Hall as (_ & _ & ?). }
  destruct Hinv. split_and!; try done.
  - rewrite Hfetches, reverse_app, fmap_reverse. done.
  - rewrite Hfetches, filter_app, filter_cons_False by (intros Hn; by apply Hn).
    rewrite filter_nil, app_nil_r. by apply NoDup_filter.
  - intros st0 entry Hin. unfold seed. by case_decide.
  - intros d cat st0 link Hin. unfold offer. by case_decide.
Qed.

End Fetches.

(** ** More on the scraping job: the pages saved, the last message *)

Lemma omap_id_fmap {A B} (f : A → option B) (l : list A) :
  omap id (f <$> l) = omap f l.
Proof. induction l as [|x l IH]; [done|]. csimpl. by rewrite IH. Qed.

Lemma omap_length_filter {A B} (f : A → option B) (P : A → Prop)
    `{∀ x, Decision (P x)} (l : list A) :
  (∀ x, P x ↔ f x = None) →
  length (omap f l) + length (filter P l) = length l.
Proof.
  intros HP. induction l as [|x l IH]; [done|]. rewrite filter_cons. csimpl.
  destruct (f x) eqn:Hx.
  - rewrite decide_False by (rewrite HP; congruence). simpl. lia.
  - rewrite decide_True by (by rewrite HP). simpl. lia.
Qed.

Lemma omap_reverse {A B} (f : A → option B) (l : list A) :
  omap f (reverse l) = reverse (omap f l).
Proof.
  induction l as [|x l IH]; [done|].
  rewrite reverse_cons, omap_app, IH. csimpl.
  destruct (f x); simpl; [by rewrite reverse_cons|by rewrite app_nil_r].
Qed.

Section JobMore.
Context `{Platform}.
Context (config : ScrapingConfig) (sched : nat → list nat).
Context (process : ScrapedPage → option Thrown).

Implicit Type st : Crawl Job.
Local Abbreviation scrape_item := (scrape_item config).
Local Abbreviation settled := (settled config).

Lemma settled_length batch res order :
  length (settled batch res order) = length res.
Proof.
  revert res. induction order as [|i order IH]; intros res; [done|].
  unfold settled in *. cbn [foldl]. rewrite IH.
  destruct (batch !! i); [apply length_insert|done].
Qed.

Lemma settled_lookup batch res order i :
  length res = length batch →
  settled batch res order !! i
  = if decide (i ∈ order) then (scrape_item <$> batch) !! i else res !! i.
Proof.
  revert res. induction order as [|j order IH]; intros res Hlen.
  - rewrite decide_False; [done|]. by intros ?%elem_of_nil.
  - unfold settled in *. cbn [foldl]. rewrite IH.
    2:{ destruct (batch !! j); [by rewrite length_insert|done]. }
    destruct (decide (i ∈ order)) as [Hin|Hin].
    { rewrite decide_True; [done|by right]. }
    destruct (decide (i = j)) as [->|Hne].
    + rewrite decide_True by (by left). rewrite list_lookup_fmap.
      destruct (batch !! j) as [item|] eqn:Hj; simpl.
      * apply list_lookup_insert_eq. rewrite Hlen. by eapply lookup_lt_Some.
      * apply lookup_ge_None. rewrite Hlen. by apply lookup_ge_None.
    + rewrite decide_False by (intros [?|?]%elem_of_cons; done).
      destruct (batch !! j); [by apply list_lookup_insert_ne|done].
Qed.

Lemma settled_all batch res order :
  length res = length batch → order ≡ₚ seq 0 (length batch) →
  settled batch res order = scrape_item <$> batch.
Proof.
  intros Hlen Hperm. apply list_eq. intros i.
  rewrite settled_lookup by done.
  destruct (decide (i ∈ order)) as [Hin|Hin]; [done|].
  rewrite Hperm, elem_of_seq in Hin.
  rewrite list_lookup_fmap.
  assert (length batch ≤ i) as Hi by lia.
  rewrite (proj2 (lookup_ge_None _ _)) by lia.
  by rewrite (proj2 (lookup_ge_None batch i)).
Qed.

Lemma job_settle_results batch order (fl : @InFlight Job) :
  (foldl (settle job_onProgress config batch) fl order).1.2
  = settled batch fl.1.2 order.
Proof.
  revert fl. induction order as [|i order IH]; intros fl; [done|].
  unfold settled in *. cbn [foldl]. rewrite IH.
  destruct fl as [[st res] rejected]. unfold settle.
  destruct (batch !! i) as [item|]; [|done].
  destruct (job_task_effect config item st) as (_ & _ & _ & _ & _ & Hr).
  destruct (task job_onProgress config item st) as [st' [r|e]]; [|done].
  simpl in *. by simplify_eq.
Qed.

(** In the job the array of results of a batch holds, place by place, what
    [scrapePage] returned for the queue entries of the batch. *)
Lemma job_batch_results st :
  results (run_batch job_onProgress config sched st).1
  = scrape_item <$> take (maxWorkers config) (queue st).
Proof.
  destruct (run_batch_state job_onProgress config sched st)
    as (st1 & fl & _ & _ & _ & _ & _ & _ & Hfl & _ & _ & ->).
  assert (Hrej : fl.2 = None) by (by rewrite Hfl, job_never_rejects).
  rewrite Hrej. simpl. rewrite Hfl, job_settle_results. simpl.
  apply settled_all; [by rewrite length_replicate|apply arrange_perm].
Qed.

Lemma job_tasks_broadcasts items st :
  Forall (λ m, terminal m = false) (broadcasts (world st)) →
  Forall (λ m, terminal m = false)
    (broadcasts (world (foldl (λ s item, (task job_onProgress config item s).1)
                              st items))).
Proof.
  revert st. induction items as [|item items IH]; intros st Hst; [done|].
  cbn [foldl]. apply IH.
  destruct (job_task_effect config item st) as (_ & _ & _ & _ & -> & _).
  simpl. by constructor.
Qed.

Lemma job_batch_broadcasts st :
  Forall (λ m, terminal m = false) (broadcasts (world st)) →
  Forall (λ m, terminal m = false)
    (broadcasts (world (run_batch job_onProgress config sched st).1)).
Proof.
  intros Hst.
  destruct (run_batch_state job_onProgress config sched st)
    as (st1 & fl & _ & _ & _ & _ & Hw1 & _ & _ & Hfl & _ & ->).
  rewrite <- Hw1 in Hst.
  assert (Hb : Forall (λ m, terminal m = false) (broadcasts (world fl.1.1))).
  { rewrite Hfl. by apply job_tasks_broadcasts. }
  by destruct fl.2.
Qed.

Lemma one_end_step r :
  RInv config process r → one_end r → one_end (job_step config sched process r).
Proof.
  intros [_ _ _ _ _ _ _ (pr & Hpr & _)] Hone.
  unfold job_step. destruct (ended r) eqn:Hend; [done|].
  unfold one_end in Hone. rewrite Hend in Hone.
  unfold gen_step. destruct (results (crawl r)) as [|[page|] rest] eqn:Hres.
  - destruct (queue (crawl r)) as [|item q] eqn:Hq.
    + unfold one_end. simpl. eexists _, _. split_and!; [done..|].
      rewrite Hpr. done.
    + pose proof (job_batch_broadcasts (crawl r) Hone) as Hb.
      destruct (run_batch job_onProgress config sched (crawl r)) as [st' [e|]];
        unfold one_end; simpl in *; [|done].
      eexists _, _. split_and!; [done..|].
      split; [done|]. by destruct (project (world st')).
  - unfold consume. simpl. destruct (process page) as [e|]; unfold one_end; simpl.
    + eexists _, _. split_and!; [done..|].
      split; [done|]. by destruct (project (world (crawl r))).
    + by constructor.
  - done.
Qed.

Lemma one_end_run n : one_end (job_run config sched process n).
Proof.
  induction n as [|n IH].
  - unfold one_end, job_run, run_start. simpl.
    destruct (RInv_start config process) as [_ _ _ _ _ Hdoc _ _].
    unfold scrapeWebsite_start.
    match goal with |- context [foldl seed ?s ?es] =>
      destruct (seed_effect es s) as (new & _ & _ & _ & _ & _ & -> & _) end.
    simpl. constructor.
  - apply one_end_step; [apply RInv_run|done].
Qed.

(** X10. While the job runs it has sent neither [scraping_completed] nor
    [scraping_error]; once it has ended it has sent exactly one of them,
    as its last message, and that message is [scraping_completed] exactly
    when the project is marked completed. *)
Theorem one_terminal_message n :
  let r := job_run config sched process n in
  let sent := broadcasts (world (crawl r)) in
  (ended r = false → Forall (λ m, terminal m = false) sent) ∧
  (ended r = true →
   ∃ m rest, sent = m :: rest ∧ terminal m = true ∧
     Forall (λ m', terminal m' = false) rest ∧
     (m = scraping_completed ↔
      project_status <$> project (world (crawl r)) = Some completed)).
Proof.
  intros r sent. pose proof (one_end_run n) as Hone. fold r in Hone.
  unfold one_end in Hone. fold sent in Hone.
  destruct (ended r); split; done.
Qed.

(** The pages yielded and the pages still to yield are the pages of the
    fetches that succeeded, in the order of the fetches. *)
Lemma pages_step r :
  RInv config process r →
  (let st := crawl r in
   reverse (yielded (log st)) ++ omap id (results st)
   = omap scrape_item (reverse (fetched (log st)))) →
  let st := crawl (job_step config sched process r) in
  reverse (yielded (log st)) ++ omap id (results st)
  = omap scrape_item (reverse (fetched (log st))).
Proof.
  intros [_ Hj Hbal _ _ _ _ _] Hpages. cbn zeta in *.
  unfold job_step. destruct (ended r) eqn:Hend; [done|].
  unfold gen_step. destruct (results (crawl r)) as [|[page|] rest] eqn:Hres.
  - destruct (queue (crawl r)) as [|item q] eqn:Hq; [simpl; by rewrite Hres|].
    destruct (job_run_batch config sched (crawl r) Hj Hbal Hres)
      as (st' & Hrb & _ & _ & Hf' & Hy' & _).
    pose proof (job_batch_results (crawl r)) as Hr'.
    rewrite Hrb in *. simpl in *.
    rewrite Hy', Hf', Hr', omap_id_fmap, reverse_app, reverse_involutive, omap_app.
    rewrite app_nil_r in Hpages. by rewrite Hpages.
  - unfold consume. csimpl in *.
    destruct (process page); csimpl;
      by rewrite reverse_cons, <- app_assoc.
  - done.
Qed.

Lemma pages_run n :
  let st := crawl (job_run config sched process n) in
  reverse (yielded (log st)) ++ omap id (results st)
  = omap scrape_item (reverse (fetched (log st))).
Proof.
  induction n as [|n IH].
  - cbn zeta. unfold job_run, run_start. simpl. unfold scrapeWebsite_start.
    match goal with |- context [foldl seed ?s ?es] =>
      destruct (seed_effect es s) as (new & _ & -> & _ & _ & -> & _) end.
    simpl. by rewrite yielded_app, fetched_app, yielded_enqueues, fetched_enqueues.
  - apply pages_step; [apply RInv_run|done].
Qed.

(** X11. Throughout the job, the documents saved followed by the pages that
    wait to be yielded are the pages of the fetches that succeeded, each
    one once and in the order of the fetches; so when the project is marked
    completed the documents are exactly these pages, and [successfulUrls]
    is their number. *)
Theorem saved_pages_are_the_successful_fetches n :
  let st := crawl (job_run config sched process n) in
  documents (world st) ++ omap id (results st)
  = omap scrape_item (reverse (fetched (log st))) ∧
  ∀ pr, project (world st) = Some pr → project_status pr = completed →
    documents (world st) = omap scrape_item (reverse (fetched (log st))) ∧
    successfulUrls pr = length (documents (world st)).
Proof.
  cbn zeta. pose proof (pages_run n) as Hpages. cbn zeta in Hpages.
  destruct (RInv_run config sched process n)
    as [_ Hj Hbal _ Hfail Hdoc _ (pr & Hpr & Hst)].
  set (st := crawl (job_run config sched process n)) in *.
  rewrite Hdoc. split; [done|].
  intros pr' Hpr' Hcompleted. rewrite Hpr in Hpr'. injection Hpr' as <-.
  rewrite Hcompleted in Hst. destruct Hst as (_ & _ & Hres & _).
  rewrite Hres, app_nil_r in Hpages. split; [done|].
  destruct Hj as [Hp _ Hc Hs He [s Hs'] _ _].
  rewrite Hs' in Hpr. injection Hpr as <-. simpl.
  pose proof (status_partition (progressed (log st))) as Hpart.
  pose proof (omap_length_filter scrape_item (fetch_fails config)
                (fetched (log st)) (λ _, reflexivity _)) as Hlen.
  rewrite Hpages, omap_reverse, !length_reverse.
  unfold balanced in Hbal. lia.
Qed.

(** X12. When [extractCategories] finds no category (the base URL cannot be
    fetched, say), the job ends at once: nothing is fetched, the counters
    stay at zero, and the project is marked completed. *)
Theorem empty_frontier_completes :
  extractCategories (targetUrl config) (domain config) = [] →
  let r := job_run config sched process 1 in
  ended r = true ∧ log (crawl r) = [ECategories (targetUrl config)] ∧
  world (crawl r) = set_status completed scraping_completed job_start.
Proof.
  intros Hempty. unfold job_run, run_start, scrapeWebsite_start.
  rewrite Hempty. done.
Qed.

End JobMore.

(** ** The end of the job: no failure stops the crawl *)

Lemma offer_seen {W} d cat ls (st : Crawl W) :
  seen (foldl (offer d cat) st ls) = seen st ∪ list_to_set ls.
Proof.
  revert st. induction ls as [|l ls IH]; intros st; simpl; [set_solver|].
  rewrite IH. unfold offer. case_decide; simpl; set_solver.
Qed.

Section JobEnd.
Context `{Platform}.
Context (config : ScrapingConfig) (sched : nat → list nat).
Context (process : ScrapedPage → option Thrown).

Implicit Type st : Crawl Job.
Local Abbreviation scrape_item := (scrape_item config).
Local Abbreviation fetch_fails := (fetch_fails config).
Local Abbreviation covered := (covered config).

(** In the job the task of a page fetched below the depth limit puts every
    link of the page into the visited set. *)
Lemma job_task_seen item st :
  seen st ⊆ seen (task job_onProgress config item st).1 ∧
  ∀ page link, scrape_item item = Some page →
    (inject_Z (Z.of_nat (q_depth item)) < maxDepth config)%Q →
    link ∈ links page → link ∈ seen (task job_onProgress config item st).1.
Proof.
  unfold task, task_try, report. unfold scrape_item.
  destruct (scrapePage _ _ _ _) as [result|]; cbn -[offer Qlt_le_dec];
    [|split; [done|by intros]].
  destruct (Qlt_le_dec _ (maxDepth config)) as [Hlt|Hge]; cbn -[offer].
  - rewrite offer_seen. simpl. split; [set_solver|].
    intros page link [= <-] _ Hl. set_solver.
  - split; [done|]. intros page link _ Hlt. by apply Qlt_not_le in Hlt.
Qed.

Lemma job_tasks_seen items st :
  let st' := foldl (λ s item, (task job_onProgress config item s).1) st items in
  seen st ⊆ seen st' ∧
  ∀ item page link, item ∈ items → scrape_item item = Some page →
    (inject_Z (Z.of_nat (q_depth item)) < maxDepth config)%Q →
    link ∈ links page → link ∈ seen st'.
Proof.
  revert st. induction items as [|item items IH]; intros st; simpl.
  { split; [done|]. by intros ? ? ? ?%elem_of_nil. }
  destruct (IH (task job_onProgress config item st).1) as [Hsub Hlinks].
  destruct (job_task_seen item st) as [Hsub0 Hlinks0].
  split; [set_solver|].
  intros it page link [->|Hit]%elem_of_cons Hp Hd Hl; [|by eapply Hlinks].
  apply Hsub. by eapply Hlinks0.
Qed.

Lemma covered_ghost st st' :
  seen st ⊆ seen st' → fetched (log st') = fetched (log st) →
  covered st → covered st'.
Proof.
  intros Hs Hf [Hcat Hlinks]. split.
  - intros kv Hkv. by apply Hs, Hcat.
  - intros item page link. rewrite Hf. intros. by eapply Hs, Hlinks.
Qed.

(** Between any two steps of the job, nothing that was found has been left
    out. *)
Lemma job_covered n : covered (crawl (job_run config sched process n)).
Proof.
  induction n as [|n IH].
  - unfold job_run, run_start, scrapeWebsite_start. simpl.
    match goal with |- context [foldl seed ?s ?es] =>
      destruct (seed_effect es s) as (new & _ & Hl & Hs & _) end.
    cbn zeta in *. split.
    + intros kv Hkv. rewrite Hs. apply elem_of_union. right.
      apply elem_of_list_to_set, list_elem_of_fmap. by exists kv.
    + intros item page link. rewrite Hl, fetched_app, fetched_enqueues.
      by intros ?%elem_of_nil.
  - unfold job_run in *. simpl. set (r := Nat.iter n _ _) in *.
    unfold job_step. destruct (ended r); [done|].
    unfold gen_step. destruct (results (crawl r)) as [|[page|] rest] eqn:Hres.
    + destruct (queue (crawl r)) as [|item q] eqn:Hq.
      { by apply (covered_ghost (crawl r)). }
      destruct (run_batch_state job_onProgress config sched (crawl r))
        as (st1 & fl & Hs1 & _ & _ & _ & _ & Hl1 & Hfl & Hst & _ & Hrun).
      set (batch := take (maxWorkers config) (queue (crawl r))) in *.
      set (items := picked batch
             (arrange (sched (batches (crawl r))) (seq 0 (length batch)))) in *.
      assert (Hrej : fl.2 = None) by (by rewrite Hfl, job_never_rejects).
      rewrite Hrej in Hrun. rewrite Hrun. cbn [fst snd crawl].
      destruct (job_tasks_seen items st1) as [Hsub Hlinks].
      destruct (tasks_log job_onProgress config items st1)
        as (new & Hl & Hf & _).
      cbn zeta in *. rewrite <- Hst in *.
      assert (Hperm : items ≡ₚ batch) by apply picked_arrange.
      destruct IH as [Hcat Hold]. split; simpl.
      * intros kv Hkv. apply Hsub. rewrite Hs1. by apply Hcat.
      * intros it page link. rewrite Hl, Hl1, !fetched_app, Hf, fetched_fetches.
        simpl. rewrite elem_of_app, elem_of_reverse.
        intros [Hit|Hit] Hp Hd Hlink.
        -- eapply Hlinks; [|done..]. by rewrite Hperm.
        -- apply Hsub. rewrite Hs1. by eapply Hold.
    + destruct (consume process page _) as [j [e|]];
        by apply (covered_ghost (crawl r)).
    + by apply (covered_ghost (crawl r)).
Qed.

(** C7. Whatever the fetches do, the job ends. At its end the project
    counts as failed exactly the queue entries whose [scrapePage] failed,
    and its status is [completed], unless the body of the [for await] loop
    threw on a page that was yielded; in particular it is [completed] when
    every fetch failed. No failure stops the crawl: when the job has
    completed, the queue is empty, every queue entry ever placed on the
    frontier has been fetched, and these are the URL of every category and
    every link of every page that was fetched below the depth limit. *)
Theorem job_completes :
  1 ≤ maxWorkers config →
  ∃ n pr, let r := job_run config sched process n in
    ended r = true ∧ project (world (crawl r)) = Some pr ∧
    processedUrls pr = length (fetched (log (crawl r))) ∧
    failedUrls pr = length (filter fetch_fails (fetched (log (crawl r)))) ∧
    (project_status pr = completed ∨
     project_status pr = failed ∧
       ∃ page, EYield page ∈ log (crawl r) ∧ is_Some (process page)) ∧
    ((∀ page, EYield page ∈ log (crawl r) → process page = None) →
     project_status pr = completed) ∧
    ((∀ item, EFetch item ∈ log (crawl r) → fetch_fails item) →
     project_status pr = completed ∧ failedUrls pr = processedUrls pr) ∧
    (project_status pr = completed →
     queue (crawl r) = [] ∧ results (crawl r) = [] ∧
     fetched (log (crawl r)) = enqueued (log (crawl r)) ∧
     (∀ kv, kv ∈ JSObject.entries
                   (extractCategories (targetUrl config) (domain config)) →
        kv.2 ∈ q_url <$> fetched (log (crawl r))) ∧
     (∀ item page link, EFetch item ∈ log (crawl r) →
        scrape_item item = Some page →
        (inject_Z (Z.of_nat (q_depth item)) < maxDepth config)%Q →
        link ∈ links page → link ∈ q_url <$> fetched (log (crawl r)))).
Proof.
  intros Hmw.
  exists (S (fuel_left config (crawl (run_start config)))).
  pose proof (job_ends config sched process
                (S (fuel_left config (crawl (run_start config))))
                (run_start config) (RInv_start config process) Hmw
                (Nat.lt_succ_diag_r _)) as Hend.
  fold (job_run config sched process (S (fuel_left config (crawl (run_start config)))))
    in Hend.
  pose proof (job_covered (S (fuel_left config (crawl (run_start config)))))
    as [Hcat Hlinks].
  destruct (RInv_run config sched process
              (S (fuel_left config (crawl (run_start config)))))
    as [Hinv Hj Hbal _ Hfail _ Hpages (pr & Hpr & Hst)].
  set (r := job_run config sched process _) in *.
  destruct Hj as [Hp _ Hc _ _ [s Hs] _ _].
  exists pr. cbn zeta. rewrite Hs in Hpr. injection Hpr as <-. simpl in *.
  assert (Hcases : s = completed ∨
            s = failed ∧ ∃ page, EYield page ∈ log (crawl r) ∧ is_Some (process page)).
  { destruct s; [done| |by left|right; by destruct Hst].
    destruct Hst as [Hst _]. congruence. }
  assert (Hlen : processedCount (world (crawl r)) = length (fetched (log (crawl r)))).
  { by rewrite Hc, Hp. }
  split_and!; try done.
  - intros Hok. destruct Hcases as [?|(_ & page & Hy & [e He])]; [done|].
    rewrite (Hok page Hy) in He. done.
  - intros Hall.
    assert (Hnone : ∀ page, ¬ EYield page ∈ log (crawl r)).
    { intros page Hy. destruct (Hpages page) as (item & Hit & Hsp); [by left|].
      specialize (Hall item Hit). unfold fetch_fails in Hall. congruence. }
    split.
    + destruct Hcases as [?|(_ & page & Hy & _)]; [done|]. by destruct (Hnone page).
    + rewrite Hfail, Hlen. f_equal. apply filter_all.
      intros item Hit%elem_of_fetched. auto.
  - intros ->. destruct Hst as (_ & Hq & Hr & _).
    assert (Hsame : fetched (log (crawl r)) = enqueued (log (crawl r))).
    { apply (inj reverse). rewrite (inv_queue _ _ Hinv), Hq. by rewrite app_nil_r. }
    assert (Hseen : ∀ u, u ∈ seen (crawl r) → u ∈ q_url <$> fetched (log (crawl r))).
    { intros u. rewrite (inv_seen _ _ Hinv), elem_of_list_to_set. by rewrite Hsame. }
    split_and!; [done..| |].
    + intros kv Hkv. by apply Hseen, Hcat.
    + intros item page link Hit%elem_of_fetched Hpage Hd Hl.
      by eapply Hseen, Hlinks.
Qed.

End JobEnd.



(** ** [GraphBuilderService] *)

Section GraphFacts.
Import GraphBuilder.
Context `{JS.Casing}.

(** *** [Map] objects *)

Lemma JSMap_get_set {V} k k' (v : V) m :
  JSMap.get k' (JSMap.set k v m) = if decide (k = k') then Some v else JSMap.get k' m.
Proof.
  induction m as [|[k0 v0] m IH]; simpl.
  - by destruct (decide (k = k')).
  - destruct (decide (k0 = k)) as [->|Hk0]; simpl.
    + by destruct (decide (k = k')).
    + rewrite IH. destruct (decide (k0 = k')) as [->|]; [|done].
      by rewrite decide_False.
Qed.

Lemma JSMap_set_keys {V} k (v : V) m :
  (JSMap.set k v m).*1 = if decide (k ∈ m.*1) then m.*1 else m.*1 ++ [k].
Proof.
  induction m as [|[k' v'] m IH]; [done|].
  cbn [JSMap.set]. rewrite fmap_cons. cbn [fst].
  destruct (decide (k' = k)) as [->|Hk].
  - rewrite decide_True; [done|by left].
  - rewrite fmap_cons, IH. cbn [fst].
    destruct (decide (k ∈ m.*1)) as [Hin|Hin].
    + rewrite decide_True; [done|by right].
    + rewrite decide_False; [done|].
      intros [?|?]%elem_of_cons; by simplify_eq.
Qed.

Lemma JSMap_set_NoDup {V} k (v : V) m : NoDup m.*1 → NoDup (JSMap.set k v m).*1.
Proof.
  intros Hnd. rewrite JSMap_set_keys. case_decide; [done|].
  apply NoDup_app. split_and!; [done| |apply NoDup_singleton].
  intros x Hx ->%list_elem_of_singleton. done.
Qed.

Lemma JSMap_set_elem {V} k (v : V) m kv :
  kv ∈ JSMap.set k v m → kv = (k, v) ∨ kv ∈ m.
Proof.
  induction m as [|[k' v'] m IH]; simpl.
  - intros ->%list_elem_of_singleton. by left.
  - case_decide.
    + intros [->|?]%elem_of_cons; [by left|]. right. by right.
    + intros [->|Hkv]%elem_of_cons; [right; by left|].
      destruct (IH Hkv) as [?|?]; [by left|]. right. by right.
Qed.

Lemma JSMap_get_elem {V} k (v : V) m : JSMap.get k m = Some v → (k, v) ∈ m.
Proof.
  induction m as [|[k' v'] m IH]; simpl; [done|].
  case_decide; [intros [= <-]; subst; by left|]. right. auto.
Qed.

Lemma JSMap_get_remove {V} k k' (m : JSMap.t V) :
  JSMap.get k' (JSMap.remove k m)
  = if decide (k = k') then None else JSMap.get k' m.
Proof.
  unfold JSMap.remove, JSMap.t in *. induction m as [|[k0 v0] m IH].
  - by case_decide.
  - rewrite filter_cons. cbn [fst].
    destruct (decide (k0 ≠ k)) as [Hk|Hk]; cbn [JSMap.get]; rewrite IH.
    + destruct (decide (k0 = k')) as [->|]; [|done]. by rewrite decide_False.
    + apply dec_stable in Hk. subst k0.
      destruct (decide (k = k')); [done|]. done.
Qed.

Lemma JSMap_get_None {V} k (m : JSMap.t V) : JSMap.get k m = None ↔ k ∉ m.*1.
Proof.
  induction m as [|[k' v'] m IH]; simpl.
  - split; [intros _ ?%elem_of_nil|]; done.
  - rewrite not_elem_of_cons. case_decide; [|naive_solver].
    split; [done|]. by intros [? _].
Qed.

(** *** [sanitizeLabel] *)

Lemma bytes_app (a b : string) :
  String.list_ascii_of_string (a +:+ b)
  = String.list_ascii_of_string a ++ String.list_ascii_of_string b.
Proof.
  induction a as [|c a IH]; [done|]. rewrite string_app_cons. simpl. by rewrite IH.
Qed.

Lemma length_app_string (a b : string) :
  String.length (a +:+ b) = String.length a + String.length b.
Proof.
  induction a as [|c a IH]; [done|]. rewrite string_app_cons. simpl. by rewrite IH.
Qed.

Lemma units_app (a b : string) : JS.length (a +:+ b) = JS.length a + JS.length b.
Proof.
  induction a as [|c a IH]; [done|]. rewrite string_app_cons. simpl.
  rewrite IH. lia.
Qed.

(** A letter, a digit and the underscore are one code unit each. *)
Lemma label_char_unit c : label_char c = true → JS.units c = 1.
Proof. destruct c as [[] [] [] [] [] [] [] []]; by vm_compute. Qed.

Lemma underscores_spec n :
  plain_label (underscores n) ∧ String.length (underscores n) = n ∧
  JS.length (underscores n) = n.
Proof.
  unfold plain_label. induction n as [|n (IH1 & IH2 & IH3)]; simpl.
  - split_and!; [constructor|done..].
  - split_and!; [by constructor|by rewrite IH2|].
    change (JS.units "_") with 1. by rewrite IH3.
Qed.

Lemma sanitizeLabel_chars label : plain_label (sanitizeLabel label).
Proof.
  unfold plain_label. induction label as [|c label IH]; simpl; [constructor|].
  rewrite bytes_app. apply Forall_app. split; [|done].
  destruct (label_char c) eqn:Hc; [by repeat constructor|].
  apply underscores_spec.
Qed.

Lemma sanitizeLabel_id label : plain_label label → sanitizeLabel label = label.
Proof.
  unfold plain_label. induction label as [|c label IH]; simpl; [done|].
  intros [Hc Hn]%Forall_cons. by rewrite Hc, IH.
Qed.

(** X13. [sanitizeLabel] keeps the length of a label, counted in UTF-16 code
    units as [label.length] counts it, and its result has one byte for
    each of them; it leaves only ASCII letters, digits and underscores,
    does nothing to a label it has already cleaned, and changes exactly
    the labels that have another character. *)
Theorem sanitizeLabel_safe label :
  JS.length (sanitizeLabel label) = JS.length label ∧
  String.length (sanitizeLabel label) = JS.length label ∧
  plain_label (sanitizeLabel label) ∧
  sanitizeLabel (sanitizeLabel label) = sanitizeLabel label ∧
  (sanitizeLabel label = label ↔ plain_label label).
Proof.
  split_and!.
  - induction label as [|c label IH]; simpl; [done|]. rewrite units_app, IH.
    f_equal. destruct (label_char c) eqn:Hc; [simpl; lia|].
    apply underscores_spec.
  - induction label as [|c label IH]; simpl; [done|]. rewrite length_app_string, IH.
    f_equal. destruct (label_char c) eqn:Hc; [|apply underscores_spec].
    simpl. by rewrite label_char_unit.
  - apply sanitizeLabel_chars.
  - apply sanitizeLabel_id, sanitizeLabel_chars.
  - split; [|apply sanitizeLabel_id]. intros <-. apply sanitizeLabel_chars.
Qed.

(** *** [buildGraph] *)

(** X14. [buildGraph] makes one node for each entity; the size of a node is
    between 10 and 50, and twice its frequency when that is between 5 and
    25; its frequency is never 0; its identifier is its label. The colour
    of a node is the colour the table has for its type, or the colour the
    table has for [default] when the type is no key of the table; only for
    a type that names a member of [Object.prototype] is it no colour of the
    table but that member. *)
Theorem node_sizes_clamped entities :
  length (build_nodes entities) = length entities ∧
  Forall (λ node,
            (10 ≤ n_size node ≤ 50)%Z ∧
            p_frequency (n_properties node) ≠ 0%Z ∧
            n_id node = n_label node ∧
            ((5 ≤ p_frequency (n_properties node) ≤ 25)%Z →
             n_size node = (2 * p_frequency (n_properties node))%Z) ∧
            (n_type node ∉ prototype_members →
             ∃ code, n_color node = Hex code ∧
               ((n_type node, code) ∈ colorMap ∨
                n_type node ∉ colorMap.*1 ∧ ("default", code) ∈ colorMap)) ∧
            (n_type node ∈ prototype_members →
             n_color node = Inherited (n_type node)))
         (build_nodes entities).
Proof.
  unfold build_nodes. split; [by rewrite length_fmap|].
  apply Forall_fmap, Forall_forall. intros entity _. simpl.
  split_and!; [lia..| |done|lia| |].
  - unfold frequency_or_1. destruct (e_frequency entity) as [n|]; [|done].
    by case_decide.
  - intros Hmember. unfold color_of.
    destruct (JSMap.get (e_type entity) colorMap) as [code|] eqn:Hget.
    + exists code. split; [done|]. left. by apply JSMap_get_elem.
    + rewrite bool_decide_eq_false_2 by done. eexists. split; [done|]. right.
      split; [exact (proj1 (JSMap_get_None (e_type entity) colorMap) Hget)|].
      apply (list_elem_of_lookup_2 _ 6). reflexivity.
  - intros Hmember. unfold color_of.
    assert (Hnone : JSMap.get (e_type entity) colorMap = None).
    { apply (proj2 (JSMap_get_None (e_type entity) colorMap)). intros Hkey.
      assert (Hdisjoint : Forall (λ member, member ∉ colorMap.*1) prototype_members)
        by compute_done.
      rewrite Forall_forall in Hdisjoint. by apply (Hdisjoint _ Hmember). }
    rewrite Hnone. by rewrite bool_decide_eq_true_2.
Qed.

(** X15. [buildGraph] makes one edge for each relationship, at the same
    place, and no two edges have the same identifier. *)
Theorem edge_ids_distinct relationships :
  length (build_edges relationships) = length relationships ∧
  NoDup (g_id <$> build_edges relationships) ∧
  ∀ i rel, relationships !! i = Some rel →
    build_edges relationships !! i = Some (edge_of i rel).
Proof.
  unfold build_edges. split_and!.
  - by rewrite length_imap.
  - apply NoDup_alt. intros i j id Hi Hj.
    rewrite list_lookup_fmap, list_lookup_imap in Hi, Hj.
    destruct (relationships !! i) as [ri|]; [|done].
    destruct (relationships !! j) as [rj|]; [|done].
    simpl in *. rewrite <- Hj in Hi. injection Hi as Hi.
    by apply (inj pretty).
  - intros i rel Hi. by rewrite list_lookup_imap, Hi.
Qed.

(** *** The degrees *)

Lemma foldl_add (l : list nat) a : foldl (λ sum degree, sum + degree) a l = a + sum_list l.
Proof.
  revert a. induction l as [|x l IH]; intros a; simpl; [lia|]. rewrite IH. lia.
Qed.

Lemma sum_values_set k v (m : JSMap.t nat) :
  sum_list (JSMap.values (JSMap.set k v m)) + default 0 (JSMap.get k m)
  = sum_list (JSMap.values m) + v.
Proof.
  unfold JSMap.values. induction m as [|[k' v'] m IH]; simpl; [lia|].
  case_decide; csimpl; [lia|]. rewrite <- Nat.add_assoc, IH. lia.
Qed.

Lemma sum_values_bump k (m : JSMap.t nat) :
  sum_list (JSMap.values (bump k m)) = S (sum_list (JSMap.values m)).
Proof.
  unfold bump. pose proof (sum_values_set k (default 0 (JSMap.get k m) + 1) m). lia.
Qed.

Lemma sum_values_edges edges (m : JSMap.t nat) :
  sum_list (JSMap.values
    (foldl (λ degrees edge, bump (g_to edge) (bump (g_from edge) degrees)) m edges))
  = sum_list (JSMap.values m) + 2 * length edges.
Proof.
  revert m. induction edges as [|edge edges IH]; intros m; simpl; [lia|].
  rewrite IH, !sum_values_bump. lia.
Qed.

Lemma sum_values_nodes nodes (m : JSMap.t nat) :
  sum_list (JSMap.values m) = 0 →
  sum_list (JSMap.values
    (foldl (λ degrees node, JSMap.set (n_id node) 0 degrees) m nodes)) = 0.
Proof.
  revert m. induction nodes as [|node nodes IH]; intros m Hm; simpl; [done|].
  apply IH. pose proof (sum_values_set (n_id node) 0 m). lia.
Qed.

(** X16. The degrees that [calculateGraphStatistics] adds up come to twice
    the number of edges, whether or not the ends of the edges are nodes. *)
Theorem degrees_add_up nodes edges :
  totalDegree nodes edges = 2 * length edges.
Proof.
  unfold totalDegree, degrees_of.
  rewrite foldl_add, sum_values_edges, sum_values_nodes; [lia|done].
Qed.

(** *** [filterGraph] *)

Lemma filter_all_id {A} (P : A → Prop) `{∀ x, Decision (P x)} (l : list A) :
  Forall P l → filter P l = l.
Proof.
  induction 1 as [|x l Hx _ IH]; [done|].
  by rewrite filter_cons, decide_True, IH.
Qed.

Lemma Forall_filter_self {A} (P : A → Prop) `{∀ x, Decision (P x)} (l : list A) :
  Forall P (filter P l).
Proof. apply Forall_forall. by intros x [? _]%list_elem_of_filter. Qed.

Lemma by_types_spec {A} types (type_of : A → string) l :
  sublist (by_types types type_of l) l ∧
  Forall (of_types types type_of) (by_types types type_of l) ∧
  (Forall (of_types types type_of) l → by_types types type_of l = l).
Proof.
  unfold by_types, of_types. destruct types as [[|t ts]|];
    try (split_and!; [done|by apply Forall_true|done]).
  split_and!; [apply sublist_filter|apply Forall_filter_self|apply filter_all_id].
Qed.

Lemma by_frequency_spec minimum l :
  sublist (by_frequency minimum l) l ∧
  Forall (frequent minimum) (by_frequency minimum l) ∧
  (Forall (frequent minimum) l → by_frequency minimum l = l).
Proof.
  unfold by_frequency, frequent. destruct minimum as [m|];
    [destruct (decide (m = 0)%Z)|];
    try (split_and!; [done|by apply Forall_true|done]).
  split_and!; [apply sublist_filter|apply Forall_filter_self|apply filter_all_id].
Qed.

Lemma by_query_spec query l :
  sublist (by_query query l) l ∧
  Forall (matching query) (by_query query l) ∧
  (Forall (matching query) l → by_query query l = l).
Proof.
  unfold by_query, matching. destruct query as [[|c q]|];
    try (split_and!; [done|by apply Forall_true|done]).
  split_and!; [apply sublist_filter|apply Forall_filter_self|apply filter_all_id].
Qed.

Lemma filter_nodes_spec filters l :
  sublist (filter_nodes filters l) l ∧
  Forall (λ node, of_types (nodeTypes filters) n_type node ∧
                  frequent (minFrequency filters) node ∧
                  matching (searchQuery filters) node)
         (filter_nodes filters l) ∧
  (Forall (λ node, of_types (nodeTypes filters) n_type node ∧
                   frequent (minFrequency filters) node ∧
                   matching (searchQuery filters) node) l →
   filter_nodes filters l = l).
Proof.
  unfold filter_nodes.
  destruct (by_types_spec (nodeTypes filters) n_type l) as (S1 & F1 & I1).
  destruct (by_frequency_spec (minFrequency filters)
              (by_types (nodeTypes filters) n_type l)) as (S2 & F2 & I2).
  destruct (by_query_spec (searchQuery filters)
              (by_frequency (minFrequency filters)
                 (by_types (nodeTypes filters) n_type l))) as (S3 & F3 & I3).
  split_and!.
  - by etrans; [|etrans].
  - rewrite !Forall_forall in *. intros node Hn. split_and!; [| |by apply F3].
    + by apply F1, (sublist_subseteq _ _ S2), (sublist_subseteq _ _ S3).
    + by apply F2, (sublist_subseteq _ _ S3).
  - intros Hall.
    destruct (by_types_spec (nodeTypes filters) n_type l) as (_ & _ & ->);
      [|by eapply Forall_impl; [exact Hall|]; intros ? (? & ? & ?)].
    destruct (by_frequency_spec (minFrequency filters) l) as (_ & _ & ->);
      [|by eapply Forall_impl; [exact Hall|]; intros ? (? & ? & ?)].
    destruct (by_query_spec (searchQuery filters) l) as (_ & _ & ->);
      [done|by eapply Forall_impl; [exact Hall|]; intros ? (? & ? & ?)].
Qed.

Lemma filter_closed filters nodes edges :
  let kept := filter_nodes filters nodes in
  let links := filter_edges filters kept edges in
  sublist kept nodes ∧ sublist links edges ∧
  (∀ edge, edge ∈ links →
     g_from edge ∈ n_id <$> kept ∧ g_to edge ∈ n_id <$> kept) ∧
  filter_nodes filters kept = kept ∧
  filter_edges filters kept links = links.
Proof.
  intros kept links.
  destruct (filter_nodes_spec filters nodes) as (Hs & Hf & _).
  destruct (filter_nodes_spec filters kept) as (_ & _ & Hid).
  fold kept in Hs, Hf.
  set (ends := λ edge : GraphEdge,
         g_from edge ∈ (list_to_set (n_id <$> kept) : gset string) ∧
         g_to edge ∈ (list_to_set (n_id <$> kept) : gset string)).
  destruct (by_types_spec (relationshipTypes filters) g_type (filter ends edges))
    as (Hs2 & Hf2 & _).
  assert (Hends : Forall ends links).
  { apply Forall_forall. intros edge Hedge. unfold links, filter_edges in Hedge.
    fold ends in Hedge. apply (sublist_subseteq _ _ Hs2) in Hedge.
    by apply list_elem_of_filter in Hedge as [? _]. }
  split_and!.
  - done.
  - unfold links, filter_edges. fold ends. etrans; [exact Hs2|apply sublist_filter].
  - intros edge Hedge. rewrite Forall_forall in Hends.
    destruct (Hends edge Hedge) as [Hfrom Hto].
    by rewrite !elem_of_list_to_set in Hfrom, Hto.
  - by apply Hid.
  - unfold filter_edges at 1. fold ends.
    rewrite (filter_all_id ends links Hends).
    destruct (by_types_spec (relationshipTypes filters) g_type links) as (_ & _ & Hid2).
    apply Hid2. apply Hf2.
Qed.

Lemma size_list_to_set_le (l : list string) :
  size (list_to_set l : gset string) ≤ length l.
Proof.
  induction l as [|x l IH]; [by rewrite list_to_set_nil, size_empty|].
  rewrite list_to_set_cons, size_union_alt, size_singleton. simpl.
  assert (list_to_set l ∖ {[x]} ⊆ (list_to_set l : gset string)) as Hsub%subseteq_size
    by set_solver.
  lia.
Qed.

Lemma mentioned_size nodes edges :
  size (mentioned nodes edges) < enough nodes edges.
Proof.
  unfold mentioned, enough.
  pose proof (size_list_to_set_le (n_id <$> nodes)) as H1.
  pose proof (size_list_to_set_le (g_from <$> edges)) as H2.
  pose proof (size_list_to_set_le (g_to <$> edges)) as H3.
  rewrite !length_fmap in *.
  rewrite !size_union_alt.
  assert (list_to_set (g_from <$> edges) ∖ list_to_set (n_id <$> nodes)
          ⊆ (list_to_set (g_from <$> edges) : gset string)) as H4%subseteq_size
    by set_solver.
  assert (list_to_set (g_to <$> edges)
            ∖ (list_to_set (n_id <$> nodes) ∪ list_to_set (g_from <$> edges))
          ⊆ (list_to_set (g_to <$> edges) : gset string)) as H5%subseteq_size
    by set_solver.
  lia.
Qed.

Lemma closed_in_set ids k neighbors adj :
  closed_in ids adj → (∀ x, x ∈ neighbors → x ∈ ids) →
  closed_in ids (JSMap.set k neighbors adj).
Proof.
  intros Hadj Hn k' l x. rewrite JSMap_get_set.
  case_decide; [intros [= <-]; auto|]. apply Hadj.
Qed.

Lemma closed_in_push ids k v adj :
  closed_in ids adj → v ∈ ids → closed_in ids (adjacency_push k v adj).
Proof.
  intros Hadj Hv. unfold adjacency_push.
  destruct (JSMap.get k adj) as [neighbors|] eqn:Hk; [|done].
  apply closed_in_set; [done|].
  intros x [?|Hx%list_elem_of_singleton]%elem_of_app; [by eapply Hadj|by subst].
Qed.

Lemma adjacency_closed nodes edges :
  closed_in (mentioned nodes edges) (adjacency_of nodes edges).
Proof.
  unfold adjacency_of.
  assert (Hnodes : ∀ ids, closed_in ids
            (foldl (λ adj node, JSMap.set (n_id node) [] adj) [] nodes)).
  { intros ids.
    assert (Hgen : ∀ adj, closed_in ids adj → closed_in ids
              (foldl (λ adj node, JSMap.set (n_id node) [] adj) adj nodes)).
    { induction nodes as [|node ns IH]; intros adj Hadj; simpl; [done|].
      apply IH, closed_in_set; [done|]. by intros ? ?%elem_of_nil. }
    apply Hgen. by intros ? ? ?. }
  assert (Hedges : ∀ ids adj, closed_in ids adj →
            (∀ edge, edge ∈ edges → g_from edge ∈ ids ∧ g_to edge ∈ ids) →
            closed_in ids
              (foldl (λ adj edge,
                        adjacency_push (g_to edge) (g_from edge)
                          (adjacency_push (g_from edge) (g_to edge) adj))
                     adj edges)).
  { intros ids. induction edges as [|edge es IH]; intros adj Hadj Hes; simpl; [done|].
    destruct (Hes edge) as [Hfrom Hto]; [by left|].
    apply IH; [|intros; apply Hes; by right].
    by apply closed_in_push; [apply closed_in_push|]. }
  apply Hedges; [apply Hnodes|].
  intros edge Hedge. unfold mentioned. rewrite !elem_of_union, !elem_of_list_to_set.
  split; [left; right|right]; apply list_elem_of_fmap; by exists edge.
Qed.

(** The recursion of [dfs] ends: what is not yet visited bounds its depth. *)
Lemma dfs_total ids adj fuel nodeId seen0 :
  closed_in ids adj → nodeId ∈ ids → size (ids ∖ seen0) < fuel →
  ∃ seen1, dfs fuel adj nodeId seen0 = Some seen1 ∧ seen0 ⊆ seen1 ∧ nodeId ∈ seen1.
Proof.
  intros Hadj. revert nodeId seen0.
  induction fuel as [|fuel IH]; intros nodeId seen0 Hid Hsize; [lia|].
  simpl. destruct (decide (nodeId ∈ seen0)) as [Hin|Hin]; [by exists seen0|].
  assert (Hneighbors : ∀ x, x ∈ default [] (JSMap.get nodeId adj) → x ∈ ids).
  { intros x Hx. destruct (JSMap.get nodeId adj) as [l|] eqn:Hl; simpl in Hx;
      [by eapply Hadj|by apply elem_of_nil in Hx]. }
  assert (Hless : size (ids ∖ ({[nodeId]} ∪ seen0)) < fuel).
  { assert (ids ∖ ({[nodeId]} ∪ seen0) ⊂ ids ∖ seen0) as Hsub%subset_size
      by set_solver. lia. }
  assert (Hfold : ∀ l seen1,
            (∀ x, x ∈ l → x ∈ ids) → size (ids ∖ seen1) < fuel →
            ∃ seen2,
              foldl (λ acc neighbor, visited' ← acc; dfs fuel adj neighbor visited')
                    (Some seen1) l = Some seen2 ∧ seen1 ⊆ seen2).
  { induction l as [|x l IHl]; intros seen1 Hl Hs; simpl; [by exists seen1|].
    destruct (IH x seen1) as (seen2 & -> & Hsub & _); [apply Hl; by left|done|].
    destruct (IHl seen2) as (seen3 & -> & Hsub3).
    - intros; apply Hl; by right.
    - assert (ids ∖ seen2 ⊆ ids ∖ seen1) as ?%subseteq_size by set_solver. lia.
    - exists seen3. split; [done|]. by etrans. }
  destruct (Hfold _ _ Hneighbors Hless) as (seen2 & -> & Hsub).
  exists seen2. split_and!; [done|set_solver..].
Qed.

(** More fuel does not change what [dfs] finds. *)
Lemma dfs_mono adj fuel fuel' nodeId seen0 seen1 :
  dfs fuel adj nodeId seen0 = Some seen1 → fuel ≤ fuel' →
  dfs fuel' adj nodeId seen0 = Some seen1.
Proof.
  revert fuel' nodeId seen0 seen1.
  induction fuel as [|fuel IH]; intros fuel' nodeId seen0 seen1; [done|].
  intros Hdfs Hle. destruct fuel' as [|fuel']; [lia|].
  simpl in *. case_decide; [done|].
  revert Hdfs. generalize ({[nodeId]} ∪ seen0).
  induction (default [] (JSMap.get nodeId adj)) as [|x l IHl]; intros s; simpl; [done|].
  destruct (dfs fuel adj x s) as [s'|] eqn:Hx; simpl.
  - rewrite (IH fuel' x s s' Hx) by lia. simpl. apply IHl.
  - intros Hnone. exfalso. clear -Hnone.
    induction l as [|y l IHl]; simpl in *; [done|]. by apply IHl.
Qed.

Lemma count_components_total ids adj fuel nodes seen0 c :
  closed_in ids adj → (∀ node, node ∈ nodes → n_id node ∈ ids) →
  size ids < fuel →
  ∃ seen1 c',
    foldl (λ acc node,
             '(visited, components) ← acc;
             if decide (n_id node ∈ visited) then Some (visited, components)
             else visited' ← dfs fuel adj (n_id node) visited;
                  Some (visited', S components))
          (Some (seen0, c)) nodes = Some (seen1, c') ∧
    seen0 ⊆ seen1 ∧ c ≤ c' ≤ c + length nodes ∧
    (∀ node, node ∈ nodes → n_id node ∈ seen1) ∧
    (c' = c → ∀ node, node ∈ nodes → n_id node ∈ seen0).
Proof.
  intros Hadj Hnodes Hfuel. revert seen0 c.
  induction nodes as [|node nodes IH]; intros seen0 c; simpl.
  - exists seen0, c.
    split_and!; first [done|lia|by intros ? ?%elem_of_nil|by intros ? ? ?%elem_of_nil].
  - assert (Hrest : ∀ n, n ∈ nodes → n_id n ∈ ids) by (intros; apply Hnodes; by right).
    destruct (decide (n_id node ∈ seen0)) as [Hin|Hin].
    + destruct (IH Hrest seen0 c) as (seen1 & c' & -> & Hsub & Hc & Hall & Hsame).
      exists seen1, c'. split_and!; try done; try lia.
      * intros n [->|?]%elem_of_cons; [set_solver|auto].
      * intros Heq n [->|?]%elem_of_cons; [done|auto].
    + destruct (dfs_total ids adj fuel (n_id node) seen0 Hadj) as (seen1 & -> & Hsub1 & Hin1).
      { apply Hnodes. by left. }
      { assert (ids ∖ seen0 ⊆ ids) as ?%subseteq_size by set_solver. lia. }
      simpl.
      destruct (IH Hrest seen1 (S c)) as (seen2 & c' & -> & Hsub & Hc & Hall & Hsame).
      exists seen2, c'.
      split_and!;
        first [done|lia|by etrans
              |by intros n [->|?]%elem_of_cons; [set_solver|auto]
              |intros; lia].
Qed.

Lemma components_total nodes edges :
  ∃ components,
    findConnectedComponents nodes edges = Some components ∧
    components ≤ length nodes ∧
    (components = 0 ↔ nodes = []) ∧
    ∀ fuel, enough nodes edges ≤ fuel →
      snd <$> count_components fuel (adjacency_of nodes edges) nodes
      = Some components.
Proof.
  pose proof (adjacency_closed nodes edges) as Hadj.
  assert (Hnodes : ∀ node, node ∈ nodes → n_id node ∈ mentioned nodes edges).
  { intros node Hnode. unfold mentioned. rewrite !elem_of_union, !elem_of_list_to_set.
    left; left. apply list_elem_of_fmap. by exists node. }
  assert (Hall : ∀ fuel, enough nodes edges ≤ fuel →
    ∃ c, snd <$> count_components fuel (adjacency_of nodes edges) nodes = Some c ∧
         c ≤ length nodes ∧ (c = 0 ↔ nodes = [])).
  { intros fuel Hfuel.
    destruct (count_components_total (mentioned nodes edges) (adjacency_of nodes edges)
                fuel nodes ∅ 0 Hadj Hnodes)
      as (seen1 & c & Hc & _ & Hle & _ & Hzero).
    { pose proof (mentioned_size nodes edges). lia. }
    exists c. unfold count_components. rewrite Hc. split_and!; [done|lia|].
    split.
    - intros ->. destruct nodes as [|node ?]; [done|].
      specialize (Hzero eq_refl node). set_solver.
    - intros ->. simpl in Hle. lia. }
  destruct (Hall (enough nodes edges)) as (c & Hc & Hle & Hzero); [done|].
  exists c. unfold findConnectedComponents. split_and!; try done.
  intros fuel Hfuel.
  destruct (count_components (enough nodes edges) (adjacency_of nodes edges) nodes)
    as [[seen1 c1]|] eqn:Hfix; [|done].
  simpl in Hc. injection Hc as ->.
  assert (Hmono : ∀ l acc r,
    foldl (λ acc node,
             '(visited, components) ← acc;
             if decide (n_id node ∈ visited) then Some (visited, components)
             else visited' ← dfs (enough nodes edges) (adjacency_of nodes edges)
                                 (n_id node) visited;
                  Some (visited', S components)) acc l = Some r →
    foldl (λ acc node,
             '(visited, components) ← acc;
             if decide (n_id node ∈ visited) then Some (visited, components)
             else visited' ← dfs fuel (adjacency_of nodes edges)
                                 (n_id node) visited;
                  Some (visited', S components)) acc l = Some r).
  { induction l as [|node l IHl]; intros acc r; cbn [foldl]; [done|].
    destruct acc as [[v k]|]; cbn [mbind option_bind].
    - case_decide; [apply IHl|].
      destruct (dfs (enough nodes edges) (adjacency_of nodes edges) (n_id node) v)
        as [v'|] eqn:Hd; cbn [mbind option_bind].
      + rewrite (dfs_mono _ _ fuel _ _ _ Hd Hfuel). cbn [mbind option_bind].
        apply IHl.
      + intros Hnone. exfalso. clear -Hnone.
        induction l as [|y l IHl]; cbn [foldl mbind option_bind] in *; [done|].
        by apply IHl.
    - intros Hnone. exfalso. clear -Hnone.
      induction l as [|y l IHl]; cbn [foldl mbind option_bind] in *; [done|].
      by apply IHl. }
  unfold count_components in *. by rewrite (Hmono _ _ _ Hfix).
Qed.

(** X17. [findConnectedComponents] returns on every graph, cycles and loops
    included: the depth of the recursion of [dfs] never exceeds the bound
    [enough], and more fuel gives the same number. That number is at most
    the number of nodes, and it is 0 only for the graph without nodes. *)
Theorem findConnectedComponents_total nodes edges :
  ∃ components,
    findConnectedComponents nodes edges = Some components ∧
    components ≤ length nodes ∧
    (components = 0 ↔ nodes = []) ∧
    ∀ fuel, enough nodes edges ≤ fuel →
      snd <$> count_components fuel (adjacency_of nodes edges) nodes
      = Some components.
Proof. apply components_total. Qed.

Section GraphTotals.
Context {Num : Type} (round2 : nat → nat → Num).

(** X18. [buildGraph] returns a graph for every input; its statistics count
    the entities as nodes and the relationships as edges. *)
Theorem buildGraph_total entities relationships documents :
  ∃ g, buildGraph round2 entities relationships documents = Some g ∧
    nodes g = build_nodes entities ∧ edges g = build_edges relationships ∧
    nodeCount (statistics g) = length entities ∧
    edgeCount (statistics g) = length relationships ∧
    connectedComponents (statistics g) ≤ length entities ∧
    (connectedComponents (statistics g) = 0 ↔ entities = []).
Proof.
  unfold buildGraph, calculateGraphStatistics.
  destruct (components_total (build_nodes entities)
              (build_edges relationships)) as (c & -> & Hle & Hzero & _).
  eexists. split; [done|]. simpl. unfold build_nodes, build_edges in *.
  rewrite length_fmap, length_imap in *. split_and!; try done.
  rewrite Hzero. split; [apply fmap_nil_inv|by intros ->].
Qed.

(** X19. [filterGraph] returns a graph for every input. Its nodes and its
    edges are among those of the graph it was given, in the same order;
    both ends of every edge that is left are nodes that are left; the
    statistics count what is left; and filtering the result once more with
    the same filters changes nothing. *)
Theorem filterGraph_total g filters :
  ∃ g', filterGraph round2 g filters = Some g' ∧
    sublist (nodes g') (nodes g) ∧ sublist (edges g') (edges g) ∧
    (∀ edge, edge ∈ edges g' →
       g_from edge ∈ n_id <$> nodes g' ∧ g_to edge ∈ n_id <$> nodes g') ∧
    nodeCount (statistics g') = length (nodes g') ∧
    edgeCount (statistics g') = length (edges g') ∧
    filterGraph round2 g' filters = Some g'.
Proof.
  unfold filterGraph, calculateGraphStatistics.
  destruct (filter_closed filters (nodes g) (edges g))
    as (Hs & Hs' & Hends & Hid & Hid').
  cbn zeta in *.
  destruct (components_total (filter_nodes filters (nodes g))
              (filter_edges filters (filter_nodes filters (nodes g)) (edges g)))
    as (c & Hc & _).
  rewrite Hc. eexists. split; [done|]. simpl.
  split_and!; try done. by rewrite Hid, Hid', Hc.
Qed.

End GraphTotals.

Lemma find_node_Some id nodes node :
  find_node id nodes = Some node → node ∈ nodes ∧ n_id node = id.
Proof.
  unfold find_node. intros [Hin Hid%bool_decide_eq_true]%find_some.
  split; [by apply list_elem_of_In|done].
Qed.

Lemma grows_refl w : grows w w.
Proof. by split. Qed.

Lemma grows_trans w1 w2 w3 : grows w1 w2 → grows w2 w3 → grows w1 w3.
Proof. intros [? ?] [? ?]. split; by etrans. Qed.

Lemma JSMap_set_grows {V} k (v : V) m : m.*1 ⊆ (JSMap.set k v m).*1.
Proof.
  rewrite JSMap_set_keys. case_decide; [done|]. intros x ?. apply elem_of_app. by left.
Qed.

Lemma JSMap_set_key {V} k (v : V) m : k ∈ (JSMap.set k v m).*1.
Proof.
  rewrite JSMap_set_keys. case_decide; [done|]. apply elem_of_app. right. by left.
Qed.

Section Neighbours.
Context (nodes : list GraphNode) (edges : list GraphEdge).

Local Abbreviation tidy_walk := (tidy_walk nodes edges).

Lemma tidy_add_node k node w :
  tidy_walk w → find_node k nodes = Some node →
  tidy_walk {| visited := visited w;
               resultNodes := JSMap.set k node (resultNodes w);
               resultEdges := resultEdges w |}.
Proof.
  intros [Hn He Hnk Hek] Hfind. constructor; simpl; [|done| |done].
  - intros k' node' [Heq|?]%JSMap_set_elem; [by simplify_eq|auto].
  - by apply JSMap_set_NoDup.
Qed.

Lemma tidy_add_edge edge w :
  tidy_walk w → edge ∈ edges →
  tidy_walk {| visited := visited w; resultNodes := resultNodes w;
               resultEdges := JSMap.set (g_id edge) edge (resultEdges w) |}.
Proof.
  intros [Hn He Hnk Hek] Hin. constructor; simpl; [done| |done|].
  - intros k' edge' [Heq|?]%JSMap_set_elem; [by simplify_eq|auto].
  - by apply JSMap_set_NoDup.
Qed.

(** The loop over the edges keeps the collections tidy and loses no key,
    and files every edge at the current node, when [deeper] does so. *)
Lemma visit_edges_spec (deeper : string → Walk → Walk) cur :
  (∀ id w, tidy_walk w → tidy_walk (deeper id w) ∧ grows w (deeper id w)) →
  ∀ (es : list GraphEdge) w,
    (∀ edge, edge ∈ es → edge ∈ edges) → tidy_walk w →
    tidy_walk (visit_edges deeper nodes es cur w) ∧
    grows w (visit_edges deeper nodes es cur w) ∧
    ∀ edge, edge ∈ es → g_from edge = cur ∨ g_to edge = cur →
      g_id edge ∈ (resultEdges (visit_edges deeper nodes es cur w)).*1.
Proof.
  intros Hdeeper. unfold visit_edges.
  induction es as [|edge es IH]; intros w Hes Hw; cbn [foldl].
  { split_and!; [done|apply grows_refl|by intros ? ?%elem_of_nil]. }
  assert (Hes' : ∀ e, e ∈ es → e ∈ edges) by (intros; apply Hes; by right).
  assert (Hedge : edge ∈ edges) by (apply Hes; by left).
  destruct (bool_decide (g_from edge = cur) || bool_decide (g_to edge = cur)) eqn:Hat.
  - pose proof (tidy_add_edge edge w Hw Hedge) as Hw2.
    set (w2 := {| visited := visited w; resultNodes := resultNodes w;
                  resultEdges := JSMap.set (g_id edge) edge (resultEdges w) |}) in *.
    assert (Hg2 : grows w w2) by (split; [done|apply JSMap_set_grows]).
    assert (Hk2 : g_id edge ∈ (resultEdges w2).*1) by apply JSMap_set_key.
    cbn zeta.
    set (neighborId := if bool_decide (g_from edge = cur) then g_to edge
                       else g_from edge).
    destruct (find_node neighborId nodes) as [neighborNode|] eqn:Hfind.
    + pose proof (tidy_add_node neighborId neighborNode w2 Hw2 Hfind) as Hw3.
      set (w3 := {| visited := visited w2;
                    resultNodes := JSMap.set neighborId neighborNode (resultNodes w2);
                    resultEdges := resultEdges w2 |}) in *.
      assert (Hg3 : grows w2 w3) by (split; [apply JSMap_set_grows|done]).
      destruct (Hdeeper neighborId w3 Hw3) as [Hw4 Hg4].
      destruct (IH (deeper neighborId w3) Hes' Hw4) as (Ht & Hg & Hall).
      split_and!; [done| |].
      { apply grows_trans with w2; [done|]. apply grows_trans with w3; [done|].
        by apply grows_trans with (deeper neighborId w3). }
      intros e [->|He]%elem_of_cons Hcur; [|by apply Hall].
      apply Hg, Hg4. simpl. done.
    + destruct (IH w2 Hes' Hw2) as (Ht & Hg & Hall).
      split_and!; [done|by apply grows_trans with w2|].
      intros e [->|He]%elem_of_cons Hcur; [|by apply Hall].
      by apply Hg.
  - destruct (IH w Hes' Hw) as (Ht & Hg & Hall).
    split_and!; [done..|].
    intros e [->|He]%elem_of_cons Hcur; [|by apply Hall].
    apply orb_false_iff in Hat as [H1%bool_decide_eq_false H2%bool_decide_eq_false].
    by destruct Hcur.
Qed.

(** Entering a node: it is marked, and filed when it is a node of the
    graph. *)
Lemma tidy_enter cur w :
  tidy_walk w →
  let w1 := {| visited := {[cur]} ∪ visited w;
               resultNodes := match find_node cur nodes with
                              | Some currentNode =>
                                  JSMap.set cur currentNode (resultNodes w)
                              | None => resultNodes w
                              end;
               resultEdges := resultEdges w |} in
  tidy_walk w1 ∧ grows w w1 ∧
  ∀ node, find_node cur nodes = Some node → cur ∈ (resultNodes w1).*1.
Proof.
  intros Hw. cbn zeta. destruct (find_node cur nodes) as [node|] eqn:Hfind.
  - split_and!.
    + destruct (tidy_add_node cur node w Hw Hfind). by constructor.
    + split; [apply JSMap_set_grows|done].
    + intros _ _. apply JSMap_set_key.
  - split_and!; [by destruct Hw|by split|done].
Qed.

Lemma traverse_spec remaining cur w :
  tidy_walk w →
  tidy_walk (traverse nodes edges remaining cur w) ∧
  grows w (traverse nodes edges remaining cur w) ∧
  (cur ∉ visited w →
   (∀ node, find_node cur nodes = Some node →
      cur ∈ (resultNodes (traverse nodes edges remaining cur w)).*1) ∧
   ∀ edge, edge ∈ edges → g_from edge = cur ∨ g_to edge = cur →
     g_id edge ∈ (resultEdges (traverse nodes edges remaining cur w)).*1).
Proof.
  revert cur w. induction remaining as [|remaining IH]; intros cur w Hw;
    cbn [traverse]; (case_decide; [split_and!; [done|apply grows_refl|done]|]);
    destruct (tidy_enter cur w Hw) as (Hw1 & Hg1 & Hk1).
  - destruct (visit_edges_spec (λ _ w, w) cur
                (λ _ w Hw, conj Hw (grows_refl w)) edges _ (λ _ H, H) Hw1)
      as (Ht & Hg & Hall).
    split_and!; [done|by eapply grows_trans|].
    intros _. split; [|done]. intros node Hfind. by apply Hg, (Hk1 node).
  - destruct (visit_edges_spec (traverse nodes edges remaining) cur
                (λ id w Hw, conj (proj1 (IH id w Hw)) (proj1 (proj2 (IH id w Hw))))
                edges _ (λ _ H, H) Hw1)
      as (Ht & Hg & Hall).
    split_and!; [done|by eapply grows_trans|].
    intros _. split; [|done]. intros node Hfind. by apply Hg, (Hk1 node).
Qed.

End Neighbours.

Lemma tidy_node_values nodes edges w :
  tidy_walk nodes edges w →
  n_id <$> JSMap.values (resultNodes w) = (resultNodes w).*1 ∧
  g_id <$> JSMap.values (resultEdges w) = (resultEdges w).*1.
Proof.
  intros [Hn He _ _]. unfold JSMap.values. split.
  - revert Hn. induction (resultNodes w) as [|[k node] m IH]; intros Hn; [done|].
    csimpl. rewrite IH by (intros; apply Hn; by right).
    by destruct (find_node_Some k nodes node (Hn k node ltac:(by left))) as [_ ->].
  - revert He. induction (resultEdges w) as [|[k edge] m IH]; intros He; [done|].
    csimpl. rewrite IH by (intros; apply He; by right).
    by destruct (He k edge ltac:(by left)) as [_ ->].
Qed.

Section NeighboursOfNode.
Context {Num : Type}.

(** X20. [getNodeNeighbors] returns nodes and edges of the graph, no two
    with the same identifier. For a depth below 0 it returns nothing; for
    any other depth it returns the start node, when that is a node of the
    graph, and an edge with the identifier of every edge at the start
    node. *)
Theorem neighbours_within_graph nodeId (g : GraphData (Num := Num)) depth :
  let found := getNodeNeighbors nodeId g depth in
  found.1 ⊆ nodes g ∧ found.2 ⊆ edges g ∧
  NoDup (n_id <$> found.1) ∧ NoDup (g_id <$> found.2) ∧
  ((depth < 0)%Z → found = ([], [])) ∧
  ((0 ≤ depth)%Z →
   (∀ node, find_node nodeId (nodes g) = Some node → node ∈ found.1) ∧
   ∀ edge, edge ∈ edges g → g_from edge = nodeId ∨ g_to edge = nodeId →
     g_id edge ∈ g_id <$> found.2).
Proof.
  intros found. unfold found, getNodeNeighbors.
  set (start := {| visited := ∅; resultNodes := []; resultEdges := [] |}).
  assert (Hstart : tidy_walk (nodes g) (edges g) start).
  { constructor; simpl; try (by intros ? ? ?%elem_of_nil); constructor. }
  destruct (decide (depth < 0)%Z) as [Hneg|Hpos].
  { simpl. split; [by intros ? ?%elem_of_nil|]. split; [by intros ? ?%elem_of_nil|].
    split; [constructor|]. split; [constructor|]. split; [done|]. intros; lia. }
  destruct (traverse_spec (nodes g) (edges g) (Z.to_nat depth) nodeId start Hstart)
    as (Ht & _ & Hroot).
  destruct Hroot as [Hnode Hedges]; [set_solver|].
  set (w := traverse (nodes g) (edges g) (Z.to_nat depth) nodeId start) in *.
  destruct (tidy_node_values _ _ _ Ht) as [Hnv Hev].
  cbn [fst snd].
  split_and!.
  - intros node (kv & -> & Hkv)%list_elem_of_fmap. destruct kv as [k node].
    by destruct (find_node_Some k (nodes g) node (walk_nodes _ _ _ Ht k node Hkv)).
  - intros edge (kv & -> & Hkv)%list_elem_of_fmap. destruct kv as [k edge].
    by destruct (walk_edges _ _ _ Ht k edge Hkv).
  - rewrite Hnv. by destruct Ht.
  - rewrite Hev. by destruct Ht.
  - lia.
  - intros _. split.
    + intros node Hfind. specialize (Hnode node Hfind).
      apply list_elem_of_fmap in Hnode as ([k node'] & Hk & Hkv). simpl in Hk. subst k.
      pose proof (walk_nodes _ _ _ Ht _ _ Hkv) as Hfind'.
      rewrite Hfind in Hfind'. injection Hfind' as <-.
      apply list_elem_of_fmap. by exists (nodeId, node).
    + intros edge Hedge Hat. rewrite Hev. by apply Hedges.
Qed.

End NeighboursOfNode.

End GraphFacts.

(** ** The CSV export *)

Section ExportMore.
Import CSV.

Lemma string_app_nil_r (s : string) : s +:+ "" = s.
Proof. induction s as [|c s IH]; [done|]. by rewrite string_app_cons, IH. Qed.

Lemma string_app_assoc (a b c : string) : (a +:+ b) +:+ c = a +:+ (b +:+ c).
Proof. induction a as [|x a IH]; [done|]. by rewrite !string_app_cons, IH. Qed.

Lemma rev_app_rev_app (s a b : string) :
  String.rev_app (String.rev_app s a) b = String.rev_app a (s +:+ b).
Proof.
  revert a b. induction s as [|c s IH]; intros a b; [done|].
  cbn [String.rev_app]. by rewrite IH.
Qed.

Lemma string_rev_involutive (s : string) : String.rev (String.rev s) = s.
Proof.
  unfold String.rev. rewrite rev_app_rev_app. cbn [String.rev_app].
  apply string_app_nil_r.
Qed.

(** Reading the inside of a cell gives the cell back. *)
Lemma read_inside cell acc row rows rest :
  read Inside acc row rows (double_quotes cell +:+ rest)
  = read Inside (String.rev_app cell acc) row rows rest.
Proof.
  revert acc. induction cell as [|c cell IH]; intros acc; [done|].
  cbn [double_quotes String.rev_app].
  destruct (decide (c = quote)) as [->|Hc]; rewrite !string_app_cons; cbn [read].
  - rewrite !decide_True by done. apply IH.
  - rewrite decide_False by done. apply IH.
Qed.

Lemma read_cell cell row rows rest :
  read Opening "" row rows (cell_text cell +:+ rest)
  = read Quoted (String.rev cell) row rows rest.
Proof.
  unfold cell_text. rewrite string_app_cons. cbn [read].
  rewrite decide_True by done.
  rewrite string_app_assoc, read_inside, string_app_cons, string_app_nil_l.
  cbn [read]. by rewrite decide_True.
Qed.

(** The cells after the first one of a row, each behind its comma. *)
Lemma read_cells cells cell row rows rest :
  read Quoted (String.rev cell) row rows
       (foldr (λ c s, "," +:+ cell_text c +:+ s) rest cells)
  = let st := foldl next_cell (cell, row) cells in
    read Quoted (String.rev st.1) st.2 rows rest.
Proof.
  revert cell row. induction cells as [|c cells IH]; intros cell row; [done|].
  cbn [foldr foldl]. rewrite string_app_cons, string_app_nil_l. cbn [read].
  rewrite decide_False by done. rewrite decide_True by done.
  rewrite string_rev_involutive, read_cell. apply IH.
Qed.

Lemma next_cells cells cell row :
  let st := foldl next_cell (cell, row) cells in
  reverse (st.1 :: st.2) = reverse row ++ cell :: cells.
Proof.
  revert cell row. induction cells as [|c cells IH]; intros cell row; cbn [foldl].
  - by rewrite reverse_cons.
  - change (next_cell (cell, row) c) with (c, cell :: row).
    cbn zeta in *. by rewrite IH, reverse_cons, <- app_assoc.
Qed.

Lemma join_cons sep part parts :
  join sep (part :: parts) = part +:+ foldr (λ p s, sep +:+ p +:+ s) "" parts.
Proof.
  revert part. induction parts as [|p parts IH]; intros part.
  - by rewrite string_app_nil_r.
  - change (join sep (part :: p :: parts))
      with (part +:+ sep +:+ join sep (p :: parts)).
    by rewrite IH.
Qed.

(** A row that has a cell, read up to its last cell. *)
Lemma read_row cell cells row rows rest :
  read Opening "" row rows (join "," (cell_text <$> cell :: cells) +:+ rest)
  = let st := foldl next_cell (cell, row) cells in
    read Quoted (String.rev st.1) st.2 rows rest.
Proof.
  rewrite fmap_cons, join_cons, string_app_assoc, read_cell.
  rewrite <- read_cells. f_equal.
  induction cells as [|c cells IH]; [done|].
  rewrite fmap_cons. cbn [foldr]. rewrite !string_app_assoc. by rewrite <- IH.
Qed.

(** The rows after the first one, each behind its line feed. *)
Lemma read_rows (rest_rows : list (list string)) cell cells rows :
  Forall (λ row, row ≠ []) rest_rows →
  read Opening "" [] rows
       (join "," (cell_text <$> cell :: cells)
        +:+ foldr (λ r s, String "010"%char "" +:+ r +:+ s) ""
              ((λ row, join "," (cell_text <$> row)) <$> rest_rows))
  = Some (reverse rows ++ (cell :: cells) :: rest_rows).
Proof.
  revert cell cells rows.
  induction rest_rows as [|r rest_rows IH]; intros cell cells rows Hne.
  - rewrite fmap_nil. cbn [foldr]. rewrite read_row. cbn zeta. cbn [read].
    rewrite string_rev_involutive.
    pose proof (next_cells cells cell []) as Hn. cbn zeta in Hn.
    rewrite Hn. by rewrite reverse_cons.
  - apply Forall_cons in Hne as [Hr Hne]. destruct r as [|c cs]; [done|].
    rewrite (fmap_cons _ (c :: cs)). cbn [foldr]. rewrite read_row. cbn zeta.
    rewrite string_app_cons, string_app_nil_l. cbn [read].
    rewrite decide_False by done. rewrite decide_False by done.
    rewrite decide_True by done. rewrite string_rev_involutive.
    pose proof (next_cells cells cell []) as Hn. cbn zeta in Hn. rewrite Hn.
    rewrite (IH c cs _ Hne). by rewrite reverse_cons, <- app_assoc.
Qed.

Lemma table_reads_back (rows : list (list string)) :
  rows ≠ [] → Forall (λ row, row ≠ []) rows →
  parse (render rows) = Some rows.
Proof.
  intros Hrows Hne. destruct rows as [|[|cell cells] rows]; [done| |].
  { by apply Forall_cons in Hne as [? _]. }
  apply Forall_cons in Hne as [_ Hne].
  unfold parse, render. rewrite fmap_cons, join_cons.
  by rewrite read_rows.
Qed.

Section ExportFacts.
Context (date_text : Z → string).

(** X21. The CSV text that [generateCSV] makes reads back, cell by cell, as
    the table it was made from, whatever the cells contain; the table has
    a row of headers and a row for each document, of five cells each, or
    six when the content is included. *)
Theorem exported_csv_reads_back documents includeContent :
  parse (generateCSV date_text documents includeContent)
  = Some (table date_text documents includeContent) ∧
  length (table date_text documents includeContent) = S (length documents) ∧
  Forall (λ row, length row = if includeContent then 6 else 5)
         (table date_text documents includeContent).
Proof.
  split_and!.
  - apply (table_reads_back (table date_text documents includeContent)); [done|].
    unfold table. constructor; [by destruct includeContent|].
    apply Forall_fmap, Forall_forall. intros doc _. by destruct includeContent.
  - unfold table. simpl. by rewrite length_fmap.
  - unfold table. constructor; [by destruct includeContent|].
    apply Forall_fmap, Forall_forall. intros doc _. by destruct includeContent.
Qed.

End ExportFacts.

End ExportMore.

(** ** [MemStorage] and the entities of the scraping job *)

Section StorageFacts.
Import Storage.
Context `{JS.Casing}.

Lemma sort_insert_perm {A} (compare : A → A → Z) x l :
  sort_insert compare x l ≡ₚ x :: l.
Proof.
  induction l as [|y l IH]; simpl; [done|].
  case_decide; [done|]. rewrite IH. apply Permutation_swap.
Qed.

Lemma sort_by_perm {A} (compare : A → A → Z) l : sort_by compare l ≡ₚ l.
Proof.
  unfold sort_by. induction l as [|x l IH]; simpl; [done|].
  by rewrite sort_insert_perm, IH.
Qed.

Lemma JSMap_keys_agree {V} (m : JSMap.t V) k v1 v2 :
  NoDup m.*1 → (k, v1) ∈ m → (k, v2) ∈ m → v1 = v2.
Proof.
  induction m as [|[k' v'] m IH]; [by intros _ ?%elem_of_nil|].
  csimpl. intros [Hk Hnd]%NoDup_cons [H1|H1]%elem_of_cons [H2|H2]%elem_of_cons.
  - by simplify_eq.
  - simplify_eq. destruct Hk. apply list_elem_of_fmap. by exists (k', v2).
  - simplify_eq. destruct Hk. apply list_elem_of_fmap. by exists (k', v1).
  - by apply IH.
Qed.

Lemma JSMap_elem_get {V} (m : JSMap.t V) k v :
  NoDup m.*1 → (k, v) ∈ m → JSMap.get k m = Some v.
Proof.
  intros Hnd Hin. destruct (JSMap.get k m) as [v'|] eqn:Hget.
  - apply JSMap_get_elem in Hget. f_equal. by eapply JSMap_keys_agree.
  - apply JSMap_get_None in Hget. destruct Hget.
    apply list_elem_of_fmap. by exists (k, v).
Qed.

Lemma JSMap_set_in {V} k (v : V) m : (k, v) ∈ JSMap.set k v m.
Proof.
  induction m as [|[k' v'] m IH]; simpl; [by left|].
  case_decide; [by left|by right].
Qed.

Lemma JSMap_set_other {V} k (v : V) m k' v' :
  (k', v') ∈ m → k' ≠ k → (k', v') ∈ JSMap.set k v m.
Proof.
  intros Hin Hne. induction m as [|[k0 v0] m IH]; simpl; [by apply elem_of_nil in Hin|].
  apply elem_of_cons in Hin as [Heq|Hin].
  - simplify_eq. rewrite decide_False by done. by left.
  - case_decide; right; [done|by apply IH].
Qed.

(** What [set] does to a sum over the values. *)
Lemma sum_set {V} (f : V → Z) k v (m : JSMap.t V) :
  (foldr (λ x total, f x + total) 0 (JSMap.values (JSMap.set k v m))
   = foldr (λ x total, f x + total) 0 (JSMap.values m)
     - from_option f 0 (JSMap.get k m) + f v)%Z.
Proof.
  unfold JSMap.values. induction m as [|[k' v'] m IH]; simpl; [lia|].
  case_decide; csimpl; [lia|]. rewrite IH. lia.
Qed.

Section Entities.
Context (randomUUID : nat → string) `{!Inj (=) (=) randomUUID}.

Local Abbreviation sound := (sound randomUUID).

Lemma sound_empty : sound empty.
Proof.
  constructor; simpl; try (by intros ? ? ?%elem_of_nil); [constructor|].
  by intros ? ? ? ? ? ?%elem_of_nil.
Qed.

Lemma project_entities pid st e :
  e ∈ getEntitiesByProject pid st ↔
  e_projectId e = Some pid ∧ ∃ k, (k, e) ∈ s_entities st.
Proof.
  unfold getEntitiesByProject. rewrite sort_by_perm, list_elem_of_filter.
  unfold JSMap.values. rewrite list_elem_of_fmap. split.
  - intros [Hp ([k e'] & -> & Hin)]. split; [done|]. by exists k.
  - intros [Hp [k Hin]]. split; [done|]. by exists (k, e).
Qed.

Lemma save_entity_sound pid doc st x :
  pid ≠ "" → sound st →
  let st' := save_entity randomUUID pid doc st x in
  sound st' ∧
  mentions pid st' = (mentions pid st + 1)%Z ∧
  (∀ p, p ≠ pid → mentions p st' = mentions p st) ∧
  s_documents st' = s_documents st ∧
  (∀ k e, (k, e) ∈ s_entities st →
     ∃ e', (k, e') ∈ s_entities st' ∧ e_projectId e' = e_projectId e ∧
           e_name e' = e_name e ∧ e_type e' = e_type e) ∧
  ∃ k e, (k, e) ∈ s_entities st' ∧ e_projectId e = Some pid ∧
         e_name e = x_text x ∧ e_type e = x_label x.
Proof.
  intros Hpid [Hkeys Hids Hfreq Huniq]. cbn zeta. unfold save_entity.
  destruct (List.find _ _) as [e|] eqn:Hfind.
  - apply find_some in Hfind as [Hin Hmatch].
    apply list_elem_of_In, project_entities in Hin as [Hp [k Hk]].
    apply andb_prop in Hmatch as [Hn%bool_decide_eq_true Ht%bool_decide_eq_true].
    destruct (Hids k e Hk) as [Hid _]. rewrite Hid.
    unfold updateEntity. rewrite (JSMap_elem_get _ _ _ Hkeys Hk). cbn [snd].
    set (updated := patch e _).
    assert (Hsame : e_id updated = e_id e ∧ e_projectId updated = e_projectId e ∧
                    e_name updated = e_name e ∧ e_type updated = e_type e) by done.
    destruct Hsame as (Hu1 & Hu2 & Hu3 & Hu4).
    assert (Hfu : GraphBuilder.frequency_or_1 (e_frequency updated)
                  = (GraphBuilder.frequency_or_1 (e_frequency e) + 1)%Z).
    { pose proof (Hfreq k e Hk). unfold updated, patch. simpl.
      rewrite decide_False by lia. done. }
    split_and!.
    + constructor; simpl.
      * by apply JSMap_set_NoDup.
      * intros k' e' [Heq|Hin']%JSMap_set_elem; [|by apply Hids].
        injection Heq as -> ->. split; [by rewrite Hu1|]. by destruct (Hids k e Hk).
      * intros k' e' [Heq|Hin']%JSMap_set_elem; [|by eapply Hfreq].
        injection Heq as -> ->. rewrite Hfu. pose proof (Hfreq k e Hk). lia.
      * intros k1 e1 k2 e2 p [H1|H1]%JSMap_set_elem [H2|H2]%JSMap_set_elem.
        -- by injection H1 as -> ->; injection H2 as -> ->.
        -- injection H1 as -> ->. rewrite Hu2, Hu3, Hu4. intros.
           by eapply (Huniq k e k2 e2 p).
        -- injection H2 as -> ->. rewrite Hu2, Hu3, Hu4. intros.
           by eapply (Huniq k1 e1 k e p).
        -- intros. by eapply (Huniq k1 e1 k2 e2 p).
    + unfold mentions. cbn [s_entities].
      rewrite sum_set, (JSMap_elem_get _ _ _ Hkeys Hk). cbn [from_option].
      unfold weight. rewrite Hu2, Hfu, Hp, !decide_True by done. lia.
    + intros p Hne. unfold mentions. cbn [s_entities].
      rewrite sum_set, (JSMap_elem_get _ _ _ Hkeys Hk). cbn [from_option].
      unfold weight. rewrite Hu2, Hp, !decide_False by congruence. lia.
    + done.
    + simpl. intros k' e' Hin'. destruct (decide (k' = k)) as [->|Hne].
      * exists updated. split; [apply JSMap_set_in|].
        by rewrite (JSMap_keys_agree _ _ _ _ Hkeys Hin' Hk).
      * exists e'. split; [by apply JSMap_set_other|done].
    + exists k, updated. split; [apply JSMap_set_in|].
      by rewrite Hu2, Hu3, Hu4.
  - assert (Hnone := find_none _ _ Hfind). clear Hfind.
    unfold createEntity.
    cbn [snd i_projectId i_name i_type i_frequency i_documentIds].
    assert (Hor : or_null (Some pid) = Some pid) by (by destruct pid).
    set (entity := {| e_id := randomUUID (s_drawn st);
                      e_projectId := or_null (Some pid);
                      e_name := x_text x; e_type := x_label x;
                      e_frequency := Some 1%Z; e_documentIds := Some [doc] |}).
    assert (Hfresh : JSMap.get (randomUUID (s_drawn st)) (s_entities st) = None).
    { apply JSMap_get_None. intros ([k e] & Hk & Hin)%list_elem_of_fmap.
      simpl in Hk. subst k. destruct (Hids _ _ Hin) as [_ (i & Hi & Heq)].
      apply (inj randomUUID) in Heq. lia. }
    split_and!.
    + constructor; simpl.
      * by apply JSMap_set_NoDup.
      * intros k' e' [Heq|Hin']%JSMap_set_elem.
        -- simplify_eq. split; [done|]. exists (s_drawn st). split; [lia|done].
        -- destruct (Hids _ _ Hin') as [? (i & ? & ?)]. split; [done|].
           exists i. split; [lia|done].
      * intros k' e' [Heq|Hin']%JSMap_set_elem; [|by eapply Hfreq].
        by simplify_eq.
      * assert (Hclash : ∀ k2 e2 p, (k2, e2) ∈ s_entities st →
                  e_projectId entity = Some p → e_projectId e2 = Some p →
                  e_name entity = e_name e2 → e_type entity = e_type e2 → False).
        { intros k2 e2 p Hin2 Hp1 Hp2 Hn Ht.
          change (e_projectId entity) with (or_null (Some pid)) in Hp1.
          change (e_name entity) with (x_text x) in Hn.
          change (e_type entity) with (x_label x) in Ht.
          rewrite Hor in Hp1. injection Hp1 as <-.
          assert (Hin : In e2 (getEntitiesByProject pid st)).
          { apply list_elem_of_In, project_entities. split; [done|]. by exists k2. }
          specialize (Hnone e2 Hin). cbv beta in Hnone.
          rewrite <- Hn, <- Ht, !bool_decide_eq_true_2 in Hnone by done. done. }
        intros k1 e1 k2 e2 p [H1|H1]%JSMap_set_elem [H2|H2]%JSMap_set_elem.
        -- by injection H1 as -> ->; injection H2 as -> ->.
        -- injection H1 as -> ->. intros. by destruct (Hclash k2 e2 p).
        -- injection H2 as -> ->. intros. by destruct (Hclash k1 e1 p).
        -- intros. by eapply (Huniq k1 e1 k2 e2 p).
    + unfold mentions. cbn [s_entities]. rewrite sum_set, Hfresh. cbn [from_option].
      unfold weight. rewrite (Hor : e_projectId entity = Some pid).
      rewrite decide_True by done. change (e_frequency entity) with (Some 1%Z).
      simpl. lia.
    + intros p Hne. unfold mentions. cbn [s_entities].
      rewrite sum_set, Hfresh. cbn [from_option].
      unfold weight. rewrite (Hor : e_projectId entity = Some pid).
      rewrite decide_False by congruence. lia.
    + done.
    + simpl. intros k' e' Hin'. exists e'. split; [|done].
      apply JSMap_set_other; [done|]. intros ->.
      apply JSMap_get_None in Hfresh. destruct Hfresh.
      apply list_elem_of_fmap. by exists (randomUUID (s_drawn st), e').
    + exists (randomUUID (s_drawn st)), entity.
      split; [apply JSMap_set_in|]. split_and!; [exact Hor|done..].
Qed.

(** Among the entities of a project that are filed under different keys,
    no two have the same name and type. *)
Lemma project_names_distinct pid (m : JSMap.t Entity) :
  NoDup m.*1 →
  (∀ k1 e1 k2 e2, (k1, e1) ∈ m → (k2, e2) ∈ m →
     e_projectId e1 = Some pid → e_projectId e2 = Some pid →
     e_name e1 = e_name e2 → e_type e1 = e_type e2 → k1 = k2) →
  NoDup ((λ e, (e_name e, e_type e))
           <$> filter (λ e, e_projectId e = Some pid) (JSMap.values m)).
Proof.
  unfold JSMap.values. induction m as [|[k e] m IH]; intros Hnd Huniq; [constructor|].
  apply NoDup_cons in Hnd as [Hk Hnd]. csimpl. rewrite filter_cons.
  assert (Hrest : NoDup ((λ e, (e_name e, e_type e))
                           <$> filter (λ e, e_projectId e = Some pid) m.*2)).
  { apply IH; [done|]. intros k1 e1 k2 e2 H1 H2. apply Huniq; by right. }
  case_decide as Hp; [|done]. csimpl. constructor; [|done].
  intros (e2 & Heq & [Hp2 ([k2 e2'] & -> & Hin2)%list_elem_of_fmap]%list_elem_of_filter)
    %list_elem_of_fmap.
  injection Heq as Hn Ht. simpl in *.
  assert (k = k2) as <-.
  { apply (Huniq k e k2 e2'); [by left|by right|done..]. }
  apply Hk. apply list_elem_of_fmap. by exists (k, e2').
Qed.

(** X22. The loop of the scraping job that saves the entities of a document
    keeps the entities sound. After it no two entities of the project have
    the same name and type, every entity found is stored, the frequencies
    of the entities of the project have grown by the number of entities
    found, and those of the other projects are what they were. The
    identifiers that [randomUUID] hands out are assumed to differ. *)
Theorem entities_counted_per_mention pid doc extracted st :
  pid ≠ "" → sound st →
  let st' := save_entities randomUUID pid doc extracted st in
  sound st' ∧
  NoDup ((λ e, (e_name e, e_type e)) <$> getEntitiesByProject pid st') ∧
  mentions pid st' = (mentions pid st + Z.of_nat (length extracted))%Z ∧
  (∀ p, p ≠ pid → mentions p st' = mentions p st) ∧
  Forall (λ x, ∃ e, e ∈ getEntitiesByProject pid st' ∧
                    e_name e = x_text x ∧ e_type e = x_label x) extracted.
Proof.
  intros Hpid Hst. cbn zeta. unfold save_entities.
  assert (Hgen : ∀ st, sound st →
    let st' := foldl (save_entity randomUUID pid doc) st extracted in
    sound st' ∧
    mentions pid st' = (mentions pid st + Z.of_nat (length extracted))%Z ∧
    (∀ p, p ≠ pid → mentions p st' = mentions p st) ∧
    (∀ k e, (k, e) ∈ s_entities st →
       ∃ e', (k, e') ∈ s_entities st' ∧ e_projectId e' = e_projectId e ∧
             e_name e' = e_name e ∧ e_type e' = e_type e) ∧
    Forall (λ x, ∃ e, e ∈ getEntitiesByProject pid st' ∧
                      e_name e = x_text x ∧ e_type e = x_label x) extracted).
  { clear st Hst. induction extracted as [|x xs IH]; intros st Hst; cbn [foldl].
    { cbn zeta. split_and!; [done|simpl; lia|done| |constructor].
      intros k e Hin. by exists e. }
    destruct (save_entity_sound pid doc st x Hpid Hst)
      as (Hs1 & Hm1 & Ho1 & _ & Hkeep1 & (k & e & Hin & Hp & Hn & Ht)).
    destruct (IH _ Hs1) as (Hs2 & Hm2 & Ho2 & Hkeep2 & Hall).
    cbn zeta in *. split_and!.
    - done.
    - rewrite Hm2, Hm1. simpl. lia.
    - intros p Hne. by rewrite Ho2, Ho1.
    - intros k0 e0 Hin0. destruct (Hkeep1 k0 e0 Hin0) as (e1 & Hin1 & Hp1 & Hn1 & Ht1).
      destruct (Hkeep2 k0 e1 Hin1) as (e2 & Hin2 & Hp2 & Hn2 & Ht2).
      exists e2. split; [done|]. by rewrite Hp2, Hn2, Ht2.
    - constructor; [|done].
      destruct (Hkeep2 k e Hin) as (e2 & Hin2 & Hp2 & Hn2 & Ht2).
      exists e2. rewrite project_entities. split_and!; [congruence|by exists k|congruence..]. }
  destruct (Hgen st Hst) as (Hs & Hm & Ho & _ & Hall). cbn zeta in *.
  split_and!; try done.
  unfold getEntitiesByProject. rewrite sort_by_perm.
  destruct Hs as [Hkeys _ _ Huniq]. apply project_names_distinct; [done|].
  intros. by eapply Huniq.
Qed.

End Entities.

(** X25. In [MemStorage], an entity that was created is found under its
    identifier, which is the next one of [randomUUID], and the other
    entities are what they were; updating an identifier that is not there
    returns [undefined] and changes nothing, while updating one that is
    there stores the merged entity; a document that was deleted is no
    longer found, the answer tells whether it was there, and the other
    documents are what they were. *)
Theorem storage_round_trips (randomUUID : nat → string) st :
  (∀ insertEntity,
     let made := createEntity randomUUID insertEntity st in
     getEntity (e_id made.1) made.2 = Some made.1 ∧
     e_id made.1 = randomUUID (s_drawn st) ∧
     s_drawn made.2 = S (s_drawn st) ∧
     ∀ id, id ≠ e_id made.1 → getEntity id made.2 = getEntity id st) ∧
  (∀ id updates,
     getEntity id st = None → updateEntity id updates st = (None, st)) ∧
  (∀ id updates entity,
     getEntity id st = Some entity →
     let changed := updateEntity id updates st in
     changed.1 = Some (patch entity updates) ∧
     getEntity id changed.2 = Some (patch entity updates) ∧
     ∀ id', id' ≠ id → getEntity id' changed.2 = getEntity id' st) ∧
  (∀ id,
     let left := deleteDocument id st in
     left.1 = bool_decide (is_Some (getDocument id st)) ∧
     getDocument id left.2 = None ∧
     ∀ id', id' ≠ id → getDocument id' left.2 = getDocument id' st).
Proof.
  unfold getEntity, getDocument. split_and!.
  - intros insertEntity. cbn zeta. unfold createEntity. cbn [fst snd e_id s_entities s_drawn].
    rewrite JSMap_get_set, decide_True by done. split_and!; try done.
    intros id Hne. rewrite JSMap_get_set. by rewrite decide_False.
  - intros id updates Hnone. unfold updateEntity. by rewrite Hnone.
  - intros id updates entity Hsome. cbn zeta. unfold updateEntity. rewrite Hsome.
    cbn [fst snd s_entities]. rewrite JSMap_get_set, decide_True by done.
    split_and!; try done.
    intros id' Hne. rewrite JSMap_get_set. by rewrite decide_False.
  - intros id. cbn zeta. unfold deleteDocument, JSMap.has. cbn [fst snd s_documents].
    split_and!; [done| |].
    + rewrite JSMap_get_remove. by rewrite decide_True.
    + intros id' Hne. rewrite JSMap_get_remove. by rewrite decide_False.
Qed.

(** *** Documents *)

Lemma sort_insert_sorted {A} (key : A → Z) x l :
  Sorted (λ a b, (key b ≤ key a)%Z) l →
  Sorted (λ a b, (key b ≤ key a)%Z) (sort_insert (λ a b, (key b - key a)%Z) x l).
Proof.
  induction 1 as [|y l Hs IH Hhd]; simpl; [by repeat constructor|].
  case_decide as Hle.
  - constructor; [by constructor|]. constructor. lia.
  - constructor; [done|]. destruct Hhd as [|z l Hz]; simpl.
    + constructor. lia.
    + case_decide; constructor; lia.
Qed.

Lemma sort_by_sorted {A} (key : A → Z) l :
  Sorted (λ a b, (key b ≤ key a)%Z) (sort_by (λ a b, (key b - key a)%Z) l).
Proof.
  unfold sort_by. induction l as [|x l IH]; simpl; [constructor|].
  by apply sort_insert_sorted.
Qed.

(** X23. [getDocumentsByProject] lists the documents of the project, each one
    once, the newest first. *)
Theorem documents_newest_first pid st :
  getDocumentsByProject pid st
  ≡ₚ filter (λ doc, d_projectId doc = Some pid) (JSMap.values (s_documents st)) ∧
  Sorted (λ a b, (default 0 (d_createdAt b) ≤ default 0 (d_createdAt a))%Z)
         (getDocumentsByProject pid st).
Proof.
  unfold getDocumentsByProject. split; [apply sort_by_perm|].
  apply (sort_by_sorted (λ doc, default 0%Z (d_createdAt doc))).
Qed.


End StorageFacts.

(** ** The worked example *)

#[local] Existing Instance Demo.web.

Lemma demo_reachable :
  reachable job_onProgress Demo.config Demo.sched Demo.final.
Proof. apply (job_reachable Demo.config Demo.sched Demo.process 9). Qed.

(** C1, as written, fails: the page [a] of the example links to a page of
    [evil.org] whose URL mentions [ex.test], and that link is placed on the
    frontier. *)
Lemma same_host_counterexample :
  ¬ same_host_claim job_onProgress Demo.config Demo.sched.
Proof.
  intros Hclaim.
  specialize (Hclaim Demo.final
    {| q_url := Demo.partner; q_depth := 1; q_category := "A" |} demo_reachable).
  assert (Hhost : getDomain Demo.partner = getDomain (targetUrl Demo.config) → False)
    by (vm_compute; discriminate).
  apply Hhost, Hclaim.
  apply (list_elem_of_lookup_2 _ 10). vm_compute. reflexivity.
Qed.

Lemma frontier_mentions_domain_witness :
  reachable job_onProgress Demo.config Demo.sched Demo.final ∧
  EEnqueue {| q_url := Demo.partner; q_depth := 1; q_category := "A" |}
    ∈ log Demo.final ∧
  JS.includes Demo.partner (getDomain (targetUrl Demo.config)) = true.
Proof.
  assert (Hin : EEnqueue {| q_url := Demo.partner; q_depth := 1; q_category := "A" |}
                ∈ log Demo.final).
  { apply (list_elem_of_lookup_2 _ 10). vm_compute. reflexivity. }
  split_and!; [exact demo_reachable|exact Hin|].
  exact (frontier_mentions_domain job_onProgress Demo.config Demo.sched
           Demo.final _ demo_reachable Hin).
Defined.

(** C2, as written, fails: the root of the example is fetched by
    [extractCategories], which does not make it visited; the page [a] links
    back to it, and it is fetched once more as a queue entry. *)
Lemma seed_fetched_twice_counterexample :
  ¬ fetched_once_claim job_onProgress Demo.config Demo.sched.
Proof.
  intros Hclaim. specialize (Hclaim Demo.final demo_reachable).
  assert (Hfetches : fetches (log Demo.final)
                     = [Demo.root; Demo.partner; Demo.page_c; Demo.page_b;
                        Demo.page_a; Demo.root]) by (vm_compute; reflexivity).
  rewrite Hfetches in Hclaim.
  apply NoDup_cons in Hclaim as [Hroot _].
  apply Hroot. do 4 right. by left.
Qed.

Lemma no_url_fetched_twice_witness :
  reachable job_onProgress Demo.config Demo.sched Demo.final ∧
  reverse (fetches (log Demo.final))
  = [Demo.root; Demo.page_a; Demo.page_b; Demo.page_c; Demo.partner; Demo.root] ∧
  NoDup (q_url <$> fetched (log Demo.final)).
Proof.
  split; [exact demo_reachable|]. split; [vm_compute; reflexivity|].
  exact (proj1 (proj2 (no_url_fetched_twice job_onProgress Demo.config Demo.sched
                         Demo.final demo_reachable))).
Defined.

Lemma depth_bound_witness :
  reachable job_onProgress Demo.config Demo.sched Demo.final ∧
  levels Demo.config = 1 ∧
  ∀ page, EYield page ∈ log Demo.final → depth page ≤ levels Demo.config.
Proof.
  split; [exact demo_reachable|]. split; [reflexivity|].
  exact (proj1 (depth_bound job_onProgress Demo.config Demo.sched Demo.final
                  demo_reachable)).
Defined.

(** C3 fails for [maxDepth: 1.5]: on the site that is a chain, [b] is
    fetched at depth 1, which is below 1.5, so its link [c] is placed on
    the frontier at depth 2; [c] is then fetched and yielded at depth 2,
    above [maxDepth]. *)
Theorem fractional_depth_overshoots :
  let lg := log (crawl (@job_run Samples.chain Samples.fractional
                          Demo.sched Demo.process 9)) in
  (1 <= maxDepth Samples.fractional)%Q ∧ (maxDepth Samples.fractional <= 5)%Q ∧
  ∃ page,
    EYield page ∈ lg ∧
    EFetch {| q_url := Demo.page_c; q_depth := 2; q_category := "A" |} ∈ lg ∧
    url page = Demo.page_c ∧ depth page = 2 ∧
    (maxDepth Samples.fractional < inject_Z (Z.of_nat (depth page)))%Q.
Proof.
  cbn zeta. split; [by vm_compute|]. split; [by vm_compute|].
  exists {| url := Demo.page_c; title := "C"; content := "third"; wordCount := 1;
            depth := 2; category := "A"; links := []; images := [] |}.
  split_and!; [| |reflexivity..].
  - apply (list_elem_of_lookup_2 _ 0). vm_compute. reflexivity.
  - apply (list_elem_of_lookup_2 _ 2). vm_compute. reflexivity.
Qed.

(** C4, as written, fails: in the first batch of the example the fetch of
    [b] settles before the fetch of [a], yet [a] is yielded first, and [b]
    is yielded only after the fetch of [a] has settled too. *)
Lemma settlement_counterexample :
  ¬ settlement_order (log Demo.final) ∧ ¬ yield_on_settlement (log Demo.final).
Proof.
  split.
  - intros Hclaim. vm_compute in Hclaim. discriminate.
  - intros Hclaim.
    specialize (Hclaim (take 7 (log Demo.final))
      {| url := Demo.page_b; title := Demo.page_b; content := ""; wordCount := 1;
         depth := 0; category := "B"; links := []; images := [] |}
      (drop 8 (log Demo.final))).
    assert (Hhead : p_url <$> head (progressed (drop 8 (log Demo.final)))
                    = Some Demo.page_a) by (vm_compute; reflexivity).
    rewrite Hhead in Hclaim.
    assert (Hneq : Some Demo.page_a ≠ Some Demo.page_b) by discriminate.
    apply Hneq, Hclaim. vm_compute. reflexivity.
Qed.

(** C5, as written, fails: [c] answers 500, [scrapePage] throws the error
    [HTTP 500: Internal Server Error] and swallows it, and the snapshot says
    [Failed to scrape page], in which that text does not occur. *)
Lemma failure_text_counterexample :
  ¬ failure_text_claim job_onProgress Demo.config Demo.sched.
Proof.
  intros Hclaim.
  specialize (Hclaim Demo.final
    {| p_url := Demo.page_c; status := error; totalProcessed := 3;
       message := "Failed to scrape page" |}
    {| q_url := Demo.page_c; q_depth := 1; q_category := "A" |}
    (ErrorObj "HTTP 500: Internal Server Error") demo_reachable).
  assert (Hnot : JS.includes "Failed to scrape page"
                   (error_message (ErrorObj "HTTP 500: Internal Server Error"))
                 = true → False) by (vm_compute; discriminate).
  apply Hnot, Hclaim; try reflexivity.
  - apply (list_elem_of_lookup_2 _ 4). vm_compute. reflexivity.
  - apply (list_elem_of_lookup_2 _ 6). vm_compute. reflexivity.
Qed.

Lemma failed_fetch_message_witness :
  scrapePage_try Demo.page_c 1 (domain Demo.config) "A"
  = Throw (ErrorObj "HTTP 500: Internal Server Error") ∧
  ∃ newer,
    log (task job_onProgress Demo.config
           {| q_url := Demo.page_c; q_depth := 1; q_category := "A" |}
           Demo.idle).1
    = newer ++ EProgress {| p_url := Demo.page_c; status := error;
                            totalProcessed := 1;
                            message := "Failed to scrape page" |}
            :: log Demo.idle.
Proof.
  assert (Hthrow : scrapePage_try Demo.page_c 1 (domain Demo.config) "A"
                   = Throw (ErrorObj "HTTP 500: Internal Server Error"))
    by (vm_compute; reflexivity).
  split; [exact Hthrow|].
  exact (failed_fetch_message job_onProgress Demo.config
           {| q_url := Demo.page_c; q_depth := 1; q_category := "A" |}
           Demo.idle (ErrorObj "HTTP 500: Internal Server Error") Hthrow).
Defined.

Lemma job_completes_witness :
  1 ≤ maxWorkers Demo.config ∧
  ∃ n pr, ended (job_run Demo.config Demo.sched Demo.process n) = true ∧
    project (world (crawl (job_run Demo.config Demo.sched Demo.process n)))
    = Some pr ∧
    project_status pr = completed ∧
    queue (crawl (job_run Demo.config Demo.sched Demo.process n)) = [] ∧
    fetched (log (crawl (job_run Demo.config Demo.sched Demo.process n)))
    = enqueued (log (crawl (job_run Demo.config Demo.sched Demo.process n))).
Proof.
  assert (Hmw : 1 ≤ maxWorkers Demo.config) by (simpl; lia).
  split; [exact Hmw|].
  destruct (job_completes Demo.config Demo.sched Demo.process Hmw)
    as (n & pr & Hend & Hpr & _ & _ & _ & Hok & _ & Hall).
  assert (Hdone : project_status pr = completed).
  { apply Hok. intros page _. reflexivity. }
  destruct (Hall Hdone) as (Hq & _ & Hsame & _).
  exists n, pr. split_and!; [exact Hend|exact Hpr|exact Hdone|exact Hq|exact Hsame].
Defined.

(** C8 fails on the page [b] of the example, whose text is empty: its
    cleaned text is the empty string, which has no token, and its word
    count is 1. *)
Theorem empty_page_counts_one_word :
  ∃ page, scrapePage Demo.page_b 0 (domain Demo.config) "B" = Some page ∧
    content page = "" ∧ String.words (content page) = [] ∧ wordCount page = 1.
Proof. eexists. split; [vm_compute; reflexivity|]. by vm_compute. Qed.

(** A title that is a no-break space and an ideographic space trims to the
    empty string, and the page gets its URL as title. *)
Lemma title_falls_back_witness :
  ∃ page response,
    @scrapePage Samples.spaced Demo.root 0 "ex.test" "A" = Some page ∧
    @fetch Samples.spaced Demo.root = Ok response ∧
    text response = Ok Samples.spaced_page ∧
    cleaned Samples.spaced_page "title" ≠ [] ∧
    JS.trim (sel_text (cleaned Samples.spaced_page "title")) = "" ∧
    title page = Demo.root.
Proof.
  eexists _, _.
  assert (Hp : @scrapePage Samples.spaced Demo.root 0 "ex.test" "A" = Some _)
    by (vm_compute; reflexivity).
  assert (Hf : @fetch Samples.spaced Demo.root = Ok _) by reflexivity.
  assert (Ht : text {| r_status := 200; statusText := "OK";
                       text := Ok Samples.spaced_page |}
               = Ok Samples.spaced_page) by reflexivity.
  assert (Hblank : JS.trim (sel_text (cleaned Samples.spaced_page "title")) = "")
    by (vm_compute; reflexivity).
  split_and!; [exact Hp|exact Hf|exact Ht|discriminate|exact Hblank|].
  exact (@title_falls_back Samples.spaced _ _ _ _ _ _ _ Hp Hf Ht
           (or_intror Hblank)).
Defined.

Lemma getDomain_total_witness :
  getDomain "not a URL" = "" ∧
  ∃ page, scrapePage Demo.page_a 0 (getDomain "not a URL") "A" = Some page ∧
    links page = [Demo.page_c; Demo.partner; Demo.root] ∧
    Demo.partner ∈ links page.
Proof.
  destruct (getDomain_total "not a URL") as (_ & _ & Hthrow & Hall).
  assert (Hempty : getDomain "not a URL" = "").
  { apply (Hthrow (ErrorObj "Invalid URL")). reflexivity. }
  split; [exact Hempty|].
  destruct (Hall Hempty) as (_ & Hlinks & _).
  assert (Hp : scrapePage Demo.page_a 0 (getDomain "not a URL") "A" = Some _)
    by (vm_compute; reflexivity).
  eexists. split; [exact Hp|]. split; [reflexivity|].
  refine (Hlinks Demo.page_a 0 "A" _ _ _
            (Demo.anchor "partner" Demo.partner) Demo.partner
            {| href := Demo.partner; hostname := "evil.org" |}
            Hp eq_refl eq_refl _ eq_refl _ eq_refl).
  - apply (list_elem_of_lookup_2 _ 1). reflexivity.
  - discriminate.
Defined.

(** The fetch of [extractCategories] puts nothing into the visited set: the
    root of the example is placed on the frontier when [a] links back to it,
    and is then fetched as a queue entry. *)
Lemma root_scraped_after_seeding :
  ECategories Demo.root ∈ log Demo.final ∧
  EFetch {| q_url := Demo.root; q_depth := 1; q_category := "A" |}
    ∈ log Demo.final.
Proof.
  split.
  - apply (list_elem_of_lookup_2 _ 18). vm_compute. reflexivity.
  - apply (list_elem_of_lookup_2 _ 2). vm_compute. reflexivity.
Qed.

(** With a callback that throws, the [catch] of the task counts and reports
    a second time: one fetch, two snapshots, and no page handed back. *)
Lemma throwing_callback_counts_twice :
  let out := task Demo.flaky Demo.config
               {| q_url := Demo.page_b; q_depth := 0; q_category := "B" |}
               Demo.idle_flaky in
  processed out.1 = 2 ∧ out.2 = Ok None ∧
  message <$> progressed (log out.1) = ["listener failed"; "Found 0 links, 1 words"].
Proof. by vm_compute. Qed.

(** ** More worked examples *)

Lemma scraped_links_distinct_witness :
  ∃ page, scrapePage Demo.page_a 0 (domain Demo.config) "A" = Some page ∧
    NoDup (links page) ∧ NoDup (images page).
Proof.
  eexists.
  assert (Hp : scrapePage Demo.page_a 0 (domain Demo.config) "A" = Some _)
    by (vm_compute; reflexivity).
  split; [exact Hp|].
  exact (scraped_links_distinct _ _ _ _ _ Hp).
Defined.

Lemma unparsable_link_loses_page_witness :
  @fetch Samples.broken Demo.root
  = Demo.respond 200 "OK"
      (Demo.page ["Broken"] "text" [Demo.anchor "bad" "http://["]) ∧
  @new_URL Samples.broken "http://[" (Some Demo.root)
  = Throw (ErrorObj "Invalid URL") ∧
  @scrapePage Samples.broken Demo.root 0 "ex.test" "" = None.
Proof.
  assert (Hf : @fetch Samples.broken Demo.root
               = Demo.respond 200 "OK"
                   (Demo.page ["Broken"] "text" [Demo.anchor "bad" "http://["]))
    by reflexivity.
  assert (Hu : @new_URL Samples.broken "http://[" (Some Demo.root)
               = Throw (ErrorObj "Invalid URL")) by reflexivity.
  split_and!; [exact Hf|exact Hu|].
  apply (@unparsable_link_loses_page Samples.broken Demo.root 0 "ex.test" ""
           {| r_status := 200; statusText := "OK";
              text := Ok (Demo.page ["Broken"] "text" [Demo.anchor "bad" "http://["]) |}
           (Demo.page ["Broken"] "text" [Demo.anchor "bad" "http://["])
           (Demo.anchor "bad" "http://[") "href" "http://["
           (ErrorObj "Invalid URL") Hf eq_refl).
  - left. split; [reflexivity|]. apply list_elem_of_singleton. reflexivity.
  - reflexivity.
  - discriminate.
  - exact Hu.
Defined.

(** A text with a no-break space and an ideographic space between its
    words. *)
Lemma content_is_tidy_witness :
  ∃ page, @scrapePage Samples.spaced Demo.root 0 "ex.test" "A" = Some page ∧
    content page = "a b c d" ∧
    (content page = "" ∨ tidy true (content page) = true) ∧
    JS.split " " (content page) = ["a"; "b"; "c"; "d"].
Proof.
  eexists.
  assert (Hp : @scrapePage Samples.spaced Demo.root 0 "ex.test" "A" = Some _)
    by (vm_compute; reflexivity).
  split_and!; [exact Hp|reflexivity| |reflexivity].
  exact (proj1 (@content_is_tidy Samples.spaced _ _ _ _ _ Hp)).
Defined.

(** In the example, once the two fetches of the first batch have been
    started and none has reported, two fetches are in flight. *)
Lemma fetches_in_flight_witness :
  reachable job_onProgress Demo.config Demo.sched Demo.final ∧
  in_flight (drop 14 (log Demo.final)) = 2 ∧
  in_flight (drop 14 (log Demo.final)) ≤ maxWorkers Demo.config.
Proof.
  split_and!; [exact demo_reachable|vm_compute; reflexivity|].
  exact (fetches_in_flight job_onProgress Demo.config Demo.sched Demo.final
           (take 14 (log Demo.final)) (drop 14 (log Demo.final))
           demo_reachable (eq_sym (take_drop 14 (log Demo.final)))).
Defined.

Lemma categories_inherited_witness :
  reachable job_onProgress Demo.config Demo.sched Demo.final ∧
  category_names Demo.config = ["A"; "B"] ∧
  ∀ page, EYield page ∈ log Demo.final → category page ∈ category_names Demo.config.
Proof.
  split_and!; [exact demo_reachable|vm_compute; reflexivity|].
  exact (proj2 (proj2 (categories_inherited job_onProgress Demo.config Demo.sched
                         Demo.final demo_reachable))).
Defined.

Lemma empty_frontier_completes_witness :
  extractCategories (targetUrl Samples.down) (domain Samples.down) = [] ∧
  ended (job_run Samples.down Demo.sched Demo.process 1) = true ∧
  world (crawl (job_run Samples.down Demo.sched Demo.process 1))
  = set_status completed scraping_completed job_start.
Proof.
  assert (He : extractCategories (targetUrl Samples.down) (domain Samples.down) = [])
    by (vm_compute; reflexivity).
  split; [exact He|].
  destruct (empty_frontier_completes Samples.down Demo.sched Demo.process He)
    as (Hend & _ & Hw).
  split; [exact Hend|exact Hw].
Defined.

Lemma entities_counted_per_mention_witness :
  let st' := Storage.save_entities pretty "p1" "doc1" Samples.found Storage.empty in
  Storage.mentions "p1" Storage.empty = 0%Z ∧
  Storage.mentions "p1" st' = 3%Z ∧
  NoDup ((λ e, (e_name e, e_type e)) <$> Storage.getEntitiesByProject "p1" st').
Proof.
  cbn zeta.
  destruct (entities_counted_per_mention (pretty : nat → string) "p1" "doc1"
              Samples.found Storage.empty ltac:(discriminate)
              (sound_empty pretty))
    as (_ & Hnd & Hm & _).
  split_and!; [reflexivity|exact Hm|exact Hnd].
Defined.

